(** * Crossword: the constraint-satisfaction engine of [generate.py]

    A shallow embedding of [CrosswordCreator] (node consistency, AC-3,
    the ordering heuristics and the backtracking search) and the
    properties its specification states about it.

    Conventions of the embedding.
    - A Python [set] is a list holding its elements in iteration order; a
      Python [dict] is an association list in insertion order whose keys
      are pairwise distinct.
    - [self.domains] is threaded explicitly: a method that mutates it
      takes the store and returns the new one.
    - A Python exception is the outcome [Raise]; the recursion and the
      worklist loop take fuel, and [Timeout] is the outcome of running
      out of it. *)

From Stdlib Require Import List Arith Bool ZArith Lia String Ascii Permutation.
Import ListNotations.

Local Open Scope list_scope.

(** ** Outcomes *)

Inductive exn : Type := IndexError | KeyError | TypeError.

Inductive res (A : Type) : Type :=
| Ok (a : A)
| Raise (e : exn)
| Timeout.

Arguments Ok {A} a.
Arguments Raise {A} e.
Arguments Timeout {A}.

Definition bind {A B : Type} (m : res A) (f : A -> res B) : res B :=
  match m with
  | Ok a => f a
  | Raise e => Raise e
  | Timeout => Timeout
  end.

Notation "x <- m ;; k" := (bind m (fun x => k))
  (at level 61, m at next level, right associativity).
Notation "' p <- m ;; k" := (bind m (fun x => match x with p => k end))
  (at level 61, p pattern, m at next level, right associativity).

(** ** Data model *)

Inductive Direction : Type := ACROSS | DOWN.

(** The class Variable of crossword.py (the name is a keyword here,
    hence [Var]): start row [i], start column [j],
    direction and length; equality is equality of the four fields. *)
Record Var : Type := mkVar {
  var_i : nat;
  var_j : nat;
  direction : Direction;
  length : nat
}.

Definition word : Type := string.

Definition Direction_eq_dec (a b : Direction) : {a = b} + {a <> b}.
Proof. decide equality. Defined.

Definition Var_eq_dec (x y : Var) : {x = y} + {x <> y}.
Proof. decide equality; try apply Nat.eq_dec; apply Direction_eq_dec. Defined.

Definition var_eqb (x y : Var) : bool :=
  if Var_eq_dec x y then true else false.

(** [w in l] for a set or list of words. *)
Definition mem (w : word) (l : list word) : bool :=
  existsb (String.eqb w) l.

(** Truthiness of a Python string. *)
Definition truthy (w : word) : bool :=
  negb (String.eqb w EmptyString).

(** [w[n]]: [IndexError] when [n] is out of range. *)
Definition index (w : word) (n : nat) : res ascii :=
  match String.get n w with
  | Some ch => Ok ch
  | None => Raise IndexError
  end.

(** ** Dictionaries keyed by variables *)

Module Dict.
Section Dict.
Context {V : Type}.

Definition t : Type := list (Var * V).

Definition keys (d : t) : list Var := map fst d.
Definition values (d : t) : list V := map snd d.

Fixpoint get (d : t) (k : Var) : option V :=
  match d with
  | [] => None
  | (k', v) :: d' => if Var_eq_dec k k' then Some v else get d' k
  end.

(** [d[k] = v]: replaces the value of an existing key where it stands,
    appends a new key at the end. *)
Fixpoint set (d : t) (k : Var) (v : V) : t :=
  match d with
  | [] => [(k, v)]
  | (k', v') :: d' =>
      if Var_eq_dec k k' then (k', v) :: d'
      else (k', v') :: set d' k v
  end.

(** [d[k]] as an expression: [KeyError] on a missing key. *)
Definition getitem (d : t) (k : Var) : res V :=
  match get d k with
  | Some v => Ok v
  | None => Raise KeyError
  end.

Definition wf (d : t) : Prop := NoDup (keys d).
End Dict.
Arguments t : clear implicits.
End Dict.

Definition store : Type := Dict.t (list word).
Definition assignment : Type := Dict.t word.

(** The puzzle model of crossword.py, which the engine only reads:
    the variables in the iteration order of the set, the overlap table
    as a function of the ordered pair, and the vocabulary. *)
Record Crossword : Type := mkCrossword {
  variables : list Var;
  overlaps : Var -> Var -> option (nat * nat);
  words : list word
}.

(** Modelled from the spec: the keys of the overlap table, which
    crossword.py builds for every ordered pair of distinct variables. *)
Definition overlap_keys (c : Crossword) : list (Var * Var) :=
  flat_map (fun v1 =>
    map (fun v2 => (v1, v2))
        (filter (fun v2 => negb (var_eqb v1 v2)) (variables c)))
    (variables c).

(** Modelled from the spec: [Crossword.neighbors], the other variables
    with a defined overlap with [var]. *)
Definition neighbors (c : Crossword) (var : Var) : list Var :=
  filter (fun v => negb (var_eqb v var) &&
                   match overlaps c v var with Some _ => true | None => false end)
         (variables c).

(** ** CrosswordCreator *)

Section Creator.
Variable c : Crossword.

(** [__init__]: every variable starts with a copy of the vocabulary. *)
Definition init_domains : store :=
  map (fun var => (var, words c)) (variables c).

(** [enforce_node_consistency] *)
Definition enforce_node_consistency (d : store) : store :=
  map (fun '(var, ws) =>
         (var, filter (fun w => String.length w =? length var) ws)) d.

(** [any(i[m] == y_element[n] for y_element in self.domains[y])] *)
Fixpoint any_match (i : word) (m n : nat) (dy : list word) : res bool :=
  match dy with
  | [] => Ok false
  | y_element :: dy' =>
      a <- index i m ;;
      b <- index y_element n ;;
      if Ascii.eqb a b then Ok true else any_match i m n dy'
  end.

(** The loop of [revise] over [self.domains[x]]: the set [remove] and
    the flag [revised]. *)
Fixpoint revise_scan (d : store) (y : Var) (m n : nat)
         (dx : list word) : res (list word * bool) :=
  match dx with
  | [] => Ok ([], false)
  | i :: dx' =>
      dy <- Dict.getitem d y ;;
      found <- any_match i m n dy ;;
      '(remove, revised) <- revise_scan d y m n dx' ;;
      if found then Ok (remove, revised) else Ok (i :: remove, true)
  end.

(** [s - remove] *)
Definition difference (s remove : list word) : list word :=
  filter (fun w => negb (mem w remove)) s.

(** [revise] *)
Definition revise (x y : Var) (d : store) : res (bool * store) :=
  '(remove, revised) <-
     match overlaps c x y with
     | Some (m, n) =>
         dx <- Dict.getitem d x ;;
         revise_scan d y m n dx
     | None => Ok ([], false)
     end ;;
  dx <- Dict.getitem d x ;;
  Ok (revised, Dict.set d x (difference dx remove)).

(** The initial list of [ac3] when [arcs] is [None]. *)
Definition all_arcs : list (Var * Var) :=
  filter (fun '(x, y) =>
            match overlaps c x y with Some _ => true | None => false end)
         (overlap_keys c).

(** The [for arc in arcs] loop of [ac3]; the list grows at its end
    while it is traversed, so the loop runs on the part of the list
    not yet visited. *)
Fixpoint ac3_loop (fuel : nat) (dom : bool)
         (arcs : list (Var * Var)) (d : store)
  : res (bool * store) :=
  match fuel with
  | O => Timeout
  | S fuel' =>
      match arcs with
      | [] => Ok (true, d)
      | (x, y) :: rest =>
          '(revised, d1) <- revise x y d ;;
          if revised then
            dx <- Dict.getitem d1 x ;;
            if List.length dx =? 0 then Ok (false, d1)
            else if negb dom then
              ac3_loop fuel' dom
                (rest ++ map (fun z => (z, x))
                           (filter (fun z => negb (var_eqb z y))
                                   (neighbors c x)))
                d1
            else ac3_loop fuel' dom rest d1
          else ac3_loop fuel' dom rest d1
      end
  end.

(** The number of words held by the store. *)
Definition store_size (d : store) : nat :=
  list_sum (map (fun e => List.length (snd e)) d).

(** Fuel that the loop cannot exhaust (see [ac3_loop_terminates]). *)
Definition ac3_fuel (arcs : list (Var * Var)) (d : store) : nat :=
  S (List.length arcs + store_size d * List.length (variables c)).

(** Lines 138-139: the list the loop starts from. *)
Definition arcs_of (arcs : option (list (Var * Var))) : list (Var * Var) :=
  match arcs with
  | None => all_arcs
  | Some l => l
  end.

(** [ac3(arcs, dom)] *)
Definition ac3 (arcs : option (list (Var * Var))) (dom : bool)
           (d : store) : res (bool * store) :=
  let arcs := arcs_of arcs in
  ac3_loop (ac3_fuel arcs d) dom arcs d.

(** [assignment_complete] *)
Definition assignment_complete (a : assignment) : bool :=
  if List.length a =? List.length (variables c)
  then forallb truthy (Dict.values a)
  else false.

(** [n in assignment and assignment[n]] *)
Definition assigned (a : assignment) (n : Var) : bool :=
  match Dict.get a n with
  | Some w => truthy w
  | None => false
  end.

(** The loop of [consistent] over the neighbors of [i]; [true] when
    it runs to its end, [false] where the source returns False. *)
Fixpoint check_neighbors (a : assignment) (i : Var) (ai : word)
         (ns : list Var) : res bool :=
  match ns with
  | [] => Ok true
  | n :: ns' =>
      match Dict.get a n with
      | Some an =>
          if truthy an then
            match overlaps c n i with
            | Some (x, y) =>
                p <- index an x ;;
                q <- index ai y ;;
                if Ascii.eqb p q then check_neighbors a i ai ns'
                else Ok false
            | None => Raise TypeError
            end
          else check_neighbors a i ai ns'
      | None => check_neighbors a i ai ns'
      end
  end.

(** The loop of [consistent] over the entries of the assignment, the
    value [assignment[i]] of a key being the word of its entry. *)
Fixpoint consistent_loop (a : assignment) (items : list (Var * word))
         (seen_values : list word) : res bool :=
  match items with
  | [] => Ok true
  | (i, ai) :: items' =>
      if truthy ai then
        if negb (String.length ai =? length i) then Ok false
        else if mem ai seen_values then Ok false
        else
          ok <- check_neighbors a i ai (neighbors c i) ;;
          if ok then consistent_loop a items' (seen_values ++ [ai])
          else Ok false
      else consistent_loop a items' seen_values
  end.

(** [consistent] *)
Definition consistent (a : assignment) : res bool :=
  consistent_loop a a [].

(** Lines 196-198 of [order_domain_values]: the saved neighbor
    domains. *)
Fixpoint save_neighbors (d : store) (ns : list Var) (saved : store)
  : res store :=
  match ns with
  | [] => Ok saved
  | i :: ns' =>
      di <- Dict.getitem d i ;;
      save_neighbors d ns' (Dict.set saved i di)
  end.

(** Lines 202-204: the number of words the probe took from the
    domains of the neighbors that are not assigned. *)
Fixpoint eliminated (a : assignment) (saved d : store) (ns : list Var)
         (v_new : Z) : res Z :=
  match ns with
  | [] => Ok v_new
  | j :: ns' =>
      if negb (assigned a j) then
        oj <- Dict.getitem saved j ;;
        dj <- Dict.getitem d j ;;
        eliminated a saved d ns'
          (v_new + (Z.of_nat (List.length oj) - Z.of_nat (List.length dj)))%Z
      else eliminated a saved d ns' v_new
  end.

(** Lines 200-201: the probe of the candidate [i]. *)
Definition probe (var : Var) (list_neighbor : list Var) (i : word)
           (d : store) : res (bool * store) :=
  ac3 (Some (map (fun n => (n, var)) list_neighbor)) true
      (Dict.set d var [i]).

(** Lines 199-207: one probe per candidate, each run on the store
    that the probes before it left. *)
Fixpoint probe_loop (var : Var) (a : assignment) (list_neighbor : list Var)
         (saved : store) (cands : list word) (d : store)
         (domain : list word) (values : list Z)
  : res (list word * list Z * store) :=
  match cands with
  | [] => Ok (domain, values, d)
  | i :: cands' =>
      '(ok, d1) <- probe var list_neighbor i d ;;
      if ok then
        v_new <- eliminated a saved d1 list_neighbor 0%Z ;;
        probe_loop var a list_neighbor saved cands' d1
                   (domain ++ [i]) (values ++ [v_new])
      else probe_loop var a list_neighbor saved cands' d1 domain values
  end.

(** Lines 208-209 *)
Fixpoint restore_neighbors (saved : store) (ns : list Var) (d : store)
  : res store :=
  match ns with
  | [] => Ok d
  | i :: ns' =>
      oi <- Dict.getitem saved i ;;
      restore_neighbors saved ns' (Dict.set d i oi)
  end.

(** Order of the pairs [(value, word)], as Python compares tuples. *)
Definition pair_leb (p q : Z * word) : bool :=
  (fst p <? fst q)%Z || ((fst p =? fst q)%Z && String.leb (snd p) (snd q)).

Fixpoint insert_sorted (p : Z * word) (l : list (Z * word))
  : list (Z * word) :=
  match l with
  | [] => [p]
  | q :: l' => if pair_leb p q then p :: q :: l' else q :: insert_sorted p l'
  end.

(** [sorted]: the stable sort of the list. *)
Definition sorted (l : list (Z * word)) : list (Z * word) :=
  fold_right insert_sorted [] l.

(** [order_domain_values] *)
Definition order_domain_values (var : Var) (a : assignment) (d : store)
  : res (list word * store) :=
  original_var_domain <- Dict.getitem d var ;;
  let list_neighbor := neighbors c var in
  original_neighbor_domain <- save_neighbors d list_neighbor [] ;;
  '(domain, values, d1) <-
     probe_loop var a list_neighbor original_neighbor_domain
                original_var_domain d [] [] ;;
  d2 <- restore_neighbors original_neighbor_domain list_neighbor d1 ;;
  let d3 := Dict.set d2 var original_var_domain in
  Ok (map snd (sorted (combine values domain)), d3).

(** The loop of [select_unassigned_variable]; [length_] is [None]
    while it holds [float('inf')]. *)
Fixpoint select_loop (a : assignment) (d : store) (vars : list Var)
         (length_ : option nat) (chosen_variable : option Var)
         (length_neigh : nat) : res (option Var) :=
  match vars with
  | [] => Ok chosen_variable
  | i :: vars' =>
      if negb (List.length a =? 0) && assigned a i then
        select_loop a d vars' length_ chosen_variable length_neigh
      else
        di <- Dict.getitem d i ;;
        let Len := List.length di in
        if match length_ with None => true | Some l => Len <? l end then
          select_loop a d vars' (Some Len) (Some i)
                      (List.length (neighbors c i))
        else if match length_ with None => false | Some l => Len =? l end then
          let neighbor := List.length (neighbors c i) in
          if length_neigh <? neighbor then
            select_loop a d vars' length_ (Some i) length_neigh
          else select_loop a d vars' length_ chosen_variable length_neigh
        else select_loop a d vars' length_ chosen_variable length_neigh
  end.

(** [select_unassigned_variable] *)
Definition select_unassigned_variable (a : assignment) (d : store)
  : res (option Var) :=
  select_loop a d (variables c) None None 0.

(** What [backtrack] returns. *)
Inductive ret : Type :=
| RAssignment (a : assignment)
| RFalse
| RNone.

(** [if result:] *)
Definition ret_truthy (r : ret) : bool :=
  match r with
  | RAssignment a => negb (List.length a =? 0)
  | RFalse | RNone => false
  end.

(** What happened during a search, in order; not part of the source.
    [Call k a]: [backtrack] was entered at recursion depth [k] with
    [a]. [Try k var value]: the call at depth [k] executed
    [assignment[var] = value]. [Abort k var value]: in the call at
    depth [k] the propagation after that assignment returned False. *)
Inductive event : Type :=
| Call (depth : nat) (a : assignment)
| Try (depth : nat) (var : Var) (value : word)
| Abort (depth : nat) (var : Var) (value : word).

(** The [for value in ...] loop of [backtrack]; [rec] is the recursive
    call. The dictionary that [assignment[var] = value] mutates is
    never read again by a caller (each caller rebinds its name to a
    copy of [assignment1] or returns), so it is passed by value. *)
Fixpoint backtrack_loop
         (rec : assignment -> store -> res (ret * store * list event))
         (depth : nat) (var : Var) (assignment1 : assignment)
         (values : list word) (a : assignment) (d : store)
  : res (ret * store * list event) :=
  match values with
  | [] => Ok (RNone, d, [])
  | value :: values' =>
      let a' := Dict.set a var value in
      ok <- consistent a' ;;
      if ok then
        let domain := d in
        let d1 := Dict.set d var [value] in
        '(ok3, d2) <- ac3 (Some (map (fun i => (i, var)) (neighbors c var)))
                          false d1 ;;
        if negb ok3 then
          Ok (RFalse, d2, [Try depth var value; Abort depth var value])
        else
          '(result, d3, t1) <- rec a' d2 ;;
          if ret_truthy result then
            Ok (result, d3, Try depth var value :: t1)
          else
            '(r, d4, t2) <- backtrack_loop rec depth var assignment1
                              values' assignment1 domain ;;
            Ok (r, d4, Try depth var value :: t1 ++ t2)
      else
        '(r, d4, t2) <- backtrack_loop rec depth var assignment1
                          values' assignment1 d ;;
        Ok (r, d4, Try depth var value :: t2)
  end.

(** [backtrack]; [depth] only labels the events. *)
Fixpoint backtrack (fuel : nat) (depth : nat) (a : assignment) (d : store)
  : res (ret * store * list event) :=
  match fuel with
  | O => Timeout
  | S fuel' =>
      let assignment1 := a in
      if assignment_complete a then Ok (RAssignment a, d, [Call depth a])
      else
        var <- select_unassigned_variable a d ;;
        match var with
        | None => Raise KeyError
        | Some var =>
            '(values, d0) <- order_domain_values var a d ;;
            '(r, d1, t) <- backtrack_loop (backtrack fuel' (S depth)) depth
                             var assignment1 values a d0 ;;
            Ok (r, d1, Call depth a :: t)
        end
  end.

(** [solve], on the store [d] that the creator holds. *)
Definition solve (fuel : nat) (d : store) : res (ret * store * list event) :=
  let d1 := enforce_node_consistency d in
  '(_, d2) <- ac3 None false d1 ;;
  backtrack fuel 0 [] d2.

(** [CrosswordCreator(crossword).solve()], as [main] runs it. *)
Definition run (fuel : nat) : res (ret * store * list event) :=
  solve fuel init_domains.

End Creator.

(** ** Puzzles on a grid *)

(** Modelled from the spec: the cells of a slot and the overlap of two
    slots, the first cell of the first slot that the second slot also
    occupies, as the positions of that cell in the two slots (the
    constructor of crossword.py, which is not part of the engine). *)
Module Grid.

Fixpoint cells_from (i j : nat) (dir : Direction) (n : nat)
  : list (nat * nat) :=
  match n with
  | O => []
  | S n' =>
      (i, j) :: match dir with
                | DOWN => cells_from (S i) j dir n'
                | ACROSS => cells_from i (S j) dir n'
                end
  end.

Definition cells (v : Var) : list (nat * nat) :=
  cells_from (var_i v) (var_j v) (direction v) (length v).

Definition cell_eqb (p q : nat * nat) : bool :=
  (fst p =? fst q) && (snd p =? snd q).

Fixpoint index_of (p : nat * nat) (l : list (nat * nat)) : option nat :=
  match l with
  | [] => None
  | q :: l' => if cell_eqb p q then Some 0 else option_map S (index_of p l')
  end.

Fixpoint first_common (k : nat) (c1 c2 : list (nat * nat))
  : option (nat * nat) :=
  match c1 with
  | [] => None
  | p :: c1' =>
      match index_of p c2 with
      | Some j => Some (k, j)
      | None => first_common (S k) c1' c2
      end
  end.

(** The table has no entry for a variable paired with itself. *)
Definition overlap (v1 v2 : Var) : option (nat * nat) :=
  if Var_eq_dec v1 v2 then None
  else first_common 0 (cells v1) (cells v2).

Definition crossword (vars : list Var) (vocabulary : list word)
  : Crossword :=
  mkCrossword vars overlap vocabulary.

End Grid.

(** The structure used by the examples: five rows of three cells,

<<
      _ _ _
      _ # _
      _ _ _
      _ # _
      # _ _
>>

    with two across slots of length 3 ([top], [bottom]), a down slot of
    length 4 ([left]), a down slot of length 5 ([right]) and an across
    slot of length 2 in the last row ([tail]). *)
Module Examples.
Local Open Scope string_scope.

Definition top : Var := mkVar 0 0 ACROSS 3.
Definition bottom : Var := mkVar 2 0 ACROSS 3.
Definition left : Var := mkVar 0 0 DOWN 4.
Definition right : Var := mkVar 0 2 DOWN 5.
Definition tail : Var := mkVar 4 1 ACROSS 2.

(** The first four rows and the cell below [right]: a cycle of four
    slots that is arc consistent and has no solution. *)
Definition cycle : Crossword :=
  Grid.crossword [top; bottom; left; right]
    ["AXA"; "BXB"; "AXAX"; "BXBX"; "AXBXX"; "BXAXX"].

(** The whole structure, solvable only with "XQ" in [tail]. *)
Definition detour : Crossword :=
  Grid.crossword [top; bottom; left; right; tail]
    ["AXA"; "AYA"; "BXB"; "BYB"; "AXAX"; "BXBX"; "AYAX"; "BYBX";
     "AXBXP"; "BXAXP"; "AXAXZ"; "BXBXZ"; "AXAXQ"; "BXBXQ";
     "XP"; "XZ"; "XQ"].

(** The whole structure with two words per slot, the set of
    variables being iterated in the order shown. *)
Definition tie : Crossword :=
  Grid.crossword [tail; right; top; bottom; left]
    ["AXA"; "BXB"; "AXAX"; "BXBX"; "AXBXP"; "BXAXP"; "XP"; "YP"].

(** The store of [tie] when the search starts. *)
Definition tie_store : store :=
  [(tail, ["XP"; "YP"]); (right, ["AXBXP"; "BXAXP"]);
   (top, ["AXA"; "BXB"]); (bottom, ["AXA"; "BXB"]);
   (left, ["AXAX"; "BXBX"])].

(** The cycle with no word of length 5 in the vocabulary. *)
Definition short : Crossword :=
  Grid.crossword [top; bottom; left; right]
    ["AXA"; "BXB"; "AXAX"; "BXBX"].

(** The store of [cycle] when the search starts. *)
Definition cycle_store : store :=
  [(top, ["AXA"; "BXB"]); (bottom, ["AXA"; "BXB"]);
   (left, ["AXAX"; "BXBX"]); (right, ["AXBXX"; "BXAXX"])].

(** The store of [cycle] after [order_domain_values] for [top]. *)
Definition cycle_probed : store :=
  match order_domain_values cycle top [] cycle_store with
  | Ok (_, d) => d
  | _ => []
  end.

(** The store of [cycle] when the search ends. *)
Definition cycle_end : store :=
  [(top, ["AXA"]); (bottom, []); (left, ["AXAX"]); (right, ["AXBXX"])].

(** The events of the search on [cycle]. *)
Definition cycle_trace : list event :=
  [Call 0 []; Try 0 top "AXA"; Abort 0 top "AXA"].

(** The store of [detour] when the search starts. *)
Definition detour_store : store :=
  [(top, ["AXA"; "AYA"; "BXB"; "BYB"]);
   (bottom, ["AXA"; "AYA"; "BXB"; "BYB"]);
   (left, ["AXAX"; "BXBX"; "AYAX"; "BYBX"]);
   (right, ["AXBXP"; "BXAXP"; "AXAXZ"; "BXBXZ"; "AXAXQ"; "BXBXQ"]);
   (tail, ["XP"; "XZ"; "XQ"])].

(** The store of [detour] in the root call once [tail] is set to
    "XQ", before and after the propagation. *)
Definition detour_committed : store :=
  [(top, ["AXA"; "AYA"; "BXB"; "BYB"]);
   (bottom, ["AXA"; "AYA"; "BXB"; "BYB"]);
   (left, ["AXAX"; "BXBX"; "AYAX"; "BYBX"]);
   (right, ["AXBXP"; "BXAXP"; "AXAXZ"; "BXBXZ"; "AXAXQ"; "BXBXQ"]);
   (tail, ["XQ"])].

Definition detour_narrowed : store :=
  [(top, ["AXA"; "AYA"; "BXB"; "BYB"]);
   (bottom, ["AXA"; "AYA"; "BXB"; "BYB"]);
   (left, ["AXAX"; "BXBX"; "AYAX"; "BYBX"]);
   (right, ["AXAXQ"; "BXBXQ"]);
   (tail, ["XQ"])].

(** What the search on [detour] returns. *)
Definition detour_solution : assignment :=
  [(tail, "XQ"); (right, "AXAXQ"); (top, "AXA"); (bottom, "AYA");
   (left, "AXAX")].

(** The store of [detour] when the search ends. *)
Definition detour_end : store :=
  [(top, ["AXA"]); (bottom, ["AYA"]); (left, ["AXAX"]);
   (right, ["AXAXQ"]); (tail, ["XQ"])].

(** The events of the search on [detour], before and after the
    failed propagation and the candidate tried next. *)
Definition detour_before : list event :=
  [Call 0 []; Try 0 tail "XP"; Call 1 [(tail, "XP")];
   Try 1 right "AXBXP"].

Definition detour_after : list event :=
  [Call 1 [(tail, "XQ")];
   Try 1 right "AXAXQ";
   Call 2 [(tail, "XQ"); (right, "AXAXQ")];
   Try 2 top "AXA";
   Call 3 [(tail, "XQ"); (right, "AXAXQ"); (top, "AXA")];
   Try 3 bottom "AXA";
   Try 3 bottom "AYA";
   Call 4 [(tail, "XQ"); (right, "AXAXQ"); (top, "AXA"); (bottom, "AYA")];
   Try 4 left "AXAX";
   Call 5 detour_solution].

End Examples.

(** ** What the specification speaks of *)

(** The character of [w] at [m] is the character of [w'] at [n]. *)
Definition supports (m n : nat) (w w' : word) : Prop :=
  exists ch, String.get m w = Some ch /\ String.get n w' = Some ch.

(** The domain of [x] is arc consistent with the domain of [y]: every
    word of the former has a compatible word in the latter. *)
Definition arc_consistent (c : Crossword) (d : store) (x y : Var) : Prop :=
  forall m n dx, overlaps c x y = Some (m, n) -> Dict.get d x = Some dx ->
  forall w, In w dx ->
  exists dy w', Dict.get d y = Some dy /\ In w' dy /\ supports m n w w'.

(** The overlap table is that of unordered pairs of variables: the
    entry of [(y, x)] is the entry of [(x, y)] with its indices
    exchanged. *)
Definition symmetric_overlaps (c : Crossword) : Prop :=
  forall x y m n,
    In x (variables c) -> In y (variables c) ->
    overlaps c x y = Some (m, n) -> overlaps c y x = Some (n, m).

(** The indices of an overlap of two variables are positions in the
    two slots. *)
Definition overlaps_in_range (c : Crossword) : Prop :=
  forall x y m n,
    In x (variables c) -> In y (variables c) ->
    overlaps c x y = Some (m, n) -> m < length x /\ n < length y.

(** An assignment is complete: it holds exactly one word, not empty,
    for each variable. *)
Definition complete_assignment (c : Crossword) (a : assignment) : Prop :=
  Dict.wf a /\
  (forall v, In v (Dict.keys a) <-> In v (variables c)) /\
  (forall v w, Dict.get a v = Some w -> w <> EmptyString).

(** An assignment passes the consistency check: lengths fit, no word
    is used twice, and assigned neighbors agree where they cross. *)
Definition consistent_assignment (c : Crossword) (a : assignment) : Prop :=
  (forall v w, Dict.get a v = Some w -> w <> EmptyString ->
     String.length w = length v) /\
  (forall v1 v2 w, Dict.get a v1 = Some w -> Dict.get a v2 = Some w ->
     w <> EmptyString -> v1 = v2) /\
  (forall i n wi wn x y,
     Dict.get a i = Some wi -> Dict.get a n = Some wn ->
     wi <> EmptyString -> wn <> EmptyString ->
     In n (neighbors c i) -> overlaps c n i = Some (x, y) ->
     supports x y wn wi).

(** Every word of the assignment is in the domain of its variable. *)
Definition in_domains (a : assignment) (d : store) : Prop :=
  forall v w, Dict.get a v = Some w ->
  exists dv, Dict.get d v = Some dv /\ In w dv.

(** A satisfying assignment over the domains of a store. *)
Definition satisfying (c : Crossword) (d : store) (a : assignment) : Prop :=
  complete_assignment c a /\ consistent_assignment c a /\ in_domains a d.

(** The arcs that the engine passes to [ac3]: a neighbor of a variable
    of the puzzle, then that variable. *)
Definition neighbor_arc (c : Crossword) (arc : Var * Var) : Prop :=
  In (fst arc) (neighbors c (snd arc)) /\ In (snd arc) (variables c).

(** The lists of arcs [ac3] is called with: none, or arcs of the
    engine. *)
Definition engine_arcs (c : Crossword) (arcs : option (list (Var * Var)))
  : Prop :=
  match arcs with
  | None => True
  | Some l => Forall (neighbor_arc c) l
  end.

(** The store on which the probe of a candidate runs: the store left
    by the probes of the candidates [pre] that come before it. *)
Fixpoint after_probes (c : Crossword) (var : Var) (list_neighbor : list Var)
         (pre : list word) (d : store) : res store :=
  match pre with
  | [] => Ok d
  | i :: pre' =>
      '(_, d1) <- probe c var list_neighbor i d ;;
      after_probes c var list_neighbor pre' d1
  end.

(** What holds of the assignment at every call of [backtrack]: its
    keys are variables of the puzzle and it passed the check. *)
Definition search_invariant (c : Crossword) (a : assignment) : Prop :=
  Dict.wf a /\
  (forall v, In v (Dict.keys a) -> In v (variables c)) /\
  consistent c a = Ok true.

(** What a search returns: the value, the store and the events. *)
Definition outcome : Type := res (ret * store * list event).

(** The recursion depth at which an event happened. *)
Definition event_depth (e : event) : nat :=
  match e with
  | Call k _ => k
  | Try k _ _ => k
  | Abort k _ _ => k
  end.

(** Every word of every domain has the length of its variable. *)
Definition node_consistent (d : store) : Prop :=
  forall v ws w, Dict.get d v = Some ws -> In w ws ->
                 String.length w = length v.

(** ** What the proofs speak of *)

(** The effect of [revise] on the store. *)
Record revise_post (c : Crossword) (x y : Var) (d : store) (revised : bool) (d' : store)
       (dx dx' : list word) : Prop := {
  rp_get : Dict.get d x = Some dx;
  rp_set : d' = Dict.set d x dx';
  rp_incl : forall w, In w dx' -> In w dx;
  rp_same : revised = false -> dx' = dx;
  rp_less : revised = true -> List.length dx' < List.length dx;
  rp_sound : forall m n w, overlaps c x y = Some (m, n) -> In w dx' ->
      exists dy w', Dict.get d y = Some dy /\ In w' dy /\ supports m n w w';
  rp_complete : forall m n w dy w', overlaps c x y = Some (m, n) ->
      In w dx -> Dict.get d y = Some dy -> In w' dy -> supports m n w w' ->
      In w dx'
}.

(** The invariant of the loop in full mode: an arc of the puzzle is
    still to be visited or is consistent. *)
Definition pending_or_consistent (c : Crossword)
           (arcs : list (Var * Var)) (d : store)
  : Prop :=
  forall x y, In (x, y) (all_arcs c) ->
              In (x, y) arcs \/ arc_consistent c d x y.

(** The words of the entries that the check does not skip. *)
Definition truthy_values (items : list (Var * word)) : list word :=
  filter truthy (map snd items).

(** The test of line 226. *)
Definition skipped (a : assignment) (i : Var) : bool :=
  negb (List.length a =? 0) && assigned a i.

(** The state of the loop: no variable chosen yet, or a variable
    that is not assigned together with the size of its domain. *)
Definition select_state (a : assignment) (d : store)
           (length_ : option nat) (chosen : option Var) : Prop :=
  match length_, chosen with
  | None, None => True
  | Some l, Some ch =>
      skipped a ch = false /\
      exists dch, Dict.get d ch = Some dch /\ List.length dch = l
  | _, _ => False
  end.

(** A store that [d1] narrows: the same keys, and at each key a
    domain whose words are words of the domain in [d]. *)
Definition narrows (d d1 : store) : Prop :=
  Dict.keys d1 = Dict.keys d /\
  forall v dv1, Dict.get d1 v = Some dv1 ->
    exists dv, Dict.get d v = Some dv /\ forall w, In w dv1 -> In w dv.

(** In a list of events, what follows a failed propagation at depth
    [k] happens at a smaller depth. *)
Fixpoint aborts_return (t : list event) : Prop :=
  match t with
  | [] => True
  | e :: t' =>
      match e, t' with
      | Abort k _ _, e' :: _ => event_depth e' < k
      | _, _ => True
      end /\ aborts_return t'
  end.

(** The first event of a list, if any, is at depth [k] at most. *)
Definition starts_below (k : nat) (t : list event) : Prop :=
  match t with
  | [] => True
  | e :: _ => event_depth e <= k
  end.

(** What the loop of a call at depth [depth] leaves in the trace,
    given what the recursive calls leave. *)
Record loop_trace (depth : nat) (r : ret) (t : list event) : Prop := {
  lt_depths : Forall (fun e => depth <= event_depth e) t;
  lt_abort : forall v w, In (Abort depth v w) t ->
               r = RFalse /\ exists t0, t = t0 ++ [Abort depth v w];
  lt_return : aborts_return t
}.

(** ** The letter grid *)

(** The 2D array of [letter_grid]: a cell holds None or a letter. *)
Definition grid : Type := list (list (option ascii)).

(** [[[None for _ in range(width)] for _ in range(height)]]: every row
    is built anew, no two rows share their cells. *)
Definition empty_grid (height width : nat) : grid :=
  repeat (repeat None width) height.

(** [l[n]] and [l[n] = x] on a list, for an index that is not
    negative: [IndexError] when [n] is out of range. *)
Definition getitem {A} (l : list A) (n : nat) : res A :=
  match nth_error l n with
  | Some x => Ok x
  | None => Raise IndexError
  end.

Fixpoint setitem {A} (l : list A) (n : nat) (x : A) : res (list A) :=
  match l, n with
  | [], _ => Raise IndexError
  | _ :: l', O => Ok (x :: l')
  | y :: l', S n' => l'' <- setitem l' n' x ;; Ok (y :: l'')
  end.

(** [letters[i][j] = ch]: the row is looked up and changed in place. *)
Definition set_cell (letters : grid) (i j : nat) (ch : ascii) : res grid :=
  row <- getitem letters i ;;
  row' <- setitem row j (Some ch) ;;
  setitem letters i row'.

(** The row and the column of the [k]-th letter of a variable. *)
Definition cell_i (variable : Var) (k : nat) : nat :=
  var_i variable + match direction variable with DOWN => k | ACROSS => 0 end.

Definition cell_j (variable : Var) (k : nat) : nat :=
  var_j variable + match direction variable with ACROSS => k | DOWN => 0 end.

(** The loop over [range(len(word))]. *)
Fixpoint letter_word (variable : Var) (word : word) (ks : list nat)
         (letters : grid) : res grid :=
  match ks with
  | [] => Ok letters
  | k :: ks' =>
      let i := cell_i variable k in
      let j := cell_j variable k in
      ch <- index word k ;;
      letters' <- set_cell letters i j ch ;;
      letter_word variable word ks' letters'
  end.

(** The loop over [assignment.items()]. *)
Fixpoint letter_loop (items : list (Var * word)) (letters : grid)
  : res grid :=
  match items with
  | [] => Ok letters
  | (variable, word) :: items' =>
      letters' <- letter_word variable word
                              (seq 0 (String.length word)) letters ;;
      letter_loop items' letters'
  end.

(** [letter_grid], the width and the height being those of the
    crossword. *)
Definition letter_grid (height width : nat) (a : assignment) : res grid :=
  letter_loop a (empty_grid height width).

(** ** What the further properties speak of *)

(** [len(self.domains[i])], 0 standing for a missing domain. *)
Definition domain_size (d : store) (i : Var) : nat :=
  match Dict.get d i with
  | Some l => List.length l
  | None => 0
  end.

(** The number of neighbors of a variable. *)
Definition degree (c : Crossword) (i : Var) : nat :=
  List.length (neighbors c i).

(** The variables that replace the choice once [length] is [m] and
    [length_neigh] is [ln]: not assigned, with [m] words, and more
    than [ln] neighbors. *)
Definition replaces (c : Crossword) (a : assignment) (d : store)
           (m ln : nat) (i : Var) : bool :=
  negb (skipped a i) && (domain_size d i =? m) && (ln <? degree c i).

(** What the rest of a run of the loop of
    [select_unassigned_variable] returns, from its state: with no
    smaller domain to come, the choice is replaced by each later
    variable that [replaces] it; otherwise the run starts again at
    the first variable with the smallest domain. *)
Definition select_outcome (c : Crossword) (a : assignment) (d : store)
           (vars : list Var) (length_ : option nat) (chosen : option Var)
           (ln : nat) (v : Var) : Prop :=
  (exists m ch0, length_ = Some m /\ chosen = Some ch0 /\
     (forall u, In u vars -> skipped a u = false -> m <= domain_size d u) /\
     v = last (filter (replaces c a d m ln) vars) ch0) \/
  (exists pre f post, vars = pre ++ f :: post /\
     skipped a f = false /\
     (forall m', length_ = Some m' -> domain_size d f < m') /\
     (forall u, In u pre -> skipped a u = false ->
                domain_size d f < domain_size d u) /\
     (forall u, In u post -> skipped a u = false ->
                domain_size d f <= domain_size d u) /\
     v = last (filter (replaces c a d (domain_size d f) (degree c f)) post)
              f).


(** The store [d] holds, for each variable that [a] assigns, the
    word assigned and no other word. *)
Definition committed (a : assignment) (d : store) : Prop :=
  forall v w, Dict.get a v = Some w ->
  exists dv, Dict.get d v = Some dv /\ dv <> [] /\ forall x, In x dv -> x = w.

(** Every word of a domain of [d'] is a word of that domain in [d]. *)
Definition within (d d' : store) : Prop :=
  forall v dv', Dict.get d' v = Some dv' ->
  exists dv, Dict.get d v = Some dv /\ forall w, In w dv' -> In w dv.

(** A puzzle as crossword.py builds it: overlap indices within the
    slots, variables without repetition, no slot of length 0. *)
Definition well_formed (c : Crossword) : Prop :=
  overlaps_in_range c /\ NoDup (variables c) /\
  forall v, In v (variables c) -> 0 < length v.

(** A store of the search: node consistent, with the variables of the
    puzzle as its keys. *)
Definition store_ok (c : Crossword) (d : store) : Prop :=
  node_consistent d /\ Dict.keys d = variables c.

(** An assignment of the search: its keys are variables of the puzzle
    and each word has the length of its variable. *)
Definition fits (c : Crossword) (a : assignment) : Prop :=
  Dict.wf a /\
  (forall v, In v (Dict.keys a) -> In v (variables c)) /\
  forall v w, Dict.get a v = Some w -> String.length w = length v.

(** The number of variables that [select_unassigned_variable] does
    not pass over. *)
Definition unassigned_count (c : Crossword) (a : assignment) : nat :=
  List.length (filter (fun u => negb (skipped a u)) (variables c)).

(** What the array holds at row [i] and column [j], if it has such a
    cell. *)
Definition cell (g : grid) (i j : nat) : option (option ascii) :=
  match nth_error g i with
  | Some row => nth_error row j
  | None => None
  end.

(** A word of the assignment has the letter [ch] at row [i] and
    column [j]. *)
Definition covers (a : assignment) (i j : nat) (ch : ascii) : Prop :=
  exists v w k, In (v, w) a /\ String.get k w = Some ch /\
                cell_i v k = i /\ cell_j v k = j.

(** ** More puzzles *)

Module MoreExamples.
Import Examples.
Local Open Scope string_scope.

(** The cycle with a vocabulary that starts with a word of length 2;
    its store before node consistency holds that word first. *)
Definition unfiltered : Crossword :=
  Grid.crossword [top; bottom; left; right] ["XP"; "AXA"; "AXAX"; "AXBXX"].

(** The cycle with a single word for [left] and for [right]: [top]
    and [bottom] are left with the same word, and the search fails on
    the repetition after it has narrowed the store. *)
Definition scarce : Crossword :=
  Grid.crossword [top; bottom; left; right] ["AXA"; "BXA"; "AXAX"; "AXAXX"].

Definition scarce_store : store :=
  [(top, ["AXA"; "BXA"]); (bottom, ["AXA"; "BXA"]); (left, ["AXAX"]);
   (right, ["AXAXX"])].

(** The events of the search on [scarce], and the store it leaves. *)
Definition scarce_trace : list event :=
  [Call 0 []; Try 0 left "AXAX"; Call 1 [(left, "AXAX")];
   Try 1 top "AXA"; Call 2 [(left, "AXAX"); (top, "AXA")];
   Try 2 bottom "AXA"].

Definition scarce_after : store :=
  match backtrack scarce 5 0 [] scarce_store with
  | Ok (_, d, _) => d
  | _ => []
  end.

(** The events of the whole search on [detour]. *)
Definition detour_trace : list event :=
  (detour_before ++ Abort 1 right "AXBXP" :: Try 0 tail "XQ" :: detour_after)
    %list.

(** The array of [detour_solution] on the five rows and three columns
    of the structure. *)
Definition detour_letters : grid :=
  [[Some "A"; Some "X"; Some "A"];
   [Some "X"; None; Some "X"];
   [Some "A"; Some "Y"; Some "A"];
   [Some "X"; None; Some "X"];
   [None; Some "X"; Some "Q"]]%char.

(** The array of two words that disagree on the first cell. *)
Definition clash_letters : grid :=
  [[Some "A"; Some "B"; Some "B"];
   [Some "X"; None; None];
   [Some "A"; None; None];
   [Some "X"; None; None];
   [None; None; None]]%char.

End MoreExamples.

(** ** Tactics for the examples *)

(** Case analysis on a variable known to be one of a list. *)
Ltac cases_in H :=
  simpl in H;
  repeat match type of H with
         | _ \/ _ => destruct H as [H|H]
         | False => destruct H
         end.

(** A hypothesis that two given words agree at given positions, when
    they do not. *)
Ltac refute_supports H :=
  let ch := fresh "ch" in
  let H1 := fresh in
  let H2 := fresh in
  destruct H as (ch & H1 & H2); vm_compute in H1, H2; congruence.

(** The keys of a given dictionary are distinct. *)
Ltac nodup_keys :=
  unfold Dict.wf; simpl;
  repeat (constructor; [simpl; intuition discriminate|]); constructor.

(** Case analysis on the key of a lookup in a given dictionary. *)
Ltac cases_get H :=
  simpl in H;
  repeat match type of H with
         | context [Var_eq_dec ?v ?k] =>
             destruct (Var_eq_dec v k); [subst v|]
         end;
  try discriminate H; try (inversion H; subst; clear H).

(** * Properties *)

(** ** Dictionaries *)

Module DictFacts.
Section DictFacts.
Context {V : Type}.
Implicit Types (d : Dict.t V) (k : Var) (v : V).

Lemma get_set_eq d k v : Dict.get (Dict.set d k v) k = Some v.
Proof.
  induction d as [|[k' v'] d IH]; simpl.
  - destruct (Var_eq_dec k k); congruence.
  - destruct (Var_eq_dec k k') as [->|Hne]; simpl.
    + destruct (Var_eq_dec k' k'); congruence.
    + destruct (Var_eq_dec k k'); [contradiction | exact IH].
Qed.

Lemma get_set_ne d k k' v :
  k <> k' -> Dict.get (Dict.set d k v) k' = Dict.get d k'.
Proof.
  intros Hne. induction d as [|[k0 v0] d IH]; simpl.
  - destruct (Var_eq_dec k' k); congruence.
  - destruct (Var_eq_dec k k0) as [->|Hk]; simpl.
    + destruct (Var_eq_dec k' k0); congruence.
    + destruct (Var_eq_dec k' k0); auto.
Qed.

Lemma get_some_in_keys d k v : Dict.get d k = Some v -> In k (Dict.keys d).
Proof.
  induction d as [|[k0 v0] d IH]; simpl; [discriminate|].
  destruct (Var_eq_dec k k0); auto.
Qed.

Lemma in_keys_get d k : In k (Dict.keys d) -> exists v, Dict.get d k = Some v.
Proof.
  induction d as [|[k0 v0] d IH]; simpl; [tauto|].
  intros [->|Hin].
  - destruct (Var_eq_dec k k); [eauto | congruence].
  - destruct (Var_eq_dec k k0); eauto.
Qed.

Lemma get_in d k v : Dict.get d k = Some v -> In (k, v) d.
Proof.
  induction d as [|[k0 v0] d IH]; simpl; [discriminate|].
  destruct (Var_eq_dec k k0) as [->|]; intros H.
  - inversion H; auto.
  - auto.
Qed.

(** Assigning to a key the dictionary has keeps its keys. *)
Lemma keys_set_present d k v :
  In k (Dict.keys d) -> Dict.keys (Dict.set d k v) = Dict.keys d.
Proof.
  induction d as [|[k0 v0] d IH]; simpl; [tauto|].
  intros Hin. destruct (Var_eq_dec k k0) as [->|Hne]; simpl; auto.
  f_equal. apply IH. destruct Hin; congruence.
Qed.

(** Assigning to a new key appends it. *)
Lemma keys_set_absent d k v :
  ~ In k (Dict.keys d) -> Dict.keys (Dict.set d k v) = Dict.keys d ++ [k].
Proof.
  induction d as [|[k0 v0] d IH]; simpl; auto.
  intros Hnin. destruct (Var_eq_dec k k0) as [->|Hne]; simpl.
  - tauto.
  - f_equal. apply IH. tauto.
Qed.

Lemma wf_set d k v : Dict.wf d -> Dict.wf (Dict.set d k v).
Proof.
  unfold Dict.wf. intros Hnd.
  destruct (in_dec Var_eq_dec k (Dict.keys d)) as [Hin|Hnin].
  - rewrite keys_set_present; auto.
  - rewrite keys_set_absent; auto.
    apply NoDup_app; auto.
    + constructor; [simpl; tauto | constructor].
    + intros x Hx [<-|[]]. contradiction.
Qed.

Lemma in_keys_set d k k' v :
  In k' (Dict.keys (Dict.set d k v)) <-> k' = k \/ In k' (Dict.keys d).
Proof.
  destruct (in_dec Var_eq_dec k (Dict.keys d)) as [Hin|Hnin].
  - rewrite keys_set_present by auto. split; [auto|].
    intros [->|]; auto.
  - rewrite keys_set_absent by auto. rewrite in_app_iff. simpl.
    split; intros H; intuition congruence.
Qed.

(** Two dictionaries with the same keys in the same order and the
    same value at each key are equal. *)
Lemma ext d d' :
  Dict.wf d -> Dict.keys d = Dict.keys d' ->
  (forall k, Dict.get d k = Dict.get d' k) -> d = d'.
Proof.
  unfold Dict.wf.
  revert d'. induction d as [|[k0 v0] d IH]; intros [|[k1 v1] d'];
    simpl; intros Hnd Hk Hget; try discriminate; auto.
  injection Hk as Hk0 Hkeys. subst k1.
  inversion Hnd as [|? ? Hnin Hnd']; subst.
  pose proof (Hget k0) as H0. simpl in H0.
  destruct (Var_eq_dec k0 k0); [|congruence].
  injection H0 as ->. f_equal.
  apply IH; auto.
  intros k. specialize (Hget k). simpl in Hget.
  destruct (Var_eq_dec k k0) as [->|Hne]; auto.
  destruct (Dict.get d k0) eqn:E1.
  - apply get_some_in_keys in E1. contradiction.
  - destruct (Dict.get d' k0) eqn:E2; auto.
    apply get_some_in_keys in E2. rewrite <- Hkeys in E2. contradiction.
Qed.

End DictFacts.
End DictFacts.

(** ** Revision of one arc *)

Section ReviseFacts.
Variable c : Crossword.

Lemma any_match_true i m n dy :
  any_match i m n dy = Ok true ->
  exists w', In w' dy /\ supports m n i w'.
Proof.
  induction dy as [|y dy IH]; simpl; [discriminate|].
  unfold index.
  destruct (String.get m i) as [a|] eqn:Ea; simpl; [|discriminate].
  destruct (String.get n y) as [b|] eqn:Eb; simpl; [|discriminate].
  destruct (Ascii.eqb_spec a b) as [->|Hne].
  - intros _. exists y. split; [auto|]. exists b; auto.
  - intros H. destruct (IH H) as (w' & Hin & Hs). eauto.
Qed.

Lemma any_match_false i m n dy :
  any_match i m n dy = Ok false ->
  forall w', In w' dy -> ~ supports m n i w'.
Proof.
  induction dy as [|y dy IH]; simpl; [tauto|].
  unfold index.
  destruct (String.get m i) as [a|] eqn:Ea; simpl; [|discriminate].
  destruct (String.get n y) as [b|] eqn:Eb; simpl; [|discriminate].
  destruct (Ascii.eqb_spec a b) as [->|Hne]; [discriminate|].
  intros H w' [<-|Hin]; [|auto].
  intros (ch & H1 & H2). congruence.
Qed.

(** What the loop of [revise] computes: the words it puts in
    [remove] are words of the domain without support, the words it
    leaves out have one, and [revised] tells whether [remove] holds
    a word. *)
Lemma revise_scan_spec d y m n dx remove revised :
  revise_scan d y m n dx = Ok (remove, revised) ->
  (forall w, In w remove ->
     In w dx /\
     forall dy w', Dict.get d y = Some dy -> In w' dy -> ~ supports m n w w') /\
  (forall w, In w dx -> ~ In w remove ->
     exists dy w', Dict.get d y = Some dy /\ In w' dy /\ supports m n w w') /\
  (revised = false -> remove = []) /\
  (revised = true -> exists w, In w remove).
Proof.
  revert remove revised.
  induction dx as [|i dx IH]; simpl; intros remove revised H.
  - inversion H; subst. repeat split; try tauto; try discriminate.
  - unfold Dict.getitem in H.
    destruct (Dict.get d y) as [dy|] eqn:Ey; simpl in H; [|discriminate].
    destruct (any_match i m n dy) as [found| |] eqn:Em; simpl in H;
      try discriminate.
    destruct (revise_scan d y m n dx) as [[rem rev]| |] eqn:Es; simpl in H;
      try discriminate.
    destruct (IH _ _ eq_refl) as (H1 & H2 & H3 & H4).
    destruct found; inversion H; subst; clear H.
    + repeat split; auto.
      * right. apply H1; auto.
      * apply H1; auto.
      * intros w [<-|Hin] Hnin; [|auto].
        apply any_match_true in Em. destruct Em as (w' & Hw' & Hs).
        exists dy, w'; auto.
    + repeat split.
      * destruct H as [<-|Hin]; [left; auto | right; apply H1; auto].
      * intros dy0 w' Hd Hw'. destruct H as [<-|Hin].
        -- assert (dy0 = dy) by congruence. subst.
           eapply any_match_false; eauto.
        -- eapply H1; eauto.
      * intros w [<-|Hin] Hnin; [exfalso; apply Hnin; left; auto|].
        apply H2; auto. intros Hr. apply Hnin. right; auto.
      * discriminate.
      * intros _. exists i. left; auto.
Qed.

Lemma mem_In w l : mem w l = true <-> In w l.
Proof.
  unfold mem. rewrite existsb_exists. split.
  - intros (x & Hin & Heq). apply String.eqb_eq in Heq. subst. exact Hin.
  - intros Hin. exists w. split; auto. apply String.eqb_refl.
Qed.

Lemma in_difference w s remove :
  In w (difference s remove) <-> In w s /\ ~ In w remove.
Proof.
  unfold difference. rewrite filter_In, negb_true_iff.
  split; intros [H1 H2]; split; auto.
  - intros Hr. apply mem_In in Hr. congruence.
  - destruct (mem w remove) eqn:E; auto. apply mem_In in E. contradiction.
Qed.

Lemma difference_nil s : difference s [] = s.
Proof.
  unfold difference, mem. induction s as [|w s IH]; simpl; [reflexivity|].
  f_equal. exact IH.
Qed.

Lemma length_filter_le {A} (f : A -> bool) l :
  List.length (filter f l) <= List.length l.
Proof.
  induction l as [|a l IH]; simpl; auto.
  destruct (f a); simpl; lia.
Qed.

Lemma length_filter_lt {A} (f : A -> bool) l a :
  In a l -> f a = false -> List.length (filter f l) < List.length l.
Proof.
  induction l as [|b l IH]; simpl; [tauto|].
  intros [->|Hin] Hf.
  - rewrite Hf. pose proof (length_filter_le f l). lia.
  - specialize (IH Hin Hf). destruct (f b); simpl; lia.
Qed.

Lemma length_difference_lt s remove w :
  In w s -> In w remove ->
  List.length (difference s remove) < List.length s.
Proof.
  intros Hs Hr. unfold difference.
  apply length_filter_lt with (a := w); auto.
  apply mem_In in Hr. rewrite Hr. reflexivity.
Qed.

Lemma revise_spec x y d revised d' :
  revise c x y d = Ok (revised, d') ->
  exists dx dx', revise_post c x y d revised d' dx dx'.
Proof.
  unfold revise. intros H.
  destruct (overlaps c x y) as [[m n]|] eqn:Eo.
  - unfold Dict.getitem in H.
    destruct (Dict.get d x) as [dx|] eqn:Ex; simpl in H; [|discriminate].
    destruct (revise_scan d y m n dx) as [[remove rev]| |] eqn:Es;
      simpl in H; try discriminate.
    inversion H; subst; clear H.
    apply revise_scan_spec in Es. destruct Es as (H1 & H2 & H3 & H4).
    exists dx, (difference dx remove). constructor; auto.
    + intros w Hw. apply in_difference in Hw. tauto.
    + intros Hr. rewrite (H3 Hr). apply difference_nil.
    + intros Hr. destruct (H4 Hr) as (w & Hw).
      apply length_difference_lt with (w := w); auto. apply H1; auto.
    + intros m' n' w Ho Hw.
      assert (m' = m /\ n' = n) as [-> ->]
        by (rewrite Eo in Ho; inversion Ho; auto).
      apply in_difference in Hw. destruct Hw. auto.
    + intros m' n' w dy w' Ho Hw Hy Hw' Hs.
      assert (m' = m /\ n' = n) as [-> ->]
        by (rewrite Eo in Ho; inversion Ho; auto).
      apply in_difference. split; auto.
      intros Hr. destruct (H1 _ Hr) as [_ Hno]. eapply Hno; eauto.
  - simpl in H. unfold Dict.getitem in H.
    destruct (Dict.get d x) as [dx|] eqn:Ex; simpl in H; [|discriminate].
    inversion H; subst; clear H.
    rewrite difference_nil.
    exists dx, dx. constructor; auto; try discriminate.
    intros m n w Ho. rewrite Eo in Ho. discriminate.
Qed.

End ReviseFacts.

(** ** The worklist loop *)

Section Ac3Facts.
Variable c : Crossword.

Lemma store_size_set (d : store) x dx dx' :
  Dict.get d x = Some dx ->
  store_size (Dict.set d x dx') + List.length dx =
  store_size d + List.length dx'.
Proof.
  unfold store_size.
  induction d as [|[k v] d IH]; simpl; [discriminate|].
  destruct (Var_eq_dec x k) as [->|Hne]; simpl.
  - intros H. inversion H; subst. lia.
  - intros H. specialize (IH H). lia.
Qed.

Lemma set_same {V} (d : Dict.t V) k v :
  Dict.get d k = Some v -> Dict.set d k v = d.
Proof.
  induction d as [|[k0 v0] d IH]; simpl; [discriminate|].
  destruct (Var_eq_dec k k0) as [->|Hne]; intros H.
  - inversion H; reflexivity.
  - f_equal; auto.
Qed.

(** A revision never grows the store, shrinks it when it reports a
    change, and leaves it as it is when it reports none. *)
Lemma revise_shrinks x y d revised d' :
  revise c x y d = Ok (revised, d') ->
  store_size d' <= store_size d /\
  (revised = true -> store_size d' < store_size d) /\
  (revised = false -> d' = d).
Proof.
  intros H. apply revise_spec in H. destruct H as (dx & dx' & [H1 H2 H3 H4 H5 _ _]).
  subst d'. pose proof (store_size_set d x dx dx' H1) as Hs.
  destruct revised.
  - specialize (H5 eq_refl).
    split; [lia|]. split; [intros _; lia | discriminate].
  - rewrite (H4 eq_refl) in *.
    split; [lia|]. split; [discriminate|].
    intros _. apply set_same; auto.
Qed.

Lemma any_match_returns i m n dy : any_match i m n dy <> Timeout.
Proof.
  induction dy as [|y dy IH]; simpl; [discriminate|].
  unfold index.
  destruct (String.get m i); simpl; [|discriminate].
  destruct (String.get n y); simpl; [|discriminate].
  destruct (Ascii.eqb _ _); [discriminate | exact IH].
Qed.

Lemma revise_scan_returns d y m n dx : revise_scan d y m n dx <> Timeout.
Proof.
  induction dx as [|i dx IH]; simpl; [discriminate|].
  unfold Dict.getitem.
  destruct (Dict.get d y) as [dy|]; simpl; [|discriminate].
  pose proof (any_match_returns i m n dy).
  destruct (any_match i m n dy) as [found| |]; simpl; try congruence.
  destruct (revise_scan d y m n dx) as [[rem rev]| |]; simpl; try congruence.
  destruct found; discriminate.
Qed.

Lemma revise_returns x y d : revise c x y d <> Timeout.
Proof.
  unfold revise, Dict.getitem.
  destruct (overlaps c x y) as [[m n]|]; simpl.
  - destruct (Dict.get d x) as [dx|]; simpl; [|discriminate].
    pose proof (revise_scan_returns d y m n dx).
    destruct (revise_scan d y m n dx) as [[rem rev]| |]; simpl;
      congruence.
  - destruct (Dict.get d x); simpl; discriminate.
Qed.

Lemma neighbors_length x :
  List.length (neighbors c x) <= List.length (variables c).
Proof. unfold neighbors. apply length_filter_le. Qed.

Lemma ac3_loop_terminates dom fuel :
  forall arcs d,
    List.length arcs + store_size d * List.length (variables c) < fuel ->
    ac3_loop c fuel dom arcs d <> Timeout.
Proof.
  induction fuel as [|fuel IH]; intros arcs d Hlt; [lia|].
  simpl. destruct arcs as [|[x y] rest]; [discriminate|].
  pose proof (revise_returns x y d) as Hret.
  destruct (revise c x y d) as [[revised d1]| |] eqn:Er; simpl;
    try discriminate; try congruence.
  apply revise_shrinks in Er. destruct Er as (Hle & Hlt' & _).
  simpl in Hlt.
  assert (Hrest : List.length rest +
                  store_size d1 * List.length (variables c) < fuel).
  { assert (store_size d1 * List.length (variables c) <=
            store_size d * List.length (variables c))
      by (apply Nat.mul_le_mono_r; exact Hle).
    lia. }
  destruct revised; [|apply IH; exact Hrest].
  unfold Dict.getitem. destruct (Dict.get d1 x) as [dx|]; simpl;
    try discriminate.
  destruct (List.length dx =? 0); [discriminate|].
  destruct dom; simpl; [apply IH; exact Hrest|].
  apply IH. rewrite length_app, length_map.
  specialize (Hlt' eq_refl).
  pose proof (length_filter_le (fun z => negb (var_eqb z y)) (neighbors c x)).
  pose proof (neighbors_length x).
  assert (S (store_size d1) * List.length (variables c) <=
          store_size d * List.length (variables c))
    by (apply Nat.mul_le_mono_r; lia).
  simpl in *. lia.
Qed.

(** More fuel does not change a result. *)
Lemma ac3_loop_more_fuel dom fuel :
  forall arcs d k,
    ac3_loop c fuel dom arcs d <> Timeout ->
    ac3_loop c (fuel + k) dom arcs d = ac3_loop c fuel dom arcs d.
Proof.
  induction fuel as [|fuel IH]; intros arcs d k; simpl; [congruence|].
  destruct arcs as [|[x y] rest]; [reflexivity|].
  destruct (revise c x y d) as [[revised d1]| |]; simpl; auto.
  destruct revised; [|apply IH].
  destruct (Dict.getitem d1 x) as [dx| |]; simpl; auto.
  destruct (List.length dx =? 0); auto.
  destruct dom; simpl; apply IH.
Qed.

Lemma ac3_unfold arcs dom d :
  ac3 c arcs dom d =
  ac3_loop c (ac3_fuel c (arcs_of c arcs) d) dom (arcs_of c arcs) d.
Proof. reflexivity. Qed.

(** C8. [ac3] terminates on every input: the loop does not run out
    of the fuel it is given, whatever the arcs, the mode and the
    store, and any larger amount of fuel gives the same result. *)
Theorem ac3_terminates arcs dom d :
  ac3 c arcs dom d <> Timeout /\
  forall k, ac3_loop c (ac3_fuel c (arcs_of c arcs) d + k) dom
                     (arcs_of c arcs) d
            = ac3 c arcs dom d.
Proof.
  rewrite ac3_unfold.
  assert (H : ac3_loop c (ac3_fuel c (arcs_of c arcs) d) dom
                       (arcs_of c arcs) d <> Timeout).
  { apply ac3_loop_terminates. unfold ac3_fuel. lia. }
  split; [exact H|].
  intros k. apply ac3_loop_more_fuel. exact H.
Qed.

End Ac3Facts.

(** ** Arc consistency *)

Section ArcConsistency.
Variable c : Crossword.

Lemma var_eqb_false x y : negb (var_eqb x y) = true <-> x <> y.
Proof. unfold var_eqb. destruct (Var_eq_dec x y); simpl; split; congruence. Qed.

Lemma in_neighbors z x :
  In z (neighbors c x) <->
  In z (variables c) /\ z <> x /\ overlaps c z x <> None.
Proof.
  unfold neighbors. rewrite filter_In, andb_true_iff, var_eqb_false.
  destruct (overlaps c z x); intuition congruence.
Qed.

Lemma in_overlap_keys x y :
  In (x, y) (overlap_keys c) <->
  In x (variables c) /\ In y (variables c) /\ x <> y.
Proof.
  unfold overlap_keys. rewrite in_flat_map. split.
  - intros (v1 & Hv1 & Hin). apply in_map_iff in Hin.
    destruct Hin as (v2 & Heq & Hv2). inversion Heq; subst.
    apply filter_In in Hv2. rewrite var_eqb_false in Hv2. tauto.
  - intros (Hx & Hy & Hne). exists x. split; auto.
    apply in_map_iff. exists y. split; auto.
    apply filter_In. rewrite var_eqb_false. auto.
Qed.

Lemma in_all_arcs x y :
  In (x, y) (all_arcs c) <->
  In x (variables c) /\ In y (variables c) /\ x <> y /\
  overlaps c x y <> None.
Proof.
  unfold all_arcs. rewrite filter_In, in_overlap_keys.
  destruct (overlaps c x y); intuition congruence.
Qed.

Lemma all_arcs_neighbor_arc arc : In arc (all_arcs c) -> neighbor_arc c arc.
Proof.
  destruct arc as [x y]. rewrite in_all_arcs. unfold neighbor_arc. simpl.
  rewrite in_neighbors. tauto.
Qed.

(** The arcs appended after a revision of [x] are arcs of the
    engine again. *)
Lemma enqueued_neighbor_arc x y :
  neighbor_arc c (x, y) ->
  Forall (neighbor_arc c)
         (map (fun z => (z, x))
              (filter (fun z => negb (var_eqb z y)) (neighbors c x))).
Proof.
  intros [Hx _]. simpl in Hx. apply in_neighbors in Hx.
  apply Forall_forall. intros arc Hin. apply in_map_iff in Hin.
  destruct Hin as (z & <- & Hz). apply filter_In in Hz.
  split; simpl; tauto.
Qed.

(** *** Completeness *)

Lemma revise_keeps_solution a x y d revised d1 :
  complete_assignment c a -> consistent_assignment c a ->
  neighbor_arc c (x, y) ->
  revise c x y d = Ok (revised, d1) ->
  in_domains a d -> in_domains a d1.
Proof.
  intros (Hwf & Hkeys & Hne) (_ & _ & Hagree) [Hx Hy] Hrev Hin.
  simpl in Hx, Hy.
  apply revise_spec in Hrev. destruct Hrev as (dx & dx' & Hp).
  destruct Hp as [Hget Hset _ _ _ _ Hcomplete]. subst d1.
  intros v w Hv. destruct (Var_eq_dec x v) as [<-|Hxv].
  - rewrite DictFacts.get_set_eq. exists dx'. split; auto.
    destruct (Hin _ _ Hv) as (dx0 & Hdx0 & Hw).
    assert (dx0 = dx) by congruence. subst dx0.
    pose proof Hx as Hx'. apply in_neighbors in Hx'.
    destruct Hx' as (_ & Hxy & Hov).
    destruct (overlaps c x y) as [[m n]|] eqn:Eo; [|congruence].
    apply Hkeys in Hy. apply DictFacts.in_keys_get in Hy.
    destruct Hy as (wy & Hwy).
    destruct (Hin _ _ Hwy) as (dy & Hdy & Hwy').
    apply (Hcomplete m n w dy wy); auto.
    apply (Hagree y x wy w m n); eauto.
  - rewrite DictFacts.get_set_ne by auto. apply Hin; auto.
Qed.

Lemma ac3_loop_keeps_solution a dom fuel :
  complete_assignment c a -> consistent_assignment c a ->
  forall arcs d b d',
    Forall (neighbor_arc c) arcs ->
    in_domains a d ->
    ac3_loop c fuel dom arcs d = Ok (b, d') ->
    in_domains a d'.
Proof.
  intros Hc Hs.
  induction fuel as [|fuel IH]; intros arcs d b d' Harcs Hin H;
    simpl in H; [discriminate|].
  destruct arcs as [|[x y] rest]; [inversion H; subst; auto|].
  inversion Harcs as [|? ? Hxy Hrest]; subst.
  destruct (revise c x y d) as [[revised d1]| |] eqn:Er; simpl in H;
    try discriminate.
  pose proof (revise_keeps_solution a x y d revised d1 Hc Hs Hxy Er Hin)
    as Hin1.
  destruct revised; [|eapply IH; eauto].
  destruct (Dict.getitem d1 x) as [dx| |]; simpl in H; try discriminate.
  destruct (List.length dx =? 0); [inversion H; subst; auto|].
  destruct dom; simpl in H; [eapply IH; eauto|].
  eapply IH; [| |exact H]; auto.
  apply Forall_app. split; auto. apply enqueued_neighbor_arc; auto.
Qed.

Lemma engine_arcs_valid arcs :
  engine_arcs c arcs -> Forall (neighbor_arc c) (arcs_of c arcs).
Proof.
  destruct arcs as [l|]; simpl; auto.
  intros _. apply Forall_forall. intros arc. apply all_arcs_neighbor_arc.
Qed.

(** C6. Arc consistency removes no value of a satisfying assignment:
    whatever the mode, and whether the run starts from all the arcs
    or from a list of arcs of the engine, when an assignment
    satisfies the puzzle over the domains before a run of [ac3], its
    words are still in the domains after the run. *)
Theorem ac3_complete a arcs dom d b d' :
  satisfying c d a ->
  engine_arcs c arcs ->
  ac3 c arcs dom d = Ok (b, d') ->
  in_domains a d'.
Proof.
  intros (Hc & Hs & Hin) Harcs H. rewrite ac3_unfold in H.
  apply engine_arcs_valid in Harcs.
  eapply ac3_loop_keeps_solution; eauto.
Qed.

(** *** Soundness *)

Lemma arc_consistent_set_other d x dx' u v :
  u <> x -> v <> x ->
  arc_consistent c d u v -> arc_consistent c (Dict.set d x dx') u v.
Proof.
  intros Hu Hv H m n du Ho Hget w Hw.
  rewrite DictFacts.get_set_ne in Hget by auto.
  destruct (H m n du Ho Hget w Hw) as (dv & w' & Hdv & Hw' & Hs).
  exists dv, w'. rewrite DictFacts.get_set_ne by auto. auto.
Qed.

Lemma arc_consistent_set_left d x dx dx' v :
  v <> x -> Dict.get d x = Some dx -> (forall w, In w dx' -> In w dx) ->
  arc_consistent c d x v -> arc_consistent c (Dict.set d x dx') x v.
Proof.
  intros Hv Hdx Hincl H m n du Ho Hget w Hw.
  rewrite DictFacts.get_set_eq in Hget. inversion Hget; subst du.
  destruct (H m n dx Ho Hdx w (Hincl _ Hw)) as (dv & w' & Hdv & Hw' & Hs).
  exists dv, w'. rewrite DictFacts.get_set_ne by auto. auto.
Qed.

Lemma supports_swap m n w w' : supports m n w w' -> supports n m w' w.
Proof. intros (ch & H1 & H2). exists ch; auto. Qed.

Lemma revise_step_invariant x y rest d revised d1 :
  symmetric_overlaps c ->
  x <> y ->
  pending_or_consistent c ((x, y) :: rest) d ->
  revise c x y d = Ok (revised, d1) ->
  pending_or_consistent c
    (if revised
     then rest ++ map (fun z => (z, x))
                      (filter (fun z => negb (var_eqb z y)) (neighbors c x))
     else rest) d1.
Proof.
  intros Hsym Hxy Hinv Hrev.
  pose proof (revise_shrinks c x y d revised d1 Hrev) as (_ & _ & Hsame).
  apply revise_spec in Hrev. destruct Hrev as (dx & dx' & Hp).
  destruct Hp as [Hget Hset Hincl _ _ Hsound Hcomplete].
  intros u v Huv.
  assert (Hpend : In (u, v) rest ->
            In (u, v)
               (if revised
                then rest ++ map (fun z => (z, x))
                       (filter (fun z => negb (var_eqb z y)) (neighbors c x))
                else rest)).
  { destruct revised; auto. intros H. apply in_app_iff. auto. }
  destruct (Var_eq_dec u x) as [->|Hux].
  - (* an arc out of x *)
    destruct (Var_eq_dec v y) as [->|Hvy].
    + right. subst d1. intros m n du Ho Hdu w Hw.
      rewrite DictFacts.get_set_eq in Hdu. inversion Hdu; subst du.
      destruct (Hsound m n w Ho Hw) as (dy & w' & Hdy & Hw' & Hs).
      exists dy, w'. rewrite DictFacts.get_set_ne by auto. auto.
    + destruct (Hinv _ _ Huv) as [[Heq|Hin]|Hcons].
      * inversion Heq; congruence.
      * left. auto.
      * right. subst d1. apply arc_consistent_set_left with (dx := dx); auto.
        apply in_all_arcs in Huv. intros ->. tauto.
  - destruct (Var_eq_dec v x) as [->|Hvx].
    + (* an arc into x *)
      destruct revised.
      * destruct (Var_eq_dec u y) as [->|Huy].
        -- destruct (Hinv _ _ Huv) as [[Heq|Hin]|Hcons].
           ++ inversion Heq; congruence.
           ++ left. apply in_app_iff. auto.
           ++ right. subst d1. intros m n dy Ho Hdy w Hw.
              rewrite DictFacts.get_set_ne in Hdy by auto.
              destruct (Hcons m n dy Ho Hdy w Hw)
                as (dx0 & w' & Hdx0 & Hw' & Hs).
              assert (dx0 = dx) by congruence. subst dx0.
              exists dx', w'. rewrite DictFacts.get_set_eq.
              split; auto. split; auto.
              apply in_all_arcs in Huv.
              apply (Hcomplete n m w' dy w); auto.
              ** apply Hsym; tauto.
              ** apply supports_swap; auto.
        -- left. apply in_app_iff. right. apply in_map_iff.
           exists u. split; auto. apply filter_In.
           rewrite var_eqb_false. split; auto.
           apply in_all_arcs in Huv. apply in_neighbors. tauto.
      * rewrite (Hsame eq_refl).
        destruct (Hinv _ _ Huv) as [[Heq|Hin]|Hcons]; auto.
        inversion Heq; congruence.
    + destruct (Hinv _ _ Huv) as [[Heq|Hin]|Hcons].
      * inversion Heq; congruence.
      * left. auto.
      * right. subst d1. apply arc_consistent_set_other; auto.
Qed.

Lemma ac3_loop_sound fuel :
  symmetric_overlaps c ->
  forall arcs d d',
    Forall (neighbor_arc c) arcs ->
    pending_or_consistent c arcs d ->
    ac3_loop c fuel false arcs d = Ok (true, d') ->
    pending_or_consistent c [] d'.
Proof.
  intros Hsym.
  induction fuel as [|fuel IH]; intros arcs d d' Harcs Hinv H;
    simpl in H; [discriminate|].
  destruct arcs as [|[x y] rest]; [inversion H; subst; auto|].
  inversion Harcs as [|? ? Hxy Hrest]; subst.
  assert (Hne : x <> y).
  { destruct Hxy as [Hx _]. simpl in Hx. apply in_neighbors in Hx. tauto. }
  destruct (revise c x y d) as [[revised d1]| |] eqn:Er; simpl in H;
    try discriminate.
  pose proof (revise_step_invariant x y rest d revised d1 Hsym Hne Hinv Er)
    as Hinv1.
  destruct revised; [|eapply IH; eauto].
  destruct (Dict.getitem d1 x) as [dx| |]; simpl in H; try discriminate.
  destruct (List.length dx =? 0); [discriminate|].
  simpl in H. eapply IH; [| |exact H]; auto.
  apply Forall_app. split; auto. apply enqueued_neighbor_arc; auto.
Qed.

(** C5. Arc-consistency soundness: when [ac3] run over all the arcs
    in full-propagation mode returns True, every ordered pair of
    distinct variables with a defined overlap is arc consistent in
    the store it leaves: each word left for the first has a word
    left for the second with the same character at the overlap. *)
Theorem ac3_sound d d' :
  symmetric_overlaps c ->
  ac3 c None false d = Ok (true, d') ->
  forall x y, In x (variables c) -> In y (variables c) -> x <> y ->
              arc_consistent c d' x y.
Proof.
  intros Hsym H x y Hx Hy Hxy. rewrite ac3_unfold in H.
  apply ac3_loop_sound in H; auto.
  - destruct (overlaps c x y) as [[m n]|] eqn:Eo.
    + destruct (H x y) as [[]|Hc]; auto.
      apply in_all_arcs. rewrite Eo. repeat split; auto. discriminate.
    + intros m n dx Ho. congruence.
  - apply (engine_arcs_valid None). exact I.
  - intros u v Huv. left. exact Huv.
Qed.

End ArcConsistency.

(** ** Value ordering *)

Section OrderFacts.
Variable c : Crossword.

(** In restricted mode the loop keeps the keys of the store and
    touches the domains of the first components of its arcs only. *)
Lemma ac3_loop_restricted_frame fuel :
  forall arcs d b d',
    ac3_loop c fuel true arcs d = Ok (b, d') ->
    Dict.keys d' = Dict.keys d /\
    forall k, ~ In k (map fst arcs) -> Dict.get d' k = Dict.get d k.
Proof.
  induction fuel as [|fuel IH]; intros arcs d b d' H; simpl in H;
    [discriminate|].
  destruct arcs as [|[x y] rest]; [inversion H; subst; auto|].
  destruct (revise c x y d) as [[revised d1]| |] eqn:Er; simpl in H;
    try discriminate.
  apply revise_spec in Er. destruct Er as (dx & dx' & Hp).
  destruct Hp as [Hget Hset _ _ _ _ _].
  assert (Hstep : Dict.keys d1 = Dict.keys d /\
            forall k, ~ In k (map fst ((x, y) :: rest)) ->
                      Dict.get d1 k = Dict.get d k).
  { subst d1. split.
    - apply DictFacts.keys_set_present.
      eapply DictFacts.get_some_in_keys; eauto.
    - intros k Hk. simpl in Hk. apply DictFacts.get_set_ne. tauto. }
  destruct Hstep as [Hk1 Hg1].
  assert (Hrest : forall b d', ac3_loop c fuel true rest d1 = Ok (b, d') ->
            Dict.keys d' = Dict.keys d /\
            forall k, ~ In k (map fst ((x, y) :: rest)) ->
                      Dict.get d' k = Dict.get d k).
  { intros b0 d0 H0. apply IH in H0. destruct H0 as [Hk0 Hg0]. split.
    - congruence.
    - intros k Hk. rewrite Hg0, Hg1; auto. simpl in Hk. tauto. }
  destruct revised; [|apply Hrest in H; exact H].
  destruct (Dict.getitem d1 x) as [dx1| |]; simpl in H; try discriminate.
  destruct (List.length dx1 =? 0).
  - inversion H; subst. auto.
  - simpl in H. apply Hrest in H. exact H.
Qed.

Lemma probe_frame var ns i d b d1 :
  In var (Dict.keys d) ->
  probe c var ns i d = Ok (b, d1) ->
  Dict.keys d1 = Dict.keys d /\
  forall k, k <> var -> ~ In k ns -> Dict.get d1 k = Dict.get d k.
Proof.
  unfold probe. intros Hvar H. rewrite ac3_unfold in H. cbv [arcs_of] in H.
  apply ac3_loop_restricted_frame in H. destruct H as [Hk Hg]. split.
  - rewrite Hk. apply DictFacts.keys_set_present. exact Hvar.
  - intros k Hkv Hkn. rewrite Hg.
    + apply DictFacts.get_set_ne. congruence.
    + rewrite map_map. simpl. rewrite map_id. exact Hkn.
Qed.

(** In restricted mode the loop returns False only after it emptied
    the domain of the first component of one of its arcs. *)
Lemma ac3_loop_restricted_false fuel :
  forall arcs d d',
    ac3_loop c fuel true arcs d = Ok (false, d') ->
    exists x, In x (map fst arcs) /\ Dict.get d' x = Some [].
Proof.
  induction fuel as [|fuel IH]; intros arcs d d' H; simpl in H;
    [discriminate|].
  destruct arcs as [|[x y] rest]; [discriminate|].
  destruct (revise c x y d) as [[revised d1]| |]; simpl in H;
    try discriminate.
  assert (Hrest : ac3_loop c fuel true rest d1 = Ok (false, d') ->
            exists x0, In x0 (map fst ((x, y) :: rest)) /\
                       Dict.get d' x0 = Some []).
  { intros H0. apply IH in H0. destruct H0 as (x0 & Hin & Hget).
    exists x0. split; [right; exact Hin | exact Hget]. }
  destruct revised; [|auto].
  unfold Dict.getitem in H.
  destruct (Dict.get d1 x) as [dx|] eqn:Ex; simpl in H; [|discriminate].
  destruct dx as [|w dx]; simpl in H; [|auto].
  inversion H; subst. exists x. split; [left; reflexivity | exact Ex].
Qed.

Lemma probe_false_empties var ns i d d1 :
  probe c var ns i d = Ok (false, d1) ->
  exists n, In n ns /\ Dict.get d1 n = Some [].
Proof.
  unfold probe. intros H. rewrite ac3_unfold in H. cbv [arcs_of] in H.
  apply ac3_loop_restricted_false in H. destruct H as (n & Hin & Hget).
  rewrite map_map in Hin. simpl in Hin. rewrite map_id in Hin. eauto.
Qed.

Lemma probe_loop_frame var a ns saved cands :
  forall d domain values domain' values' d',
    In var (Dict.keys d) ->
    probe_loop c var a ns saved cands d domain values
    = Ok (domain', values', d') ->
    Dict.keys d' = Dict.keys d /\
    forall k, k <> var -> ~ In k ns -> Dict.get d' k = Dict.get d k.
Proof.
  induction cands as [|i cands IH]; intros d domain values domain' values' d'
    Hvar H; simpl in H.
  - inversion H; subst. auto.
  - destruct (probe c var ns i d) as [[ok d1]| |] eqn:Ep; simpl in H;
      try discriminate.
    apply probe_frame in Ep; auto. destruct Ep as [Hk1 Hg1].
    assert (Hvar1 : In var (Dict.keys d1)) by (rewrite Hk1; exact Hvar).
    destruct ok.
    + destruct (eliminated a saved d1 ns 0%Z) as [v| |]; simpl in H;
        try discriminate.
      apply IH in H; auto. destruct H as [Hk Hg]. split; [congruence|].
      intros k Hkv Hkn. rewrite Hg, Hg1; auto.
    + apply IH in H; auto. destruct H as [Hk Hg]. split; [congruence|].
      intros k Hkv Hkn. rewrite Hg, Hg1; auto.
Qed.

Lemma save_neighbors_spec d ns :
  forall saved saved',
    save_neighbors d ns saved = Ok saved' ->
    forall k, (In k ns -> In k (Dict.keys d) /\
                          Dict.get saved' k = Dict.get d k) /\
              (~ In k ns -> Dict.get saved' k = Dict.get saved k).
Proof.
  induction ns as [|i ns IH]; intros saved saved' H k; simpl in H.
  - inversion H; subst. split; [intros [] | auto].
  - unfold Dict.getitem in H.
    destruct (Dict.get d i) as [di|] eqn:Ei; simpl in H; [|discriminate].
    specialize (IH _ _ H k). destruct IH as [IH1 IH2].
    destruct (in_dec Var_eq_dec k ns) as [Hin|Hnin].
    + split; [intros _; auto|]. intros Hn. exfalso. apply Hn. right; auto.
    + split.
      * intros [->|Hin]; [|contradiction]. split.
        -- eapply DictFacts.get_some_in_keys; eauto.
        -- rewrite (IH2 Hnin), DictFacts.get_set_eq. auto.
      * intros Hn. rewrite (IH2 Hnin). apply DictFacts.get_set_ne.
        intros ->. apply Hn. left; auto.
Qed.

Lemma restore_neighbors_spec saved ns :
  forall d d',
    (forall k, In k ns -> In k (Dict.keys d)) ->
    restore_neighbors saved ns d = Ok d' ->
    Dict.keys d' = Dict.keys d /\
    forall k, (In k ns -> Dict.get d' k = Dict.get saved k) /\
              (~ In k ns -> Dict.get d' k = Dict.get d k).
Proof.
  induction ns as [|i ns IH]; intros d d' Hkeys H; simpl in H.
  - inversion H; subst. split; auto. intros k. split; [intros [] | auto].
  - unfold Dict.getitem in H.
    destruct (Dict.get saved i) as [oi|] eqn:Ei; simpl in H; [|discriminate].
    assert (Hk1 : Dict.keys (Dict.set d i oi) = Dict.keys d).
    { apply DictFacts.keys_set_present. apply Hkeys. left; auto. }
    apply IH in H.
    2:{ intros k Hk. rewrite Hk1. apply Hkeys. right; auto. }
    destruct H as [Hk Hg]. split; [congruence|].
    intros k. destruct (Hg k) as [Hg1 Hg2].
    destruct (in_dec Var_eq_dec k ns) as [Hin|Hnin].
    + split; [intros _; auto|]. intros Hn. exfalso. apply Hn. right; auto.
    + split.
      * intros [->|Hin]; [|contradiction].
        rewrite (Hg2 Hnin), DictFacts.get_set_eq. auto.
      * intros Hn. rewrite (Hg2 Hnin). apply DictFacts.get_set_ne.
        intros ->. apply Hn. left; auto.
Qed.

(** The store that [order_domain_values] leaves is the store it
    found. *)
Lemma order_domain_values_restores var a d l d' :
  Dict.wf d ->
  order_domain_values c var a d = Ok (l, d') ->
  d' = d.
Proof.
  intros Hwf H. unfold order_domain_values in H.
  unfold Dict.getitem in H at 1.
  destruct (Dict.get d var) as [orig|] eqn:Ev; simpl in H; [|discriminate].
  destruct (save_neighbors d (neighbors c var) []) as [saved| |] eqn:Es;
    simpl in H; try discriminate.
  destruct (probe_loop c var a (neighbors c var) saved orig d [] [])
    as [[[domain values] d1]| |] eqn:Ep; simpl in H; try discriminate.
  destruct (restore_neighbors saved (neighbors c var) d1) as [d2| |] eqn:Er;
    simpl in H; try discriminate.
  inversion H; subst; clear H.
  pose proof (DictFacts.get_some_in_keys _ _ _ Ev) as Hvar.
  apply probe_loop_frame in Ep; auto. destruct Ep as [Hk1 Hg1].
  pose proof (save_neighbors_spec _ _ _ _ Es) as Hsaved.
  apply restore_neighbors_spec in Er.
  2:{ intros k Hk. rewrite Hk1. apply Hsaved. exact Hk. }
  destruct Er as [Hk2 Hg2].
  symmetry. apply DictFacts.ext; auto.
  - rewrite DictFacts.keys_set_present; [congruence|].
    rewrite Hk2, Hk1. exact Hvar.
  - intros k. destruct (Var_eq_dec var k) as [<-|Hne].
    + rewrite DictFacts.get_set_eq. exact Ev.
    + rewrite DictFacts.get_set_ne by auto.
      destruct (in_dec Var_eq_dec k (neighbors c var)) as [Hin|Hnin].
      * destruct (Hg2 k) as [-> _]; auto.
        destruct (Hsaved k) as [Hs _]. symmetry. apply Hs; auto.
      * destruct (Hg2 k) as [_ ->]; auto. symmetry. apply Hg1; auto.
Qed.

Lemma insert_sorted_perm p l : Permutation (insert_sorted p l) (p :: l).
Proof.
  induction l as [|q l IH]; simpl; auto.
  destruct (pair_leb p q); auto.
  rewrite IH. apply perm_swap.
Qed.

Lemma sorted_perm l : Permutation (sorted l) l.
Proof.
  induction l as [|p l IH]; simpl; auto.
  rewrite insert_sorted_perm. auto.
Qed.

Lemma map_snd_combine {A B} (l1 : list A) (l2 : list B) :
  List.length l1 = List.length l2 -> map snd (combine l1 l2) = l2.
Proof.
  revert l2. induction l1 as [|a l1 IH]; intros [|b l2]; simpl;
    try discriminate; auto.
  intros H. f_equal. apply IH. lia.
Qed.

(** The words offered are the words whose probe succeeded, in
    another order. *)
Lemma offered_perm (values : list Z) (domain : list word) :
  List.length values = List.length domain ->
  Permutation (map snd (sorted (combine values domain))) domain.
Proof.
  intros H. rewrite <- (map_snd_combine values domain H) at 2.
  apply Permutation_map. apply sorted_perm.
Qed.

Lemma probe_loop_domain var a ns saved cands :
  forall d domain values domain' values' d',
    probe_loop c var a ns saved cands d domain values
    = Ok (domain', values', d') ->
    List.length values = List.length domain ->
    List.length values' = List.length domain' /\
    forall x, In x domain' -> In x domain \/ In x cands.
Proof.
  induction cands as [|i cands IH]; intros d domain values domain' values' d'
    H Hlen; simpl in H.
  - inversion H; subst. auto.
  - destruct (probe c var ns i d) as [[ok d1]| |]; simpl in H;
      try discriminate.
    destruct ok.
    + destruct (eliminated a saved d1 ns 0%Z) as [v| |]; simpl in H;
        try discriminate.
      apply IH in H.
      * destruct H as [Hl Hin]. split; auto.
        intros x Hx. destruct (Hin x Hx) as [Hd|Hc]; [|right; right; auto].
        apply in_app_iff in Hd. destruct Hd as [Hd|[<-|[]]]; auto.
        right; left; auto.
      * rewrite !length_app. simpl. lia.
    + apply IH in H; auto. destruct H as [Hl Hin]. split; auto.
      intros x Hx. destruct (Hin x Hx); auto. right; right; auto.
Qed.

Lemma probe_loop_app var a ns saved pre rest :
  forall d domain values R,
    probe_loop c var a ns saved (pre ++ rest) d domain values = Ok R ->
    exists d1 domain1 values1,
      probe_loop c var a ns saved pre d domain values
      = Ok (domain1, values1, d1) /\
      after_probes c var ns pre d = Ok d1 /\
      probe_loop c var a ns saved rest d1 domain1 values1 = Ok R.
Proof.
  induction pre as [|i pre IH]; intros d domain values R H; simpl in *.
  - exists d, domain, values. auto.
  - destruct (probe c var ns i d) as [[ok d1]| |]; simpl in *;
      try discriminate.
    destruct ok.
    + destruct (eliminated a saved d1 ns 0%Z) as [v| |]; simpl in *;
        try discriminate.
      apply IH in H. exact H.
    + apply IH in H. exact H.
Qed.

(** C10. [order_domain_values] may offer less than the domain: a
    candidate whose probe, run on the store that the probes of the
    candidates before it left, empties the domain of a neighbor
    (which is when [ac3] returns False) is not in the ordering
    returned, although it is still in the domain of the variable
    after the call; the words returned are words of the domain. *)
Theorem order_domain_values_omits var a d pre w post d1 d2 l d' :
  Dict.wf d ->
  Dict.get d var = Some (pre ++ w :: post) ->
  ~ In w pre -> ~ In w post ->
  after_probes c var (neighbors c var) pre d = Ok d1 ->
  probe c var (neighbors c var) w d1 = Ok (false, d2) ->
  order_domain_values c var a d = Ok (l, d') ->
  (exists n, In n (neighbors c var) /\ Dict.get d2 n = Some []) /\
  ~ In w l /\
  (forall x, In x l -> In x (pre ++ w :: post)) /\
  Dict.get d' var = Some (pre ++ w :: post).
Proof.
  intros Hwf Ev Hpre Hpost Hafter Hprobe H.
  split; [eapply probe_false_empties; eauto|].
  pose proof (order_domain_values_restores var a d l d' Hwf H) as ->.
  unfold order_domain_values in H. unfold Dict.getitem in H at 1.
  rewrite Ev in H. simpl in H.
  destruct (save_neighbors d (neighbors c var) []) as [saved| |];
    simpl in H; try discriminate.
  destruct (probe_loop c var a (neighbors c var) saved
                       (pre ++ w :: post) d [] [])
    as [[[domain values] dl]| |] eqn:Ep; simpl in H; try discriminate.
  destruct (restore_neighbors saved (neighbors c var) dl) as [dr| |];
    simpl in H; try discriminate.
  inversion H; subst l; clear H.
  pose proof (probe_loop_domain _ _ _ _ _ _ _ _ _ _ _ Ep eq_refl)
    as [Hlen Hall].
  assert (Hoff : forall x,
            In x (map snd (sorted (combine values domain))) ->
            In x domain).
  { intros x. apply Permutation_in. apply offered_perm. exact Hlen. }
  apply probe_loop_app in Ep.
  destruct Ep as (d1' & domain1 & values1 & Hp1 & Ha & Hp2).
  rewrite Hafter in Ha. inversion Ha; subst d1'; clear Ha.
  pose proof (probe_loop_domain _ _ _ _ _ _ _ _ _ _ _ Hp1 eq_refl)
    as [Hlen1 Hin1].
  simpl in Hp2. rewrite Hprobe in Hp2. simpl in Hp2.
  pose proof (probe_loop_domain _ _ _ _ _ _ _ _ _ _ _ Hp2 Hlen1)
    as [_ Hin2].
  split; [|split; auto].
  - intros Hw. apply Hoff in Hw.
    destruct (Hin2 w Hw) as [Hd|Hc]; [|contradiction].
    destruct (Hin1 w Hd) as [[]|Hc]. contradiction.
  - intros x Hx. apply Hoff in Hx.
    destruct (Hall x Hx) as [[]|Hc]. exact Hc.
  - apply DictFacts.get_set_eq.
Qed.

End OrderFacts.

(** ** The consistency check *)

Section ConsistentFacts.
Variable c : Crossword.

Lemma truthy_true w : truthy w = true <-> w <> EmptyString.
Proof.
  unfold truthy. rewrite negb_true_iff. apply String.eqb_neq.
Qed.

Lemma check_neighbors_true a i ai ns :
  check_neighbors c a i ai ns = Ok true ->
  forall n an x y,
    In n ns -> Dict.get a n = Some an -> truthy an = true ->
    overlaps c n i = Some (x, y) -> supports x y an ai.
Proof.
  induction ns as [|n0 ns IH]; simpl; intros H n an x y Hin Hget Ht Ho;
    [contradiction|].
  destruct (Var_eq_dec n n0) as [->|Hne].
  - rewrite Hget, Ht, Ho in H. unfold index in H.
    destruct (String.get x an) as [p|] eqn:Ep; simpl in H; [|discriminate].
    destruct (String.get y ai) as [q|] eqn:Eq; simpl in H; [|discriminate].
    destruct (Ascii.eqb_spec p q) as [->|]; [|discriminate].
    exists q. auto.
  - destruct Hin as [->|Hin]; [congruence|].
    assert (H' : check_neighbors c a i ai ns = Ok true).
    { destruct (Dict.get a n0) as [an0|]; auto.
      destruct (truthy an0); auto.
      destruct (overlaps c n0 i) as [[x0 y0]|]; [|discriminate].
      destruct (index an0 x0); simpl in H; try discriminate.
      destruct (index ai y0); simpl in H; try discriminate.
      destruct (Ascii.eqb _ _); [auto | discriminate]. }
    eapply IH; eauto.
Qed.

Lemma consistent_loop_true a items :
  forall seen,
    consistent_loop c a items seen = Ok true ->
    NoDup seen ->
    NoDup (seen ++ truthy_values items) /\
    forall i ai, In (i, ai) items -> truthy ai = true ->
      String.length ai = length i /\
      check_neighbors c a i ai (neighbors c i) = Ok true.
Proof.
  induction items as [|[i0 ai0] items IH]; intros seen H Hnd; simpl in H.
  - unfold truthy_values. simpl. rewrite app_nil_r. split; auto.
    intros i ai [].
  - unfold truthy_values in *. simpl.
    destruct (truthy ai0) eqn:Et.
    + destruct (String.length ai0 =? length i0) eqn:El; simpl in H;
        [|discriminate].
      destruct (mem ai0 seen) eqn:Em; [discriminate|].
      destruct (check_neighbors c a i0 ai0 (neighbors c i0))
        as [ok| |] eqn:Ec; simpl in H; try discriminate.
      destruct ok; [|discriminate].
      apply IH in H.
      * destruct H as [Hnd' Hall]. split.
        -- rewrite <- app_assoc in Hnd'. exact Hnd'.
        -- intros i ai [Heq|Hin] Ht.
           ++ inversion Heq; subst. split; auto.
              apply Nat.eqb_eq; auto.
           ++ apply Hall; auto.
      * apply NoDup_app; auto.
        -- constructor; [simpl; tauto | constructor].
        -- intros x Hx [Heq|[]]. subst x.
           apply (mem_In ai0 seen) in Hx. congruence.
    + apply IH in H; auto. destruct H as [Hnd' Hall]. split; auto.
      intros i ai [Heq|Hin] Ht; [|apply Hall; auto].
      inversion Heq; subst. congruence.
Qed.

Lemma nodup_values_keys (items : list (Var * word)) k1 k2 w :
  NoDup (truthy_values items) -> NoDup (map fst items) ->
  In (k1, w) items -> In (k2, w) items -> truthy w = true -> k1 = k2.
Proof.
  unfold truthy_values.
  induction items as [|[k0 w0] items IH]; simpl; [tauto|].
  intros Hv Hk H1 H2 Ht.
  inversion Hk as [|? ? Hk0 Hk']; subst.
  assert (Hfresh : forall k, In (k, w) items -> w0 = w -> False).
  { intros k Hin <-. rewrite Ht in Hv.
    inversion Hv as [|? ? Hnin _]; subst. apply Hnin.
    apply filter_In. split; auto.
    apply (in_map snd) in Hin. exact Hin. }
  destruct H1 as [E1|H1]; destruct H2 as [E2|H2].
  - congruence.
  - inversion E1; subst. exfalso. eapply Hfresh; eauto.
  - inversion E2; subst. exfalso. eapply Hfresh; eauto.
  - apply IH; auto. destruct (truthy w0); auto.
    inversion Hv; auto.
Qed.

(** What the check returning True says of the assignment. *)
Lemma consistent_true a :
  Dict.wf a -> consistent c a = Ok true -> consistent_assignment c a.
Proof.
  intros Hwf H. unfold consistent in H.
  apply consistent_loop_true in H; [|constructor].
  destruct H as [Hnd Hall]. simpl in Hnd.
  repeat split.
  - intros v w Hget Hw. apply DictFacts.get_in in Hget.
    apply Hall; auto. apply truthy_true; auto.
  - intros v1 v2 w H1 H2 Hw.
    apply DictFacts.get_in in H1. apply DictFacts.get_in in H2.
    apply (nodup_values_keys a v1 v2 w); auto.
    apply truthy_true; auto.
  - intros i n wi wn x y Hi Hn Hwi Hwn Hnb Ho.
    apply DictFacts.get_in in Hi.
    destruct (Hall i wi Hi) as [_ Hc]; [apply truthy_true; auto|].
    eapply check_neighbors_true; eauto. apply truthy_true; auto.
Qed.

Lemma forallb_truthy_values (a : assignment) :
  forallb truthy (Dict.values a) = true ->
  forall v w, Dict.get a v = Some w -> w <> EmptyString.
Proof.
  intros H v w Hget. apply truthy_true.
  rewrite forallb_forall in H. apply H.
  apply DictFacts.get_in in Hget.
  apply (in_map snd) in Hget. exact Hget.
Qed.

(** What [assignment_complete] returning True says of an assignment
    whose keys are variables of the puzzle. *)
Lemma assignment_complete_true a :
  Dict.wf a ->
  (forall v, In v (Dict.keys a) -> In v (variables c)) ->
  assignment_complete c a = true ->
  complete_assignment c a.
Proof.
  intros Hwf Hkeys H. unfold assignment_complete in H.
  destruct (List.length a =? List.length (variables c)) eqn:El;
    [|discriminate].
  apply Nat.eqb_eq in El.
  split; [exact Hwf|]. split.
  - intros v. split; [apply Hkeys|].
    apply (NoDup_length_incl Hwf).
    + unfold Dict.keys. rewrite length_map. lia.
    + exact Hkeys.
  - apply forallb_truthy_values. exact H.
Qed.

End ConsistentFacts.

(** ** Variable selection *)

Section SelectFacts.
Variable c : Crossword.

Lemma select_loop_spec a d vars :
  forall length_ chosen ln r,
    select_loop c a d vars length_ chosen ln = Ok r ->
    select_state a d length_ chosen ->
    match r with
    | None =>
        length_ = None /\ forall u, In u vars -> skipped a u = true
    | Some v =>
        (In v vars \/ chosen = Some v) /\ skipped a v = false /\
        exists dv, Dict.get d v = Some dv /\
          (forall l, length_ = Some l -> List.length dv <= l) /\
          forall u du, In u vars -> skipped a u = false ->
                       Dict.get d u = Some du ->
                       List.length dv <= List.length du
    end.
Proof.
  induction vars as [|i vars IH]; intros length_ chosen ln r H Hst;
    simpl in H.
  - inversion H; subst. destruct length_ as [l|]; destruct r as [v|];
      simpl in Hst; try contradiction.
    + destruct Hst as (Hs & dch & Hd & Hl).
      split; auto. split; auto. exists dch. split; auto. split.
      * intros l0 E. inversion E. lia.
      * intros u du [].
    + split; auto; intros u [].
  - fold (skipped a i) in H. destruct (skipped a i) eqn:Esk.
    + apply IH in H; auto. destruct r as [v|].
      * destruct H as (Hin & Hs & dv & Hd & Hl & Hmin).
        split; [simpl; tauto|]. split; auto. exists dv. repeat split; auto.
        intros u du [<-|Hu] Hsu; [congruence | eauto].
      * destruct H as [Hl Hall]. split; auto.
        intros u [<-|Hu]; auto.
    + unfold Dict.getitem in H.
      destruct (Dict.get d i) as [di|] eqn:Ei; simpl in H; [|discriminate].
      assert (Hnew : select_state a d (Some (List.length di)) (Some i)).
      { simpl. split; auto. exists di. auto. }
      assert (Hcase :
        (exists ln', select_loop c a d vars (Some (List.length di)) (Some i)
                       ln' = Ok r /\
                     forall l, length_ = Some l -> List.length di <= l) \/
        (exists l ch', length_ = Some l /\ l <= List.length di /\
                       select_state a d length_ ch' /\
                       (ch' = chosen \/
                        (ch' = Some i /\ l = List.length di)) /\
                       select_loop c a d vars length_ ch' ln = Ok r)).
      { destruct length_ as [l|].
        - destruct (List.length di <? l) eqn:Elt.
          + left. eexists. split; [exact H|].
            apply Nat.ltb_lt in Elt. intros l0 E. inversion E. lia.
          + apply Nat.ltb_ge in Elt. right.
            destruct (List.length di =? l) eqn:Eeq.
            * apply Nat.eqb_eq in Eeq.
              destruct (ln <? List.length (neighbors c i)).
              -- exists l, (Some i). split; [reflexivity|].
                 split; [exact Elt|].
                 split; [rewrite <- Eeq; exact Hnew|].
                 split; [right; auto | exact H].
              -- exists l, chosen. split; [reflexivity|].
                 split; [exact Elt|]. split; [exact Hst|].
                 split; [left; reflexivity | exact H].
            * exists l, chosen. split; [reflexivity|].
              split; [exact Elt|]. split; [exact Hst|].
              split; [left; reflexivity | exact H].
        - left. eexists. split; [exact H|]. discriminate. }
      destruct Hcase as [(ln' & Hr & Hle)|(l & ch' & -> & Hle & Hst' & Hch & Hr)].
      * apply IH in Hr; auto. destruct r as [v|].
        -- destruct Hr as (Hin & Hs & dv & Hd & Hl & Hmin).
           specialize (Hl _ eq_refl).
           split.
           { destruct Hin as [Hin|Hin]; [left; right; auto|].
             inversion Hin; subst. left; left; auto. }
           split; auto. exists dv. split; auto. split.
           ++ intros l E. specialize (Hle _ E). lia.
           ++ intros u du [<-|Hu] Hsu Hdu; [|eauto].
              assert (du = di) by congruence. subst. exact Hl.
        -- destruct Hr as [Hr _]. discriminate.
      * apply IH in Hr; auto. destruct r as [v|].
        -- destruct Hr as (Hin & Hs & dv & Hd & Hl & Hmin).
           specialize (Hl _ eq_refl).
           split.
           { destruct Hin as [Hin|Hin]; [left; right; auto|].
             destruct Hch as [->|[-> _]]; [right; auto|].
             inversion Hin; subst. left; left; auto. }
           split; auto. exists dv. split; auto. split.
           ++ intros l0 E. inversion E; subst. exact Hl.
           ++ intros u du [<-|Hu] Hsu Hdu; [|eauto].
              assert (du = di) by congruence. subst. lia.
        -- destruct Hr as [Hr _]. discriminate.
Qed.

Lemma select_loop_total a d vars :
  (forall u, In u vars -> In u (Dict.keys d)) ->
  forall length_ chosen ln,
    exists r, select_loop c a d vars length_ chosen ln = Ok r.
Proof.
  induction vars as [|i vars IH]; intros Hkeys length_ chosen ln; simpl.
  - eauto.
  - assert (Hk : forall u, In u vars -> In u (Dict.keys d))
      by (intros u Hu; apply Hkeys; right; auto).
    destruct (negb (List.length a =? 0) && assigned a i); [apply IH; auto|].
    destruct (DictFacts.in_keys_get d i) as (di & Hdi);
      [apply Hkeys; left; auto|].
    unfold Dict.getitem. rewrite Hdi. simpl.
    destruct (match length_ with
              | Some l => List.length di <? l
              | None => true
              end); [apply IH; auto|].
    destruct (match length_ with
              | Some l => List.length di =? l
              | None => false
              end); [|apply IH; auto].
    destruct (ln <? List.length (neighbors c i)); apply IH; auto.
Qed.

(** The variable selected is a variable of the puzzle that is not
    assigned and whose domain is the smallest of such variables. *)
Lemma select_minimum a d v :
  select_unassigned_variable c a d = Ok (Some v) ->
  In v (variables c) /\ skipped a v = false /\
  exists dv, Dict.get d v = Some dv /\
    forall u du, In u (variables c) -> skipped a u = false ->
                 Dict.get d u = Some du ->
                 List.length dv <= List.length du.
Proof.
  intros H. unfold select_unassigned_variable in H.
  apply select_loop_spec in H; [|exact I].
  destruct H as ([Hin|Hin] & Hs & dv & Hd & _ & Hmin); [|discriminate].
  split; auto. split; auto. exists dv. auto.
Qed.

(** No variable is selected only when every variable is assigned. *)
Lemma select_none a d :
  select_unassigned_variable c a d = Ok None ->
  forall u, In u (variables c) -> skipped a u = true.
Proof.
  intros H. unfold select_unassigned_variable in H.
  apply select_loop_spec in H; [|exact I]. tauto.
Qed.

End SelectFacts.

(** ** Backtracking search *)

Section BacktrackFacts.
Variable c : Crossword.

(** *** What is returned is a solution *)

Lemma search_invariant_set a var value :
  search_invariant c a -> In var (variables c) ->
  consistent c (Dict.set a var value) = Ok true ->
  search_invariant c (Dict.set a var value).
Proof.
  intros (Hwf & Hkeys & _) Hvar Hc. split; [|split; auto].
  - apply DictFacts.wf_set; auto.
  - intros v Hv. apply DictFacts.in_keys_set in Hv.
    destruct Hv as [->|Hv]; auto.
Qed.

Lemma backtrack_loop_sound (rec : assignment -> store -> outcome)
      depth var assignment1 :
  (forall a d a' d' t,
      search_invariant c a -> rec a d = Ok (RAssignment a', d', t) ->
      search_invariant c a' /\ assignment_complete c a' = true) ->
  In var (variables c) ->
  search_invariant c assignment1 ->
  forall values a d a' d' t,
    search_invariant c a ->
    backtrack_loop c rec depth var assignment1 values a d
    = Ok (RAssignment a', d', t) ->
    search_invariant c a' /\ assignment_complete c a' = true.
Proof.
  intros Hrec Hvar H1.
  induction values as [|value values IH]; intros a d a' d' t Ha H;
    simpl in H; [discriminate|].
  destruct (consistent c (Dict.set a var value)) as [ok| |] eqn:Ec;
    simpl in H; try discriminate.
  destruct ok.
  - destruct (ac3 c _ false (Dict.set d var [value])) as [[ok3 d2]| |];
      simpl in H; try discriminate.
    destruct ok3; simpl in H; [|discriminate].
    destruct (rec (Dict.set a var value) d2) as [[[result d3] t1]| |] eqn:Er;
      simpl in H; try discriminate.
    destruct (ret_truthy result) eqn:Et.
    + inversion H; subst. eapply Hrec; [|exact Er].
      apply search_invariant_set; auto.
    + destruct (backtrack_loop c rec depth var assignment1 values
                               assignment1 d) as [[[r d4] t2]| |] eqn:El;
        simpl in H; try discriminate.
      inversion H; subst. eapply IH; [|exact El]. exact H1.
  - destruct (backtrack_loop c rec depth var assignment1 values
                             assignment1 d) as [[[r d4] t2]| |] eqn:El;
      simpl in H; try discriminate.
    inversion H; subst. eapply IH; [|exact El]. exact H1.
Qed.

Lemma backtrack_sound fuel :
  forall depth a d a' d' t,
    search_invariant c a ->
    backtrack c fuel depth a d = Ok (RAssignment a', d', t) ->
    search_invariant c a' /\ assignment_complete c a' = true.
Proof.
  induction fuel as [|fuel IH]; intros depth a d a' d' t Ha H; simpl in H;
    [discriminate|].
  destruct (assignment_complete c a) eqn:Ecomp.
  - inversion H; subst. auto.
  - destruct (select_unassigned_variable c a d) as [[var|]| |] eqn:Es;
      simpl in H; try discriminate.
    destruct (order_domain_values c var a d) as [[values d0]| |];
      simpl in H; try discriminate.
    destruct (backtrack_loop c (backtrack c fuel (S depth)) depth var a
                             values a d0) as [[[r d1] t1]| |] eqn:El;
      simpl in H; try discriminate.
    inversion H; subst.
    eapply backtrack_loop_sound; [| | | |exact El]; auto.
    + intros a0 d2 a2 d3 t2. apply IH.
    + apply select_minimum in Es. tauto.
Qed.

Lemma search_invariant_empty : search_invariant c [].
Proof.
  split; [constructor|]. split; [intros v []|reflexivity].
Qed.

(** C7. A mapping returned by [solve] is complete, one word that is
    not empty for each variable, and passes the consistency check:
    the length of each word is the length of its variable, no word
    is assigned to two variables, and assigned neighbors have the
    same character where they cross. *)
Theorem solve_sound fuel d a d' t :
  solve c fuel d = Ok (RAssignment a, d', t) ->
  complete_assignment c a /\
  consistent c a = Ok true /\
  consistent_assignment c a.
Proof.
  unfold solve. intros H.
  destruct (ac3 c None false (enforce_node_consistency d))
    as [[b d2]| |]; simpl in H; try discriminate.
  apply backtrack_sound in H; [|apply search_invariant_empty].
  destruct H as [(Hwf & Hkeys & Hc) Hcomp].
  split; [apply assignment_complete_true; auto|].
  split; [exact Hc|].
  apply consistent_true; auto.
Qed.

(** *** A failed propagation *)

Lemma aborts_return_app k t1 t2 :
  aborts_return t1 -> aborts_return t2 ->
  Forall (fun e => S k <= event_depth e) t1 ->
  starts_below k t2 ->
  aborts_return (t1 ++ t2).
Proof.
  intros H1 H2 Hdeep Hlow.
  induction t1 as [|e t1 IH]; simpl; [exact H2|].
  inversion Hdeep as [|? ? He Hdeep']; subst.
  destruct H1 as [Hhead Htail]. split; [|apply IH; auto].
  destruct e as [k0 a0|k0 v0 w0|k0 v0 w0]; auto.
  destruct t1 as [|e' t1]; simpl; [|exact Hhead].
  destruct t2 as [|e' t2]; auto.
  simpl in Hlow, He. lia.
Qed.

Lemma aborts_return_split t1 k v w e t2 :
  aborts_return (t1 ++ Abort k v w :: e :: t2) -> event_depth e < k.
Proof.
  induction t1 as [|e1 t1 IH]; simpl.
  - tauto.
  - intros [_ H]. auto.
Qed.

Lemma backtrack_loop_abort (rec : assignment -> store -> outcome)
      depth var assignment1 :
  (forall a d r d' t,
      rec a d = Ok (r, d', t) ->
      Forall (fun e => S depth <= event_depth e) t /\ aborts_return t) ->
  forall values a d r d' t,
    backtrack_loop c rec depth var assignment1 values a d = Ok (r, d', t) ->
    loop_trace depth r t /\ starts_below depth t.
Proof.
  intros Hrec.
  assert (Hdeep : forall t v w,
            Forall (fun e => S depth <= event_depth e) t ->
            ~ In (Abort depth v w) t).
  { intros t v w Hall Hin. rewrite Forall_forall in Hall.
    apply Hall in Hin. simpl in Hin. lia. }
  assert (Hweak : forall t,
            Forall (fun e => S depth <= event_depth e) t ->
            Forall (fun e => depth <= event_depth e) t).
  { intros t. apply Forall_impl. intros e. lia. }
  induction values as [|value values IH]; intros a d r d' t H; simpl in H.
  - inversion H; subst. split; [|exact I].
    constructor; [constructor | intros v w [] | exact I].
  - destruct (consistent c (Dict.set a var value)) as [ok| |];
      simpl in H; try discriminate.
    destruct ok.
    + destruct (ac3 c _ false (Dict.set d var [value])) as [[ok3 d2]| |];
        simpl in H; try discriminate.
      destruct ok3; simpl in H.
      * destruct (rec (Dict.set a var value) d2) as [[[result d3] t1]| |]
          eqn:Er; simpl in H; try discriminate.
        apply Hrec in Er. destruct Er as [Hd1 Hr1].
        destruct (ret_truthy result).
        -- inversion H; subst. split; [|simpl; lia]. constructor.
           ++ constructor; [simpl; lia | auto].
           ++ intros v w [Heq|Hin]; [discriminate|].
              exfalso. eapply Hdeep; eauto.
           ++ simpl. split; [exact I | exact Hr1].
        -- destruct (backtrack_loop c rec depth var assignment1 values
                                    assignment1 d) as [[[r0 d4] t2]| |]
             eqn:El; simpl in H; try discriminate.
           inversion H; subst. apply IH in El.
           destruct El as [[Hd Hab Hr2] Hlow].
           split; [|simpl; lia]. constructor.
           ++ constructor; [simpl; lia|]. apply Forall_app. auto.
           ++ intros v w [Heq|Hin]; [discriminate|].
              apply in_app_iff in Hin. destruct Hin as [Hin|Hin].
              ** exfalso. eapply Hdeep; eauto.
              ** destruct (Hab v w Hin) as [-> [t0 ->]]. split; auto.
                 exists (Try depth var value :: t1 ++ t0).
                 simpl. rewrite app_assoc. reflexivity.
           ++ simpl. split; [exact I|].
              apply aborts_return_app with (k := depth); auto.
      * inversion H; subst. split; [|simpl; lia]. constructor.
        -- repeat constructor.
        -- intros v w [Heq|[Heq|[]]]; [discriminate|].
           inversion Heq; subst. split; auto.
           exists [Try depth v w]. reflexivity.
        -- simpl. tauto.
    + destruct (backtrack_loop c rec depth var assignment1 values
                               assignment1 d) as [[[r0 d4] t2]| |]
        eqn:El; simpl in H; try discriminate.
      inversion H; subst. apply IH in El.
      destruct El as [[Hd Hab Hr2] Hlow].
      split; [|simpl; lia]. constructor.
      * constructor; [simpl; lia | auto].
      * intros v w [Heq|Hin]; [discriminate|].
        destruct (Hab v w Hin) as [-> [t0 ->]]. split; auto.
        exists (Try depth var value :: t0). reflexivity.
      * simpl. split; [exact I | exact Hr2].
Qed.

Lemma backtrack_abort fuel :
  forall depth a d r d' t,
    backtrack c fuel depth a d = Ok (r, d', t) -> loop_trace depth r t.
Proof.
  induction fuel as [|fuel IH]; intros depth a d r d' t H; simpl in H;
    [discriminate|].
  destruct (assignment_complete c a).
  - inversion H; subst. constructor.
    + repeat constructor.
    + intros v w [Heq|[]]. discriminate.
    + simpl. tauto.
  - destruct (select_unassigned_variable c a d) as [[var|]| |];
      simpl in H; try discriminate.
    destruct (order_domain_values c var a d) as [[values d0]| |];
      simpl in H; try discriminate.
    destruct (backtrack_loop c (backtrack c fuel (S depth)) depth var a
                             values a d0) as [[[r0 d1] t1]| |] eqn:El;
      simpl in H; try discriminate.
    inversion H; subst.
    apply backtrack_loop_abort in El.
    + destruct El as [[Hd Hab Hr] _]. constructor.
      * constructor; [simpl; lia | auto].
      * intros v w [Heq|Hin]; [discriminate|].
        destruct (Hab v w Hin) as [-> [t0 ->]]. split; auto.
        exists (Call depth a :: t0). reflexivity.
      * simpl. split; [exact I | exact Hr].
    + intros a0 d2 r1 d3 t2 Hr. apply IH in Hr.
      destruct Hr as [Hd _ Hr]. auto.
Qed.

(** C2, as the code has it. When the propagation run after a
    tentative assignment empties a domain, the call of [backtrack]
    that made the assignment returns False at once and tries none of
    its remaining candidates: in the events of a call, a failed
    propagation of the call itself is the last event and the call
    returns False (so that in the root call it ends the search), and
    the event that follows a failed propagation of a call further
    down, if there is one, is at a smaller depth, back in a caller. *)
Theorem abort_ends_call fuel depth a d r d' t :
  backtrack c fuel depth a d = Ok (r, d', t) ->
  (forall v w, In (Abort depth v w) t ->
     r = RFalse /\ exists t0, t = t0 ++ [Abort depth v w]) /\
  (forall t1 k v w e t2,
     t = t1 ++ Abort k v w :: e :: t2 -> event_depth e < k).
Proof.
  intros H. apply backtrack_abort in H. destruct H as [_ Hab Hr].
  split; [exact Hab|].
  intros t1 k v w e t2 ->. eapply aborts_return_split; eauto.
Qed.

End BacktrackFacts.

(** ** Solving *)

Section SolveFacts.
Variable c : Crossword.

Lemma get_in_range w : forall n, n < String.length w ->
  exists ch, String.get n w = Some ch.
Proof.
  induction w as [|a w IH]; simpl; intros n Hn; [lia|].
  destruct n as [|n]; [eauto|]. apply IH. lia.
Qed.

Lemma any_match_ok (i : word) m n (dy : list word) :
  m < String.length i ->
  (forall y, In y dy -> n < String.length y) ->
  exists b, any_match i m n dy = Ok b.
Proof.
  intros Hm. induction dy as [|y dy IH]; intros Hn; simpl; [eauto|].
  unfold index.
  destruct (get_in_range i m Hm) as (p & ->).
  destruct (get_in_range y n) as (q & ->); [apply Hn; left; auto|].
  simpl. destruct (Ascii.eqb p q); [eauto|].
  apply IH. intros y0 Hy0. apply Hn. right; auto.
Qed.

Lemma revise_scan_ok (d : store) y m n (dy dx : list word) :
  Dict.get d y = Some dy ->
  (forall w, In w dx -> m < String.length w) ->
  (forall w, In w dy -> n < String.length w) ->
  exists r, revise_scan d y m n dx = Ok r.
Proof.
  intros Hy Hm Hn. induction dx as [|i dx IH]; simpl; [eauto|].
  unfold Dict.getitem. rewrite Hy. simpl.
  destruct (any_match_ok i m n dy) as (b & ->); auto.
  { apply Hm. left; auto. }
  simpl. destruct IH as ([remove revised] & ->).
  { intros w Hw. apply Hm. right; auto. }
  simpl. destruct b; eauto.
Qed.

Lemma revise_ok x y d :
  overlaps_in_range c -> node_consistent d ->
  In x (variables c) -> In y (variables c) ->
  In x (Dict.keys d) -> In y (Dict.keys d) ->
  exists revised d1, revise c x y d = Ok (revised, d1).
Proof.
  intros Hrange Hnc Hvx Hvy Hx Hy.
  apply DictFacts.in_keys_get in Hx. destruct Hx as (dx & Hdx).
  apply DictFacts.in_keys_get in Hy. destruct Hy as (dy & Hdy).
  unfold revise, Dict.getitem. rewrite Hdx.
  destruct (overlaps c x y) as [[m n]|] eqn:Eo; simpl; [|eauto].
  destruct (Hrange x y m n Hvx Hvy Eo) as [Hm Hn].
  destruct (revise_scan_ok d y m n dy dx) as ([remove revised] & ->);
    auto.
  - intros w Hw. rewrite (Hnc x dx w); auto.
  - intros w Hw. rewrite (Hnc y dy w); auto.
  - simpl. eauto.
Qed.

Lemma narrows_refl d : narrows d d.
Proof. split; auto. intros v dv H. exists dv. auto. Qed.

Lemma narrows_trans d d1 d2 : narrows d d1 -> narrows d1 d2 -> narrows d d2.
Proof.
  intros [Hk1 Hg1] [Hk2 Hg2]. split; [congruence|].
  intros v dv2 H2. destruct (Hg2 v dv2 H2) as (dv1 & H1 & Hi2).
  destruct (Hg1 v dv1 H1) as (dv & H0 & Hi1). exists dv. auto.
Qed.

Lemma narrows_node_consistent d d1 :
  narrows d d1 -> node_consistent d -> node_consistent d1.
Proof.
  intros [_ Hg] Hnc v ws w Hget Hw.
  destruct (Hg v ws Hget) as (dv & Hdv & Hincl).
  apply (Hnc v dv w); auto.
Qed.

Lemma narrows_empty d d1 v :
  narrows d d1 -> Dict.get d v = Some [] -> Dict.get d1 v = Some [].
Proof.
  intros [Hk Hg] Hv.
  destruct (DictFacts.in_keys_get d1 v) as (dv1 & Hdv1).
  { rewrite Hk. eapply DictFacts.get_some_in_keys; eauto. }
  destruct (Hg v dv1 Hdv1) as (dv & Hdv & Hincl).
  assert (dv = []) by congruence. subst dv.
  destruct dv1 as [|w dv1]; auto.
  destruct (Hincl w). left; auto.
Qed.

Lemma revise_narrows x y d revised d1 :
  revise c x y d = Ok (revised, d1) -> narrows d d1.
Proof.
  intros H. apply revise_spec in H. destruct H as (dx & dx' & Hp).
  destruct Hp as [Hget Hset Hincl _ _ _ _]. subst d1. split.
  - apply DictFacts.keys_set_present.
    eapply DictFacts.get_some_in_keys; eauto.
  - intros v dv1. destruct (Var_eq_dec x v) as [<-|Hne].
    + rewrite DictFacts.get_set_eq. intros E. inversion E; subst.
      exists dx. auto.
    + rewrite DictFacts.get_set_ne by auto. intros E. exists dv1. auto.
Qed.

Lemma ac3_loop_narrows dom fuel :
  forall arcs d b d',
    ac3_loop c fuel dom arcs d = Ok (b, d') -> narrows d d'.
Proof.
  induction fuel as [|fuel IH]; intros arcs d b d' H; simpl in H;
    [discriminate|].
  destruct arcs as [|[x y] rest];
    [inversion H; subst; apply narrows_refl|].
  destruct (revise c x y d) as [[revised d1]| |] eqn:Er; simpl in H;
    try discriminate.
  apply revise_narrows in Er.
  destruct revised; [|eapply narrows_trans; eauto].
  destruct (Dict.getitem d1 x) as [dx| |]; simpl in H; try discriminate.
  destruct (List.length dx =? 0); [inversion H; subst; auto|].
  destruct dom; simpl in H; eapply narrows_trans; eauto.
Qed.

(** On a node-consistent store whose keys are the variables, with
    overlaps within the slots, the loop raises no exception. *)
Lemma ac3_loop_ok dom fuel :
  overlaps_in_range c ->
  forall arcs d,
    node_consistent d ->
    (forall v, In v (variables c) -> In v (Dict.keys d)) ->
    Forall (neighbor_arc c) arcs ->
    ac3_loop c fuel dom arcs d <> Timeout ->
    exists b d', ac3_loop c fuel dom arcs d = Ok (b, d').
Proof.
  intros Hrange.
  induction fuel as [|fuel IH]; intros arcs d Hnc Hkeys Harcs Hret;
    simpl in *; [congruence|].
  destruct arcs as [|[x y] rest]; [eauto|].
  inversion Harcs as [|? ? Hxy Hrest]; subst.
  pose proof Hxy as [Hx Hy]. simpl in Hx, Hy.
  apply in_neighbors in Hx. destruct Hx as (Hx & _ & _).
  destruct (revise_ok x y d) as (revised & d1 & Er); auto.
  rewrite Er in *. simpl in *.
  pose proof (revise_narrows _ _ _ _ _ Er) as Hn.
  assert (Hnc1 : node_consistent d1)
    by (eapply narrows_node_consistent; eauto).
  assert (Hkeys1 : forall v, In v (variables c) -> In v (Dict.keys d1)).
  { intros v Hv. destruct Hn as [-> _]. auto. }
  destruct revised; [|apply IH; auto].
  destruct (DictFacts.in_keys_get d1 x) as (dx & Hdx); [auto|].
  unfold Dict.getitem in *. rewrite Hdx in *. simpl in *.
  destruct (List.length dx =? 0); [eauto|].
  destruct dom; simpl in *; apply IH; auto.
  apply Forall_app. split; auto. apply enqueued_neighbor_arc; auto.
Qed.

Lemma ac3_ok arcs dom d :
  overlaps_in_range c -> node_consistent d ->
  (forall v, In v (variables c) -> In v (Dict.keys d)) ->
  engine_arcs c arcs ->
  exists b d', ac3 c arcs dom d = Ok (b, d') /\ narrows d d'.
Proof.
  intros Hrange Hnc Hkeys Harcs.
  destruct (ac3_loop_ok dom (ac3_fuel c (arcs_of c arcs) d) Hrange
                        (arcs_of c arcs) d) as (b & d' & H); auto.
  - apply engine_arcs_valid; auto.
  - apply ac3_loop_terminates. unfold ac3_fuel. lia.
  - exists b, d'. rewrite ac3_unfold. split; auto.
    eapply ac3_loop_narrows; eauto.
Qed.

(** *** Node consistency *)

Lemma keys_enforce d :
  Dict.keys (enforce_node_consistency d) = Dict.keys d.
Proof.
  unfold enforce_node_consistency, Dict.keys. rewrite map_map.
  apply map_ext. intros [v ws]. reflexivity.
Qed.

Lemma get_enforce d v :
  Dict.get (enforce_node_consistency d) v =
  option_map (filter (fun w => String.length w =? length v))
             (Dict.get d v).
Proof.
  induction d as [|[k ws] d IH]; simpl; auto.
  destruct (Var_eq_dec v k) as [->|]; auto.
Qed.

(** After [enforce_node_consistency] every word of every domain has
    the length of its variable. *)
Lemma enforce_node_consistent d :
  node_consistent (enforce_node_consistency d).
Proof.
  intros v ws w Hget Hw. rewrite get_enforce in Hget.
  destruct (Dict.get d v) as [ws0|]; simpl in Hget; [|discriminate].
  inversion Hget; subst. apply filter_In in Hw.
  apply Nat.eqb_eq. tauto.
Qed.

Lemma keys_init : Dict.keys (init_domains c) = variables c.
Proof.
  unfold init_domains, Dict.keys. rewrite map_map. simpl. apply map_id.
Qed.

Lemma get_init v :
  In v (variables c) -> Dict.get (init_domains c) v = Some (words c).
Proof.
  unfold init_domains. induction (variables c) as [|k vars IH]; simpl;
    [tauto|].
  intros Hin. destruct (Var_eq_dec v k); auto.
  apply IH. destruct Hin; congruence.
Qed.

Lemma filter_none {A} (f : A -> bool) l :
  (forall x, In x l -> f x = false) -> filter f l = [].
Proof.
  induction l as [|a l IH]; simpl; auto. intros H.
  rewrite (H a) by auto. apply IH. auto.
Qed.

(** *** A slot without a word *)

Lemma save_neighbors_total (d : store) ns :
  (forall n, In n ns -> In n (Dict.keys d)) ->
  forall saved, exists saved', save_neighbors d ns saved = Ok saved'.
Proof.
  induction ns as [|i ns IH]; intros Hk saved; simpl; [eauto|].
  destruct (DictFacts.in_keys_get d i) as (di & Hdi);
    [apply Hk; left; auto|].
  unfold Dict.getitem. rewrite Hdi. simpl.
  apply IH. intros n Hn. apply Hk. right; auto.
Qed.

Lemma restore_neighbors_total (saved : store) ns :
  (forall n, In n ns -> In n (Dict.keys saved)) ->
  forall d, exists d', restore_neighbors saved ns d = Ok d'.
Proof.
  induction ns as [|i ns IH]; intros Hk d; simpl; [eauto|].
  destruct (DictFacts.in_keys_get saved i) as (oi & Hoi);
    [apply Hk; left; auto|].
  unfold Dict.getitem. rewrite Hoi. simpl.
  apply IH. intros n Hn. apply Hk. right; auto.
Qed.

(** A variable with an empty domain has no candidate to offer. *)
Lemma order_domain_values_empty var a (d : store) :
  Dict.get d var = Some [] ->
  (forall n, In n (variables c) -> In n (Dict.keys d)) ->
  exists d', order_domain_values c var a d = Ok ([], d').
Proof.
  intros Hv Hk. unfold order_domain_values.
  unfold Dict.getitem at 1. rewrite Hv. simpl.
  assert (Hn : forall n, In n (neighbors c var) -> In n (Dict.keys d)).
  { intros n Hn. apply Hk. apply in_neighbors in Hn. tauto. }
  destruct (save_neighbors_total d (neighbors c var) Hn []) as (saved & Es).
  rewrite Es. simpl.
  destruct (restore_neighbors_total saved (neighbors c var)) with (d := d)
    as (d2 & Er).
  { intros n Hin.
    destruct (save_neighbors_spec d _ _ _ Es n) as [Hs _].
    destruct (Hs Hin) as [Hkey Hget].
    apply DictFacts.in_keys_get in Hkey. destruct Hkey as (dn & Hdn).
    rewrite Hdn in Hget.
    eapply DictFacts.get_some_in_keys; eauto. }
  rewrite Er. simpl. eauto.
Qed.

Lemma backtrack_no_candidate fuel depth (d : store) v :
  In v (variables c) ->
  Dict.get d v = Some [] ->
  Dict.keys d = variables c ->
  exists d', backtrack c (S fuel) depth [] d = Ok (RNone, d', [Call depth []]).
Proof.
  intros Hv Hempty Hkeys. simpl.
  assert (Hcomp : assignment_complete c [] = false).
  { unfold assignment_complete. simpl.
    destruct (variables c); [destruct Hv | reflexivity]. }
  rewrite Hcomp.
  destruct (select_loop_total c [] d (variables c)) with
    (length_ := @None nat) (chosen := @None Var) (ln := 0) as (r & Es).
  { intros u Hu. rewrite Hkeys. exact Hu. }
  fold (select_unassigned_variable c [] d) in Es. rewrite Es. simpl.
  destruct r as [var|].
  - apply select_minimum in Es.
    destruct Es as (Hvar & _ & dv & Hdv & Hmin).
    specialize (Hmin v [] Hv eq_refl Hempty). simpl in Hmin.
    destruct dv as [|w dv]; [|simpl in Hmin; lia].
    destruct (order_domain_values_empty var [] d Hdv) as (d' & Eo).
    { intros n Hn. rewrite Hkeys. exact Hn. }
    rewrite Eo. simpl. eauto.
  - apply select_none with (u := v) in Es; auto. discriminate.
Qed.

(** C9, as the code has it. When no word of the vocabulary has the
    length of some slot, the domain of the slot is empty after node
    consistency and [solve] returns None; [backtrack] is entered,
    once, and returns without trying any candidate. *)
Theorem solve_without_word v fuel :
  overlaps_in_range c ->
  In v (variables c) ->
  (forall w, In w (words c) -> String.length w <> length v) ->
  Dict.get (enforce_node_consistency (init_domains c)) v = Some [] /\
  exists d, run c (S fuel) = Ok (RNone, d, [Call 0 []]).
Proof.
  intros Hrange Hv Hnone.
  assert (Hempty :
    Dict.get (enforce_node_consistency (init_domains c)) v = Some []).
  { rewrite get_enforce, (get_init v Hv). simpl.
    rewrite filter_none; [reflexivity|]. intros w Hw. apply Nat.eqb_neq. auto. }
  split; [exact Hempty|].
  unfold run, solve.
  destruct (ac3_ok None false (enforce_node_consistency (init_domains c)))
    as (b & d2 & Ea & Hn); auto.
  - apply enforce_node_consistent.
  - intros u Hu. rewrite keys_enforce, keys_init. exact Hu.
  - exact I.
  - rewrite Ea. simpl.
    apply backtrack_no_candidate with (v := v); auto.
    + eapply narrows_empty; eauto.
    + destruct Hn as [-> _]. rewrite keys_enforce. apply keys_init.
Qed.

End SolveFacts.

(** ** The probes of value ordering on a well-formed store *)

Section ProbeFacts.
Variable c : Crossword.

Lemma node_consistent_set (d : store) var i :
  node_consistent d -> String.length i = length var ->
  node_consistent (Dict.set d var [i]).
Proof.
  intros Hnc Hi v ws w Hget Hw.
  destruct (Var_eq_dec var v) as [<-|Hne].
  - rewrite DictFacts.get_set_eq in Hget. inversion Hget; subst.
    destruct Hw as [<-|[]]. exact Hi.
  - rewrite DictFacts.get_set_ne in Hget by auto. eapply Hnc; eauto.
Qed.

Lemma probe_arcs_valid var :
  In var (variables c) ->
  engine_arcs c (Some (map (fun n => (n, var)) (neighbors c var))).
Proof.
  intros Hvar. simpl. apply Forall_forall. intros arc Hin.
  apply in_map_iff in Hin. destruct Hin as (n & <- & Hn).
  split; simpl; auto.
Qed.

Lemma probe_ok var i (d : store) :
  overlaps_in_range c -> node_consistent d ->
  Dict.keys d = variables c -> In var (variables c) ->
  String.length i = length var ->
  exists b d1, probe c var (neighbors c var) i d = Ok (b, d1) /\
               node_consistent d1 /\ Dict.keys d1 = variables c.
Proof.
  intros Hrange Hnc Hkeys Hvar Hi. unfold probe.
  assert (Hk : Dict.keys (Dict.set d var [i]) = variables c).
  { rewrite DictFacts.keys_set_present; auto. rewrite Hkeys. exact Hvar. }
  destruct (ac3_ok c (Some (map (fun n => (n, var)) (neighbors c var))) true
                   (Dict.set d var [i])) as (b & d1 & Ea & Hn); auto.
  - apply node_consistent_set; auto.
  - intros v Hv. rewrite Hk. exact Hv.
  - apply probe_arcs_valid; auto.
  - exists b, d1. split; auto. split.
    + eapply narrows_node_consistent; eauto.
      apply node_consistent_set; auto.
    + destruct Hn as [-> _]. exact Hk.
Qed.

Lemma eliminated_ok a (saved d : store) ns :
  (forall n, In n ns -> In n (Dict.keys saved)) ->
  (forall n, In n ns -> In n (Dict.keys d)) ->
  forall v_new, exists v, eliminated a saved d ns v_new = Ok v.
Proof.
  induction ns as [|j ns IH]; intros Hs Hd v_new; simpl; [eauto|].
  assert (Hs' : forall n, In n ns -> In n (Dict.keys saved))
    by (intros n Hn; apply Hs; right; auto).
  assert (Hd' : forall n, In n ns -> In n (Dict.keys d))
    by (intros n Hn; apply Hd; right; auto).
  destruct (negb (assigned a j)); [|apply IH; auto].
  destruct (DictFacts.in_keys_get saved j) as (oj & Hoj);
    [apply Hs; left; auto|].
  destruct (DictFacts.in_keys_get d j) as (dj & Hdj);
    [apply Hd; left; auto|].
  unfold Dict.getitem. rewrite Hoj, Hdj. simpl. apply IH; auto.
Qed.

Lemma probe_loop_ok var a (saved : store) cands :
  overlaps_in_range c -> In var (variables c) ->
  (forall n, In n (neighbors c var) -> In n (Dict.keys saved)) ->
  forall (d : store) domain values,
    node_consistent d -> Dict.keys d = variables c ->
    (forall i, In i cands -> String.length i = length var) ->
    exists R, probe_loop c var a (neighbors c var) saved cands d domain values
              = Ok R.
Proof.
  intros Hrange Hvar Hsaved.
  induction cands as [|i cands IH]; intros d domain values Hnc Hkeys Hlen;
    simpl; [eauto|].
  destruct (probe_ok var i d) as (b & d1 & Ep & Hnc1 & Hk1); auto.
  { apply Hlen. left; auto. }
  rewrite Ep. simpl.
  assert (Hlen' : forall i0, In i0 cands -> String.length i0 = length var)
    by (intros i0 Hi0; apply Hlen; right; auto).
  destruct b; [|apply IH; auto].
  destruct (eliminated_ok a saved d1 (neighbors c var)) with (v_new := 0%Z)
    as (v & Ev); auto.
  { intros n Hn. rewrite Hk1. apply in_neighbors in Hn. tauto. }
  rewrite Ev. simpl. apply IH; auto.
Qed.

(** On a well-formed store the call returns. *)
Lemma order_domain_values_ok var a (d : store) :
  overlaps_in_range c -> node_consistent d ->
  Dict.keys d = variables c -> In var (variables c) ->
  exists l d', order_domain_values c var a d = Ok (l, d').
Proof.
  intros Hrange Hnc Hkeys Hvar. unfold order_domain_values.
  destruct (DictFacts.in_keys_get d var) as (orig & Hv);
    [rewrite Hkeys; exact Hvar|].
  unfold Dict.getitem at 1. rewrite Hv. simpl.
  assert (Hn : forall n, In n (neighbors c var) -> In n (Dict.keys d)).
  { intros n Hn. rewrite Hkeys. apply in_neighbors in Hn. tauto. }
  destruct (save_neighbors_total d (neighbors c var) Hn []) as (saved & Es).
  rewrite Es. simpl.
  assert (Hsaved : forall n, In n (neighbors c var) ->
                             In n (Dict.keys saved)).
  { intros n Hin.
    destruct (save_neighbors_spec d _ _ _ Es n) as [Hs _].
    destruct (Hs Hin) as [Hkey Hget].
    apply DictFacts.in_keys_get in Hkey. destruct Hkey as (dn & Hdn).
    rewrite Hdn in Hget. eapply DictFacts.get_some_in_keys; eauto. }
  destruct (probe_loop_ok var a saved orig Hrange Hvar Hsaved d [] [])
    as ([[domain values] d1] & Ep); auto.
  { intros i Hi. eapply Hnc; eauto. }
  rewrite Ep. simpl.
  destruct (restore_neighbors_total saved (neighbors c var) Hsaved d1)
    as (d2 & Er).
  rewrite Er. simpl. eauto.
Qed.

(** C4. [order_domain_values] leaves the Domain Store as it was before
    the call, for every variable and every assignment: a call that
    returns leaves the store it found, the ordering it returns being
    its only effect; and on a node-consistent store of the puzzle the
    call does return. *)
Theorem order_domain_values_frame var a d :
  Dict.wf d ->
  (forall l d', order_domain_values c var a d = Ok (l, d') -> d' = d) /\
  (overlaps_in_range c -> node_consistent d ->
   Dict.keys d = variables c -> In var (variables c) ->
   exists l, order_domain_values c var a d = Ok (l, d)).
Proof.
  intros Hwf. split.
  - intros l d'. apply order_domain_values_restores. exact Hwf.
  - intros Hrange Hnc Hkeys Hvar.
    destruct (order_domain_values_ok var a d Hrange Hnc Hkeys Hvar)
      as (l & d' & H).
    exists l. rewrite H.
    apply order_domain_values_restores in H; auto. subst d'. reflexivity.
Qed.

End ProbeFacts.

(** ** The examples *)

Module ExampleFacts.
Import Examples.
Local Open Scope string_scope.

Lemma cycle_start :
  ac3 cycle None false (enforce_node_consistency (init_domains cycle))
  = Ok (true, cycle_store).
Proof. vm_compute. reflexivity. Qed.

Lemma detour_start :
  ac3 detour None false (enforce_node_consistency (init_domains detour))
  = Ok (true, detour_store).
Proof. vm_compute. reflexivity. Qed.

Lemma cycle_symmetric : symmetric_overlaps cycle.
Proof.
  intros x y m n Hx Hy. cases_in Hx; cases_in Hy; subst;
    vm_compute; intros H; inversion H; reflexivity.
Qed.

Lemma cycle_in_range : overlaps_in_range cycle.
Proof.
  intros x y m n Hx Hy. cases_in Hx; cases_in Hy; subst;
    vm_compute; intros H; inversion H; subst; split; lia.
Qed.

Lemma short_in_range : overlaps_in_range short.
Proof.
  intros x y m n Hx Hy. cases_in Hx; cases_in Hy; subst;
    vm_compute; intros H; inversion H; subst; split; lia.
Qed.

(** The word that an assignment complete for [cycle] gives to a
    variable: a word of the vocabulary with the length of the slot. *)
Lemma cycle_word a v :
  satisfying cycle (init_domains cycle) a ->
  In v (variables cycle) ->
  exists w, Dict.get a v = Some w /\ w <> "" /\
            In w (words cycle) /\ String.length w = length v.
Proof.
  intros ((Hwf & Hkeys & Hne) & (Hlen & _ & _) & Hdom) Hv.
  pose proof Hv as Hk. apply Hkeys in Hk.
  apply DictFacts.in_keys_get in Hk. destruct Hk as (w & Hw).
  exists w. split; auto. split; [eauto|]. split; [|eauto].
  destruct (Hdom _ _ Hw) as (dv & Hdv & Hin).
  rewrite (get_init cycle v Hv) in Hdv. inversion Hdv; subst. exact Hin.
Qed.

(** No assignment satisfies [cycle]. *)
Lemma cycle_unsatisfiable a : ~ satisfying cycle (init_domains cycle) a.
Proof.
  intros Hsat.
  destruct (cycle_word a top Hsat) as (wt & Ht & Nt & It & Lt);
    [simpl; tauto|].
  destruct (cycle_word a bottom Hsat) as (wb & Hb & Nb & Ib & Lb);
    [simpl; tauto|].
  destruct (cycle_word a left Hsat) as (wl & Hl & Nl & Il & Ll);
    [simpl; tauto|].
  destruct (cycle_word a right Hsat) as (wr & Hr & Nr & Ir & Lr);
    [simpl; tauto|].
  destruct Hsat as (_ & (_ & _ & Hagree) & _).
  assert (Htl : supports 0 0 wl wt).
  { apply (Hagree top left wt wl 0 0); auto; vm_compute; auto. }
  assert (Htr : supports 0 2 wr wt).
  { apply (Hagree top right wt wr 0 2); auto; vm_compute; auto. }
  assert (Hbl : supports 2 0 wl wb).
  { apply (Hagree bottom left wb wl 2 0); auto; vm_compute; auto. }
  assert (Hbr : supports 2 2 wr wb).
  { apply (Hagree bottom right wb wr 2 2); auto; vm_compute; auto. }
  cases_in It; subst wt; try discriminate Lt;
    cases_in Il; subst wl; try discriminate Ll;
    try (refute_supports Htl);
    cases_in Ir; subst wr; try discriminate Lr;
    try (refute_supports Htr);
    cases_in Ib; subst wb; try discriminate Lb;
    try (refute_supports Hbl); refute_supports Hbr.
Qed.

(** C1, on the code. [cycle] has no satisfying assignment, and
    [solve] returns False on it, not None: the propagation after the
    first assignment of the root call empties a domain. *)
Theorem cycle_returns_False :
  (forall a, ~ satisfying cycle (init_domains cycle) a) /\
  forall fuel, run cycle (S fuel) = Ok (RFalse, cycle_end, cycle_trace).
Proof.
  split; [exact cycle_unsatisfiable|].
  intros fuel. vm_compute. reflexivity.
Qed.

(** C3, on the code. In [tie] every domain holds two words when the
    search starts; [right] has three neighbors, and the variable
    selected is [left], which has two. *)
Theorem tie_selects_lower_degree :
  ac3 tie None false (enforce_node_consistency (init_domains tie))
  = Ok (true, tie_store) /\
  Forall (fun e => List.length (snd e) = 2) tie_store /\
  select_unassigned_variable tie [] tie_store = Ok (Some left) /\
  List.length (neighbors tie left) = 2 /\
  List.length (neighbors tie right) = 3.
Proof.
  split; [vm_compute; reflexivity|].
  split; [repeat constructor|].
  split; [vm_compute; reflexivity|].
  split; vm_compute; reflexivity.
Qed.

(** C2, as stated, fails on [detour]: the propagation after
    [right] = "AXBXP" fails in the call at depth 1, the root call
    then tries its next candidate "XQ" for [tail], and the search
    ends with a solution. *)
Lemma detour_search_goes_on :
  run detour 6 =
  Ok (RAssignment detour_solution, detour_end,
      (detour_before ++ Abort 1 right "AXBXP" :: Try 0 tail "XQ"
                     :: detour_after)%list).
Proof. vm_compute. reflexivity. Qed.

(** C9, as stated, fails on [short]: no word has the length of
    [right], and [backtrack] is entered. *)
Lemma short_enters_backtrack :
  In right (variables short) /\
  (forall w, In w (words short) -> String.length w <> length right) /\
  exists r d t, run short 1 = Ok (r, d, t) /\ In (Call 0 []) t.
Proof.
  split; [simpl; tauto|]. split.
  - intros w Hw. cases_in Hw; subst; simpl; discriminate.
  - eexists _, _, _. split; [vm_compute; reflexivity|]. left; reflexivity.
Qed.

(** *** The theorems at work *)

Lemma cycle_store_node_consistent : node_consistent cycle_store.
Proof.
  intros v ws w H Hw. cases_get H; cases_in Hw; subst; reflexivity.
Qed.

Lemma order_domain_values_frame_witness :
  cycle_probed = cycle_store /\
  exists l, order_domain_values cycle top [] cycle_store = Ok (l, cycle_store).
Proof.
  destruct (order_domain_values_frame cycle top [] cycle_store) as [H1 H2].
  - nodup_keys.
  - split.
    + apply (H1 ["AXA"]). vm_compute. reflexivity.
    + apply H2.
      * exact cycle_in_range.
      * exact cycle_store_node_consistent.
      * reflexivity.
      * simpl. tauto.
Defined.

Lemma order_domain_values_omits_witness :
  (exists n, In n (neighbors cycle top) /\
             Dict.get [(top, ["BXB"]); (bottom, ["AXA"; "BXB"]);
                       (left, []); (right, ["AXBXX"])] n = Some []) /\
  ~ In "BXB" ["AXA"] /\
  (forall x, In x ["AXA"] -> In x (["AXA"] ++ "BXB" :: [])%list) /\
  Dict.get cycle_probed top = Some (["AXA"] ++ "BXB" :: [])%list.
Proof.
  eapply (order_domain_values_omits cycle top [] cycle_store
            ["AXA"] "BXB" []).
  - nodup_keys.
  - reflexivity.
  - simpl. intuition discriminate.
  - simpl. tauto.
  - vm_compute. reflexivity.
  - vm_compute. reflexivity.
  - vm_compute. reflexivity.
Defined.

Lemma ac3_sound_witness : arc_consistent cycle cycle_store top right.
Proof.
  apply (ac3_sound cycle (enforce_node_consistency (init_domains cycle))
                   cycle_store cycle_symmetric cycle_start).
  - simpl. tauto.
  - simpl. tauto.
  - discriminate.
Defined.

Lemma detour_solution_complete : complete_assignment detour detour_solution.
Proof.
  split; [nodup_keys|]. split.
  - intros v. simpl. tauto.
  - intros v w H. cases_get H; discriminate.
Qed.

Lemma detour_solution_consistent :
  consistent_assignment detour detour_solution.
Proof.
  apply consistent_true; [nodup_keys | vm_compute; reflexivity].
Qed.

Lemma detour_satisfying : satisfying detour detour_committed detour_solution.
Proof.
  split; [exact detour_solution_complete|].
  split; [exact detour_solution_consistent|].
  intros v w H. cases_get H; vm_compute; eexists; (split; [reflexivity|]);
    simpl; tauto.
Qed.

Lemma ac3_complete_witness : in_domains detour_solution detour_narrowed.
Proof.
  apply (ac3_complete detour detour_solution (Some [(right, tail)]) false
                      detour_committed true detour_narrowed).
  - exact detour_satisfying.
  - simpl. constructor; [|constructor]. split; simpl.
    + vm_compute. tauto.
    + tauto.
  - vm_compute. reflexivity.
Defined.

Lemma solve_sound_witness :
  complete_assignment detour detour_solution /\
  consistent detour detour_solution = Ok true /\
  consistent_assignment detour detour_solution.
Proof.
  apply (solve_sound detour 6 (init_domains detour) detour_solution
                     detour_end
                     (detour_before ++ Abort 1 right "AXBXP"
                        :: Try 0 tail "XQ" :: detour_after)%list).
  vm_compute. reflexivity.
Defined.

Lemma abort_ends_call_witness :
  (RFalse = RFalse /\
   exists t0, cycle_trace = (t0 ++ [Abort 0 top "AXA"])%list) /\
  event_depth (Try 0 tail "XQ") < 1.
Proof.
  split.
  - apply (abort_ends_call cycle 1 0 [] cycle_store RFalse cycle_end
                           cycle_trace).
    + vm_compute. reflexivity.
    + simpl. tauto.
  - apply (abort_ends_call detour 6 0 [] detour_store
             (RAssignment detour_solution) detour_end
             (detour_before ++ Abort 1 right "AXBXP" :: Try 0 tail "XQ"
                            :: detour_after)%list)
      with (t1 := detour_before) (v := right) (w := "AXBXP")
           (t2 := detour_after).
    + vm_compute. reflexivity.
    + reflexivity.
Defined.

Lemma solve_without_word_witness :
  Dict.get (enforce_node_consistency (init_domains short)) right = Some [] /\
  exists d, run short 1 = Ok (RNone, d, [Call 0 []]).
Proof.
  apply (solve_without_word short right 0).
  - exact short_in_range.
  - simpl. tauto.
  - intros w Hw. cases_in Hw; subst; simpl; discriminate.
Defined.

End ExampleFacts.

From Stdlib Require Import Sorted.

(** * Further properties of the engine *)

(** ** Node consistency and revision *)

Section NodeAndReviseFacts.
Variable c : Crossword.

Lemma enforce_idempotent d :
  enforce_node_consistency (enforce_node_consistency d)
  = enforce_node_consistency d.
Proof.
  unfold enforce_node_consistency. rewrite map_map.
  apply map_ext_in. intros [v ws] _. f_equal.
  induction ws as [|w ws IH]; simpl; auto.
  destruct (String.length w =? length v) eqn:E; simpl; [rewrite E|];
    congruence.
Qed.

(** X1. [enforce_node_consistency] keeps the variables of the store,
    leaves in each domain exactly the words that have the length of
    the variable, so that the store is node consistent, and running
    it again changes nothing. *)
Theorem enforce_node_consistency_spec d :
  Dict.keys (enforce_node_consistency d) = Dict.keys d /\
  node_consistent (enforce_node_consistency d) /\
  (forall v ws, Dict.get d v = Some ws ->
     exists ws', Dict.get (enforce_node_consistency d) v = Some ws' /\
       forall w, In w ws' <-> In w ws /\ String.length w = length v) /\
  enforce_node_consistency (enforce_node_consistency d)
  = enforce_node_consistency d.
Proof.
  split; [apply keys_enforce|]. split; [apply enforce_node_consistent|].
  split; [|apply enforce_idempotent].
  intros v ws Hget. rewrite get_enforce, Hget. simpl.
  eexists. split; [reflexivity|].
  intros w. rewrite filter_In, Nat.eqb_eq. tauto.
Qed.

(** X2. What [revise] does to the store when the two variables
    overlap: it replaces the domain of [x] by the words of that domain
    that have a compatible word in the domain of [y], and leaves every
    other domain alone; it returns False exactly when that removes
    nothing, the store then being the same, and True when the domain
    of [x] has become strictly smaller. *)
Theorem revise_effect x y d revised d' m n :
  overlaps c x y = Some (m, n) ->
  revise c x y d = Ok (revised, d') ->
  exists dx dx',
    Dict.get d x = Some dx /\ d' = Dict.set d x dx' /\
    (forall w, In w dx' <->
       In w dx /\
       exists dy w', Dict.get d y = Some dy /\ In w' dy /\ supports m n w w') /\
    (revised = false -> d' = d) /\
    (revised = true -> List.length dx' < List.length dx).
Proof.
  intros Ho H.
  pose proof (revise_shrinks c x y d revised d' H) as (_ & _ & Hsame).
  apply revise_spec in H. destruct H as (dx & dx' & Hp).
  destruct Hp as [Hget Hset Hincl _ Hless Hsound Hcomplete].
  exists dx, dx'. split; [exact Hget|]. split; [exact Hset|].
  split; [|split; auto].
  intros w. split.
  - intros Hw. split; [auto|]. apply (Hsound m n w Ho Hw).
  - intros (Hw & dy & w' & Hdy & Hw' & Hs).
    apply (Hcomplete m n w dy w' Ho Hw Hdy Hw' Hs).
Qed.

(** X3. Without an overlap between the two variables [revise] is a
    no-op that returns False; it still reads the domain of [x], and
    raises KeyError when the store has none. *)
Theorem revise_without_overlap x y (d : store) :
  overlaps c x y = None ->
  revise c x y d =
  match Dict.get d x with
  | Some _ => Ok (false, d)
  | None => Raise KeyError
  end.
Proof.
  intros Ho. unfold revise, Dict.getitem. rewrite Ho. simpl.
  destruct (Dict.get d x) as [dx|] eqn:Ex; simpl; [|reflexivity].
  rewrite difference_nil, (set_same d x dx Ex). reflexivity.
Qed.

Lemma any_match_nil (i : word) m n : any_match i m n [] = Ok false.
Proof. reflexivity. Qed.

Lemma revise_scan_empty (d : store) y m n dx :
  Dict.get d y = Some [] ->
  revise_scan d y m n dx = Ok (dx, negb (List.length dx =? 0)).
Proof.
  intros Hy. induction dx as [|i dx IH]; simpl; [reflexivity|].
  unfold Dict.getitem. rewrite Hy. simpl. rewrite IH. reflexivity.
Qed.

Lemma difference_self s : difference s s = [].
Proof.
  unfold difference. apply filter_none. intros w Hw.
  apply mem_In in Hw. rewrite Hw. reflexivity.
Qed.

(** X4. Against an empty domain of [y], [revise] takes every word
    from the domain of [x], whatever the overlap indices are (no word
    is indexed), and returns True unless that domain was empty
    already. *)
Theorem revise_against_empty x y (d : store) m n dx :
  overlaps c x y = Some (m, n) ->
  Dict.get d x = Some dx ->
  Dict.get d y = Some [] ->
  revise c x y d = Ok (negb (List.length dx =? 0), Dict.set d x []).
Proof.
  intros Ho Hx Hy. unfold revise, Dict.getitem. rewrite Ho, Hx. simpl.
  rewrite (revise_scan_empty d y m n dx Hy). simpl.
  rewrite difference_self. reflexivity.
Qed.

Lemma get_out_of_range w : forall n, String.length w <= n ->
  String.get n w = None.
Proof.
  induction w as [|a w IH]; simpl; intros n Hn; [reflexivity|].
  destruct n as [|n]; [lia|]. apply IH. lia.
Qed.

(** X5. When the domains of [x] and [y] are not empty and an overlap
    index is not a position in the first word of its domain, [revise]
    raises IndexError: the store must be node consistent before arcs
    are revised. *)
Theorem revise_index_error x y (d : store) m n w dx w' dy :
  overlaps c x y = Some (m, n) ->
  Dict.get d x = Some (w :: dx) ->
  Dict.get d y = Some (w' :: dy) ->
  String.length w <= m \/ String.length w' <= n ->
  revise c x y d = Raise IndexError.
Proof.
  intros Ho Hx Hy Hout. unfold revise, Dict.getitem. rewrite Ho, Hx. simpl.
  unfold Dict.getitem. rewrite Hy. simpl. unfold index.
  destruct (String.get m w) as [a|] eqn:Ea; simpl; [|reflexivity].
  destruct Hout as [Hm|Hn].
  - rewrite (get_out_of_range w m Hm) in Ea. discriminate.
  - rewrite (get_out_of_range w' n Hn). reflexivity.
Qed.

End NodeAndReviseFacts.

(** ** More on arc consistency *)

Section MoreAc3Facts.
Variable c : Crossword.

(** X6. On a node-consistent store that has a domain for every
    variable, for a puzzle whose overlap indices are positions in the
    slots, [ac3] raises no exception, in either mode, from all the
    arcs or from a list of arcs of the engine: it returns True or
    False and a store that is node consistent again. *)
Theorem ac3_no_exception arcs dom d :
  overlaps_in_range c ->
  node_consistent d ->
  (forall v, In v (variables c) -> In v (Dict.keys d)) ->
  engine_arcs c arcs ->
  exists b d', ac3 c arcs dom d = Ok (b, d') /\ node_consistent d'.
Proof.
  intros Hrange Hnc Hkeys Harcs.
  destruct (ac3_ok c arcs dom d Hrange Hnc Hkeys Harcs) as (b & d' & H & Hn).
  exists b, d'. split; [exact H|].
  eapply narrows_node_consistent; eauto.
Qed.

(** X7. A run of [ac3] only takes words away: whatever it returns,
    the store it leaves has the same variables in the same order, and
    every word of a domain it leaves was in that domain before. *)
Theorem ac3_narrows arcs dom d b d' :
  ac3 c arcs dom d = Ok (b, d') ->
  Dict.keys d' = Dict.keys d /\
  forall v dv', Dict.get d' v = Some dv' ->
    exists dv, Dict.get d v = Some dv /\ forall w, In w dv' -> In w dv.
Proof.
  intros H. rewrite ac3_unfold in H.
  apply ac3_loop_narrows in H. exact H.
Qed.

Lemma ac3_loop_result dom fuel :
  forall arcs d b d',
    ac3_loop c fuel dom arcs d = Ok (b, d') ->
    (b = true ->
     forall x dx, Dict.get d x = Some dx -> dx <> [] ->
       exists dx', Dict.get d' x = Some dx' /\ dx' <> []) /\
    (b = false ->
     exists x dx, Dict.get d x = Some dx /\ dx <> [] /\
                  Dict.get d' x = Some []).
Proof.
  induction fuel as [|fuel IH]; intros arcs d b d' H; simpl in H;
    [discriminate|].
  destruct arcs as [|[x0 y0] rest].
  { inversion H; subst. split; [|discriminate]. intros _ x dx Hx Hne.
    exists dx. auto. }
  destruct (revise c x0 y0 d) as [[revised d1]| |] eqn:Er; simpl in H;
    try discriminate.
  pose proof (revise_shrinks c x0 y0 d revised d1 Er) as (_ & _ & Hsame).
  apply revise_spec in Er. destruct Er as (dx0 & dx0' & Hp).
  destruct Hp as [Hget Hset _ _ Hless _ _].
  destruct revised; [|rewrite (Hsame eq_refl) in H; apply IH in H; exact H].
  specialize (Hless eq_refl).
  assert (Hne0 : dx0 <> []) by (intros ->; simpl in Hless; lia).
  subst d1. unfold Dict.getitem in H. rewrite DictFacts.get_set_eq in H.
  simpl in H.
  assert (Hstep : forall arcs',
    ac3_loop c fuel dom arcs' (Dict.set d x0 dx0') = Ok (b, d') ->
    dx0' <> [] ->
    (b = true ->
     forall x dx, Dict.get d x = Some dx -> dx <> [] ->
       exists dx', Dict.get d' x = Some dx' /\ dx' <> []) /\
    (b = false ->
     exists x dx, Dict.get d x = Some dx /\ dx <> [] /\
                  Dict.get d' x = Some [])).
  { intros arcs' H' Hne'. apply IH in H'. destruct H' as [Ht Hf]. split.
    - intros Hb x dx Hx Hne. destruct (Var_eq_dec x0 x) as [<-|Hx0].
      + apply (Ht Hb x0 dx0'); auto. apply DictFacts.get_set_eq.
      + apply (Ht Hb x dx); auto. rewrite DictFacts.get_set_ne; auto.
    - intros Hb. destruct (Hf Hb) as (x & dx & Hx & Hne & Hx').
      destruct (Var_eq_dec x0 x) as [<-|Hx0].
      + exists x0, dx0. auto.
      + exists x, dx. rewrite DictFacts.get_set_ne in Hx; auto. }
  destruct dx0' as [|w0 dx0'].
  - simpl in H. inversion H; subst. split; [discriminate|].
    intros _. exists x0, dx0. split; auto. split; auto.
    apply DictFacts.get_set_eq.
  - simpl in H. destruct dom; simpl in H; eapply Hstep; eauto; discriminate.
Qed.

(** X8. What the value of [ac3] says. False: the run emptied a
    domain, one that held a word before the run is empty in the store
    it leaves. True: the run emptied no domain, every domain that
    held a word still holds one (a domain that was empty before the
    run does not make [ac3] fail). *)
Theorem ac3_result arcs dom d b d' :
  ac3 c arcs dom d = Ok (b, d') ->
  (b = true ->
   forall x dx, Dict.get d x = Some dx -> dx <> [] ->
     exists dx', Dict.get d' x = Some dx' /\ dx' <> []) /\
  (b = false ->
   exists x dx, Dict.get d x = Some dx /\ dx <> [] /\
                Dict.get d' x = Some []).
Proof.
  intros H. rewrite ac3_unfold in H. eapply ac3_loop_result; eauto.
Qed.

(** X9. In restricted mode ([dom] true) nothing is appended to the
    list of arcs: only the domains of the first components of the
    arcs given can change. *)
Theorem ac3_restricted_frame arcs d b d' :
  ac3 c (Some arcs) true d = Ok (b, d') ->
  forall k, ~ In k (map fst arcs) -> Dict.get d' k = Dict.get d k.
Proof.
  intros H. rewrite ac3_unfold in H. cbv [arcs_of] in H.
  apply ac3_loop_restricted_frame in H. destruct H as [_ H]. exact H.
Qed.

(** A revision that reports a change removed a word without support. *)
Lemma revise_true_removes x y d d' :
  revise c x y d = Ok (true, d') ->
  exists m n dx w,
    overlaps c x y = Some (m, n) /\ Dict.get d x = Some dx /\ In w dx /\
    forall dy w', Dict.get d y = Some dy -> In w' dy -> ~ supports m n w w'.
Proof.
  unfold revise. intros H.
  destruct (overlaps c x y) as [[m n]|] eqn:Eo.
  - unfold Dict.getitem in H.
    destruct (Dict.get d x) as [dx|] eqn:Ex; simpl in H; [|discriminate].
    destruct (revise_scan d y m n dx) as [[remove rev]| |] eqn:Es;
      simpl in H; try discriminate.
    inversion H; subst; clear H.
    apply revise_scan_spec in Es. destruct Es as (H1 & _ & _ & H4).
    destruct (H4 eq_refl) as (w & Hw). destruct (H1 w Hw) as [Hin Hno].
    exists m, n, dx, w. auto.
  - simpl in H. unfold Dict.getitem in H.
    destruct (Dict.get d x); simpl in H; discriminate.
Qed.

Lemma revise_consistent_unchanged x y d :
  overlaps_in_range c -> node_consistent d ->
  In x (variables c) -> In y (variables c) ->
  In x (Dict.keys d) -> In y (Dict.keys d) ->
  arc_consistent c d x y ->
  revise c x y d = Ok (false, d).
Proof.
  intros Hrange Hnc Hvx Hvy Hx Hy Hcons.
  destruct (revise_ok c x y d Hrange Hnc Hvx Hvy Hx Hy) as (revised & d1 & H).
  destruct revised.
  - exfalso. apply revise_true_removes in H.
    destruct H as (m & n & dx & w & Ho & Hdx & Hw & Hno).
    destruct (Hcons m n dx Ho Hdx w Hw) as (dy & w' & Hdy & Hw' & Hs).
    apply (Hno dy w'); auto.
  - pose proof (revise_shrinks c x y d false d1 H) as (_ & _ & Hsame).
    rewrite (Hsame eq_refl) in H. exact H.
Qed.

Lemma ac3_loop_fixpoint d :
  overlaps_in_range c -> node_consistent d ->
  (forall v, In v (variables c) -> In v (Dict.keys d)) ->
  forall arcs fuel,
    Forall (neighbor_arc c) arcs ->
    (forall x y, In (x, y) arcs -> arc_consistent c d x y) ->
    List.length arcs < fuel ->
    ac3_loop c fuel false arcs d = Ok (true, d).
Proof.
  intros Hrange Hnc Hkeys.
  induction arcs as [|[x y] arcs IH]; intros fuel Hvalid Hcons Hfuel;
    (destruct fuel as [|fuel]; [simpl in Hfuel; lia|]); simpl;
    [reflexivity|].
  inversion Hvalid as [|? ? [Hx Hy] Hvalid']; subst. simpl in Hx, Hy.
  apply in_neighbors in Hx. destruct Hx as (Hx & _ & _).
  rewrite (revise_consistent_unchanged x y d); auto.
  - simpl. apply IH; auto.
    + intros x0 y0 Hin. apply Hcons. right; exact Hin.
    + simpl in Hfuel. lia.
  - apply Hcons. left; reflexivity.
Qed.

(** X10. Arc consistency is reached in one run: when [ac3] over all
    the arcs in full mode has returned True on a node-consistent
    store, a second run on the store it left returns True and leaves
    that store as it is. *)
Theorem ac3_idempotent d d' :
  symmetric_overlaps c -> overlaps_in_range c ->
  node_consistent d ->
  (forall v, In v (variables c) -> In v (Dict.keys d)) ->
  ac3 c None false d = Ok (true, d') ->
  ac3 c None false d' = Ok (true, d').
Proof.
  intros Hsym Hrange Hnc Hkeys H.
  pose proof H as Hn. rewrite ac3_unfold in Hn.
  apply ac3_loop_narrows in Hn.
  rewrite ac3_unfold in H. apply ac3_loop_sound in H; auto.
  - rewrite ac3_unfold. apply ac3_loop_fixpoint; auto.
    + eapply narrows_node_consistent; eauto.
    + intros v Hv. destruct Hn as [-> _]. auto.
    + apply (engine_arcs_valid c None). exact I.
    + intros x y Hin. destruct (H x y Hin) as [[]|Hc]. exact Hc.
    + unfold ac3_fuel. lia.
  - apply (engine_arcs_valid c None). exact I.
  - intros u v Huv. left. exact Huv.
Qed.

End MoreAc3Facts.

(** ** The two checks on assignments *)

Section CheckFacts.
Variable c : Crossword.

Lemma get_of_in {V} (d : Dict.t V) k v :
  Dict.wf d -> In (k, v) d -> Dict.get d k = Some v.
Proof.
  unfold Dict.wf.
  induction d as [|[k0 v0] d IH]; simpl; [tauto|].
  intros Hnd [Heq|Hin].
  - inversion Heq; subst. destruct (Var_eq_dec k k); congruence.
  - inversion Hnd as [|? ? Hnin Hnd']; subst.
    destruct (Var_eq_dec k k0) as [->|].
    + exfalso. apply Hnin. apply (in_map fst) in Hin. exact Hin.
    + auto.
Qed.

(** X11. On an assignment whose keys are variables of the puzzle,
    [assignment_complete] returns True exactly when the assignment
    gives a word that is not empty to every variable. *)
Theorem assignment_complete_iff a :
  Dict.wf a -> NoDup (variables c) ->
  (assignment_complete c a = true /\
   (forall v, In v (Dict.keys a) -> In v (variables c)))
  <-> complete_assignment c a.
Proof.
  intros Hwf Hnd. split.
  - intros [H Hkeys]. apply assignment_complete_true; auto.
  - intros (_ & Hkeys & Hne). split; [|intros v; apply Hkeys].
    unfold assignment_complete.
    assert (Hlen : List.length a = List.length (variables c)).
    { rewrite <- (length_map fst a). apply Permutation_length.
      apply NoDup_Permutation; auto. }
    rewrite Hlen, Nat.eqb_refl.
    apply forallb_forall. intros w Hw.
    apply in_map_iff in Hw. destruct Hw as ([k w0] & <- & Hin). simpl.
    apply truthy_true. apply (Hne k). apply get_of_in; auto.
Qed.

Lemma check_neighbors_complete a i ai ns :
  (forall n an, In n ns -> Dict.get a n = Some an -> truthy an = true ->
     exists x y, overlaps c n i = Some (x, y) /\ supports x y an ai) ->
  check_neighbors c a i ai ns = Ok true.
Proof.
  induction ns as [|n ns IH]; intros H; simpl; [reflexivity|].
  assert (IH' : check_neighbors c a i ai ns = Ok true).
  { apply IH. intros n0 an Hin. apply H. right; exact Hin. }
  destruct (Dict.get a n) as [an|] eqn:En; [|exact IH'].
  destruct (truthy an) eqn:Et; [|exact IH'].
  destruct (H n an (or_introl eq_refl) En Et) as (x & y & -> & ch & Hx & Hy).
  unfold index. rewrite Hx, Hy. simpl. rewrite Ascii.eqb_refl. exact IH'.
Qed.

Lemma consistent_loop_complete a items :
  forall seen,
    (forall i ai, In (i, ai) items -> truthy ai = true ->
       String.length ai = length i /\ ~ In ai seen /\
       check_neighbors c a i ai (neighbors c i) = Ok true) ->
    NoDup (truthy_values items) ->
    consistent_loop c a items seen = Ok true.
Proof.
  induction items as [|[i0 ai0] items IH]; intros seen Hall Hnd; simpl;
    [reflexivity|].
  unfold truthy_values in Hnd. simpl in Hnd.
  destruct (truthy ai0) eqn:Et.
  - destruct (Hall i0 ai0 (or_introl eq_refl) Et) as (Hlen & Hseen & Hc).
    apply Nat.eqb_eq in Hlen. rewrite Hlen. simpl.
    destruct (mem ai0 seen) eqn:Em.
    { apply mem_In in Em. contradiction. }
    rewrite Hc. simpl. inversion Hnd as [|? ? Hfresh Hnd']; subst.
    apply IH; auto.
    intros i ai Hin Hta.
    destruct (Hall i ai (or_intror Hin) Hta) as (Hl & Hs & Hcn).
    split; auto. split; auto.
    intros Hin'. apply in_app_iff in Hin'. destruct Hin' as [Hin'|[<-|[]]].
    + contradiction.
    + apply Hfresh. apply filter_In. split; auto.
      apply (in_map snd) in Hin. exact Hin.
  - apply IH; auto. intros i ai Hin. apply Hall. right; exact Hin.
Qed.

Lemma nodup_truthy_values (items : list (Var * word)) :
  NoDup (map fst items) ->
  (forall k1 k2 w, In (k1, w) items -> In (k2, w) items ->
                   truthy w = true -> k1 = k2) ->
  NoDup (truthy_values items).
Proof.
  unfold truthy_values.
  induction items as [|[k w] items IH]; simpl; intros Hk Hu; [constructor|].
  inversion Hk as [|? ? Hnin Hk']; subst.
  assert (Hrest : NoDup (filter truthy (map snd items))).
  { apply IH; auto. intros k1 k2 w0 H1 H2. apply Hu; right; auto. }
  destruct (truthy w) eqn:Et; [|exact Hrest].
  constructor; [|exact Hrest].
  intros Hin. apply filter_In in Hin. destruct Hin as [Hin _].
  apply in_map_iff in Hin. destruct Hin as ([k' w'] & Heq & Hin).
  simpl in Heq. subst w'.
  assert (k = k') by (apply (Hu k k' w); [left | right|]; auto).
  subst k'. apply Hnin. apply (in_map fst) in Hin. exact Hin.
Qed.

(** X12. [consistent] returns True exactly on the assignments in
    which the length of every word is the length of its variable, no
    word is given to two variables, and assigned neighbors have the
    same character where they cross; on those it raises no exception.
    Entries whose word is empty are ignored on both sides. *)
Theorem consistent_iff a :
  Dict.wf a ->
  consistent c a = Ok true <-> consistent_assignment c a.
Proof.
  intros Hwf. split; [apply consistent_true; exact Hwf|].
  intros (Hlen & Huniq & Hagree). unfold consistent.
  apply consistent_loop_complete.
  - intros i ai Hin Ht.
    pose proof (get_of_in a i ai Hwf Hin) as Hget.
    apply truthy_true in Ht.
    split; [apply Hlen; auto|]. split; [intros []|].
    apply check_neighbors_complete. intros n an Hn Han Htn.
    apply truthy_true in Htn.
    pose proof Hn as Hn'. apply in_neighbors in Hn'.
    destruct Hn' as (_ & _ & Hov).
    destruct (overlaps c n i) as [[x y]|] eqn:Eo; [|congruence].
    exists x, y. split; [reflexivity|].
    apply (Hagree i n ai an x y); auto.
  - apply nodup_truthy_values; [exact Hwf|].
    intros k1 k2 w H1 H2 Ht. apply (Huniq k1 k2 w).
    + apply get_of_in; auto.
    + apply get_of_in; auto.
    + apply truthy_true; auto.
Qed.

End CheckFacts.

(** ** More on variable selection *)

Section MoreSelectFacts.
Variable c : Crossword.

(** X13. [select_unassigned_variable] on a store that has a domain
    for every variable raises no exception; it returns None only when
    every variable is assigned a word that is not empty, and
    otherwise a variable of the puzzle that is not assigned and whose
    domain is as small as that of any variable not assigned. *)
Theorem select_unassigned_variable_spec a d :
  (forall v, In v (variables c) -> In v (Dict.keys d)) ->
  exists r, select_unassigned_variable c a d = Ok r /\
    match r with
    | None => forall u, In u (variables c) -> skipped a u = true
    | Some v =>
        In v (variables c) /\ skipped a v = false /\
        exists dv, Dict.get d v = Some dv /\
          forall u du, In u (variables c) -> skipped a u = false ->
                       Dict.get d u = Some du ->
                       List.length dv <= List.length du
    end.
Proof.
  intros Hkeys.
  destruct (select_loop_total c a d (variables c) Hkeys None None 0)
    as (r & Hr).
  fold (select_unassigned_variable c a d) in Hr.
  exists r. split; [exact Hr|]. destruct r as [v|].
  - apply select_minimum. exact Hr.
  - apply select_none with (d := d). exact Hr.
Qed.

Lemma last_cons {A} (l : list A) :
  forall x d, last (x :: l) d = last l x.
Proof.
  induction l as [|y l IH]; intros x d; [reflexivity|].
  change (last (x :: y :: l) d) with (last (y :: l) d).
  rewrite (IH y d), (IH y x). reflexivity.
Qed.

Lemma select_outcome_skip a d i vars length_ chosen ln v :
  skipped a i = true ->
  select_outcome c a d vars length_ chosen ln v ->
  select_outcome c a d (i :: vars) length_ chosen ln v.
Proof.
  intros Esk [(m & ch0 & Hl & Hc & Hmin & Hv)|
              (pre & f & post & Hsplit & Hf & Hlt & Hpre & Hpost & Hv)].
  - left. exists m, ch0. split; auto. split; auto. split.
    + intros u [<-|Hu] Hs; [congruence | auto].
    + simpl. unfold replaces at 1. rewrite Esk. exact Hv.
  - right. exists (i :: pre), f, post. subst vars.
    split; [reflexivity|]. split; auto. split; auto. split; auto.
    intros u [<-|Hu] Hs; [congruence | auto].
Qed.

(** A variable that is passed over although it is not assigned: its
    domain is not smaller, and it does not replace the choice. *)
Lemma select_outcome_pass a d i vars m chosen ln v :
  m <= domain_size d i ->
  replaces c a d m ln i = false ->
  select_outcome c a d vars (Some m) chosen ln v ->
  select_outcome c a d (i :: vars) (Some m) chosen ln v.
Proof.
  intros Hle Hrep [(m0 & ch0 & Hl & Hc & Hmin & Hv)|
                   (pre & f & post & Hsplit & Hf & Hlt & Hpre & Hpost & Hv)].
  - inversion Hl; subst m0. left. exists m, ch0.
    split; auto. split; auto. split.
    + intros u [<-|Hu] Hs; auto.
    + simpl. rewrite Hrep. exact Hv.
  - right. exists (i :: pre), f, post. subst vars.
    split; [reflexivity|]. split; auto. split; auto. split; auto.
    intros u [<-|Hu] Hs; [|auto].
    specialize (Hlt m eq_refl). lia.
Qed.

(** A variable that replaces the choice on a tie. *)
Lemma select_outcome_replace a d i vars m ch0 ln v :
  skipped a i = false -> domain_size d i = m ->
  replaces c a d m ln i = true ->
  select_outcome c a d vars (Some m) (Some i) ln v ->
  select_outcome c a d (i :: vars) (Some m) (Some ch0) ln v.
Proof.
  intros Hs Hsize Hrep [(m0 & ch1 & Hl & Hc & Hmin & Hv)|
                        (pre & f & post & Hsplit & Hf & Hlt & Hpre & Hpost & Hv)].
  - inversion Hl; subst m0. inversion Hc; subst ch1. left. exists m, ch0.
    split; auto. split; auto. split.
    + intros u [<-|Hu] Hsu; [lia | auto].
    + simpl. rewrite Hrep. rewrite last_cons. exact Hv.
  - right. exists (i :: pre), f, post. subst vars.
    split; [reflexivity|]. split; auto. split; auto. split; auto.
    intros u [<-|Hu] Hsu; [|auto].
    specialize (Hlt m eq_refl). lia.
Qed.

(** A variable with a domain smaller than any seen so far. *)
Lemma select_outcome_smaller a d i vars length_ chosen ln v :
  skipped a i = false ->
  (forall m', length_ = Some m' -> domain_size d i < m') ->
  select_outcome c a d vars (Some (domain_size d i)) (Some i) (degree c i) v ->
  select_outcome c a d (i :: vars) length_ chosen ln v.
Proof.
  intros Hs Hlt [(m0 & ch1 & Hl & Hc & Hmin & Hv)|
                 (pre & f & post & Hsplit & Hf & Hlt' & Hpre & Hpost & Hv)].
  - inversion Hl; subst m0. inversion Hc; subst ch1.
    right. exists [], i, vars.
    split; [reflexivity|]. split; auto. split; auto. split; [intros u []|].
    split; auto.
  - right. exists (i :: pre), f, post. subst vars.
    split; [reflexivity|]. split; auto.
    specialize (Hlt' _ eq_refl). split.
    + intros m' E. specialize (Hlt m' E). lia.
    + split; auto. intros u [<-|Hu] Hsu; [lia | auto].
Qed.

Lemma select_loop_exact a d v vars :
  forall length_ chosen ln,
    select_loop c a d vars length_ chosen ln = Ok (Some v) ->
    (length_ = None <-> chosen = None) ->
    select_outcome c a d vars length_ chosen ln v.
Proof.
  induction vars as [|i vars IH]; intros length_ chosen ln H Hst; simpl in H.
  - inversion H; subst. left. destruct length_ as [m|].
    + exists m, v. repeat split; auto. intros u [].
    + destruct Hst as [Hst _]. specialize (Hst eq_refl). discriminate.
  - fold (skipped a i) in H. destruct (skipped a i) eqn:Esk.
    + apply select_outcome_skip; auto.
    + unfold Dict.getitem in H.
      destruct (Dict.get d i) as [di|] eqn:Ei; simpl in H; [|discriminate].
      assert (Hsize : domain_size d i = List.length di)
        by (unfold domain_size; rewrite Ei; reflexivity).
      fold (degree c i) in H. rewrite <- Hsize in H.
      assert (Hnew : Some (domain_size d i) = None <-> Some i = None)
        by (split; discriminate).
      destruct length_ as [m|].
      * destruct chosen as [ch0|];
          [|destruct Hst as [_ Hst]; specialize (Hst eq_refl); discriminate].
        destruct (domain_size d i <? m) eqn:Elt.
        -- apply Nat.ltb_lt in Elt. apply select_outcome_smaller; auto.
           intros m' E. inversion E; subst. exact Elt.
        -- apply Nat.ltb_ge in Elt.
           destruct (domain_size d i =? m) eqn:Eeq.
           ++ apply Nat.eqb_eq in Eeq.
              destruct (ln <? degree c i) eqn:Edeg.
              ** apply select_outcome_replace; auto.
                 --- unfold replaces. rewrite Esk, Eeq, Nat.eqb_refl, Edeg.
                     reflexivity.
                 --- apply IH; auto. split; discriminate.
              ** apply select_outcome_pass; auto.
                 unfold replaces. rewrite Edeg, andb_false_r. reflexivity.
           ++ apply select_outcome_pass; auto.
              unfold replaces. rewrite Eeq, andb_false_r. reflexivity.
      * apply select_outcome_smaller; auto. discriminate.
Qed.

(** X14. Which variable [select_unassigned_variable] returns. Let
    [f] be the first variable, in the order of iteration, that is not
    assigned and has the smallest domain. The variable returned is the
    last variable after [f] that is not assigned, has a domain of the
    same size and has more neighbors than [f], or [f] when there is
    none: the degrees are compared with that of [f], not with that of
    the variable chosen last. *)
Theorem select_unassigned_variable_exact a d v :
  select_unassigned_variable c a d = Ok (Some v) ->
  exists pre f post,
    variables c = pre ++ f :: post /\
    skipped a f = false /\
    (forall u, In u pre -> skipped a u = false ->
               domain_size d f < domain_size d u) /\
    (forall u, In u post -> skipped a u = false ->
               domain_size d f <= domain_size d u) /\
    v = last (filter (replaces c a d (domain_size d f) (degree c f)) post) f.
Proof.
  intros H. unfold select_unassigned_variable in H.
  apply select_loop_exact in H; [|tauto].
  destruct H as [(m & ch0 & Hl & _)|
                 (pre & f & post & Hsplit & Hf & _ & Hpre & Hpost & Hv)].
  - discriminate.
  - exists pre, f, post. auto.
Qed.

End MoreSelectFacts.

(** ** More on value ordering *)

Section MoreOrderFacts.
Variable c : Crossword.

Lemma probe_loop_keeps var a ns saved cands :
  forall d domain values domain' values' d',
    probe_loop c var a ns saved cands d domain values
    = Ok (domain', values', d') ->
    forall x, In x domain -> In x domain'.
Proof.
  induction cands as [|i cands IH]; intros d domain values domain' values' d'
    H x Hx; simpl in H.
  - inversion H; subst. exact Hx.
  - destruct (probe c var ns i d) as [[ok d1]| |]; simpl in H;
      try discriminate.
    destruct ok.
    + destruct (eliminated a saved d1 ns 0%Z) as [v| |]; simpl in H;
        try discriminate.
      eapply IH; [exact H|]. apply in_app_iff. left; exact Hx.
    + eapply IH; eauto.
Qed.

(** X15. A word of the domain is offered by [order_domain_values]
    exactly when its probe returns True, the probe being run on the
    store left by the probes of the words before it. *)
Theorem order_domain_values_offers var a d pre w post l d' :
  Dict.get d var = Some (pre ++ w :: post) ->
  ~ In w pre -> ~ In w post ->
  order_domain_values c var a d = Ok (l, d') ->
  exists d1 b d2,
    after_probes c var (neighbors c var) pre d = Ok d1 /\
    probe c var (neighbors c var) w d1 = Ok (b, d2) /\
    (In w l <-> b = true).
Proof.
  intros Ev Hpre Hpost H.
  unfold order_domain_values in H. unfold Dict.getitem in H at 1.
  rewrite Ev in H. simpl in H.
  destruct (save_neighbors d (neighbors c var) []) as [saved| |];
    simpl in H; try discriminate.
  destruct (probe_loop c var a (neighbors c var) saved
                       (pre ++ w :: post) d [] [])
    as [[[domain values] dl]| |] eqn:Ep; simpl in H; try discriminate.
  destruct (restore_neighbors saved (neighbors c var) dl) as [dr| |];
    simpl in H; try discriminate.
  inversion H; subst l d'; clear H.
  pose proof (probe_loop_domain _ _ _ _ _ _ _ _ _ _ _ _ Ep eq_refl)
    as [Hlen _].
  pose proof (offered_perm values domain Hlen) as Hperm.
  apply probe_loop_app in Ep.
  destruct Ep as (d1 & domain1 & values1 & Hp1 & Ha & Hp2).
  pose proof (probe_loop_domain _ _ _ _ _ _ _ _ _ _ _ _ Hp1 eq_refl)
    as [Hlen1 Hin1].
  simpl in Hp2.
  destruct (probe c var (neighbors c var) w d1) as [[b d2]| |] eqn:Eprobe;
    simpl in Hp2; try discriminate.
  exists d1, b, d2. split; [exact Ha|]. split; [exact Eprobe|].
  destruct b.
  - split; [reflexivity|]. intros _.
    destruct (eliminated a saved d2 (neighbors c var) 0%Z) as [v| |];
      simpl in Hp2; try discriminate.
    apply (Permutation_in _ (Permutation_sym Hperm)).
    eapply probe_loop_keeps; [exact Hp2|].
    apply in_app_iff. right. left. reflexivity.
  - split; [|discriminate]. intros Hw. exfalso.
    apply (Permutation_in _ Hperm) in Hw.
    pose proof (probe_loop_domain _ _ _ _ _ _ _ _ _ _ _ _ Hp2 Hlen1)
      as [_ Hin2].
    destruct (Hin2 w Hw) as [Hd|Hc]; [|contradiction].
    destruct (Hin1 w Hd) as [[]|Hc]. contradiction.
Qed.










End MoreOrderFacts.

(** ** More on the search *)

Section MoreSearchFacts.
Variable c : Crossword.

(** The store that [order_domain_values] leaves has the domains of
    the store it found. *)
Lemma order_domain_values_lookup var a d l d' :
  order_domain_values c var a d = Ok (l, d') ->
  forall k, Dict.get d' k = Dict.get d k.
Proof.
  intros H. unfold order_domain_values in H.
  unfold Dict.getitem in H at 1.
  destruct (Dict.get d var) as [orig|] eqn:Ev; simpl in H; [|discriminate].
  destruct (save_neighbors d (neighbors c var) []) as [saved| |] eqn:Es;
    simpl in H; try discriminate.
  destruct (probe_loop c var a (neighbors c var) saved orig d [] [])
    as [[[domain values] d1]| |] eqn:Ep; simpl in H; try discriminate.
  destruct (restore_neighbors saved (neighbors c var) d1) as [d2| |] eqn:Er;
    simpl in H; try discriminate.
  inversion H; subst; clear H.
  pose proof (DictFacts.get_some_in_keys _ _ _ Ev) as Hvar.
  apply probe_loop_frame in Ep; auto. destruct Ep as [Hk1 Hg1].
  pose proof (save_neighbors_spec _ _ _ _ Es) as Hsaved.
  apply restore_neighbors_spec in Er.
  2:{ intros k Hk. rewrite Hk1. apply Hsaved. exact Hk. }
  destruct Er as [Hk2 Hg2].
  intros k. destruct (Var_eq_dec var k) as [<-|Hne].
  - rewrite DictFacts.get_set_eq. symmetry. exact Ev.
  - rewrite DictFacts.get_set_ne by auto.
    destruct (in_dec Var_eq_dec k (neighbors c var)) as [Hin|Hnin].
    + destruct (Hg2 k) as [-> _]; auto.
      destruct (Hsaved k) as [Hs _]. apply Hs; auto.
    + destruct (Hg2 k) as [_ ->]; auto.
Qed.

(** The words offered are words of the domain. *)
Lemma order_domain_values_incl var a d l d' dx :
  order_domain_values c var a d = Ok (l, d') ->
  Dict.get d var = Some dx ->
  forall x, In x l -> In x dx.
Proof.
  intros H Ev. unfold order_domain_values in H.
  unfold Dict.getitem in H at 1. rewrite Ev in H. simpl in H.
  destruct (save_neighbors d (neighbors c var) []) as [saved| |];
    simpl in H; try discriminate.
  destruct (probe_loop c var a (neighbors c var) saved dx d [] [])
    as [[[domain values] d1]| |] eqn:Ep; simpl in H; try discriminate.
  destruct (restore_neighbors saved (neighbors c var) d1) as [d2| |];
    simpl in H; try discriminate.
  inversion H; subst; clear H.
  pose proof (probe_loop_domain _ _ _ _ _ _ _ _ _ _ _ _ Ep eq_refl)
    as [Hlen Hall].
  intros x Hx. apply (Permutation_in _ (offered_perm values domain Hlen)) in Hx.
  destruct (Hall x Hx) as [[]|Hc]. exact Hc.
Qed.

Lemma order_domain_values_reads var a d l d' :
  order_domain_values c var a d = Ok (l, d') ->
  exists dx, Dict.get d var = Some dx.
Proof.
  unfold order_domain_values, Dict.getitem.
  destruct (Dict.get d var) as [dx|]; simpl; [eauto | discriminate].
Qed.

(** *** Rolling back *)

Lemma backtrack_loop_none (rec : assignment -> store -> outcome)
      depth var assignment1 values :
  forall a d d' t,
    backtrack_loop c rec depth var assignment1 values a d
    = Ok (RNone, d', t) ->
    d' = d.
Proof.
  induction values as [|value values IH]; intros a d d' t H; simpl in H.
  - inversion H; reflexivity.
  - destruct (consistent c (Dict.set a var value)) as [ok| |];
      simpl in H; try discriminate.
    destruct ok.
    + destruct (ac3 c _ false (Dict.set d var [value])) as [[ok3 d2]| |];
        simpl in H; try discriminate.
      destruct ok3; simpl in H; [|discriminate].
      destruct (rec (Dict.set a var value) d2) as [[[result d3] t1]| |];
        simpl in H; try discriminate.
      destruct (ret_truthy result) eqn:Et.
      * inversion H; subst. discriminate.
      * destruct (backtrack_loop c rec depth var assignment1 values
                                 assignment1 d) as [[[r d4] t2]| |] eqn:El;
          simpl in H; try discriminate.
        inversion H; subst. eapply IH; eauto.
    + destruct (backtrack_loop c rec depth var assignment1 values
                               assignment1 d) as [[[r d4] t2]| |] eqn:El;
        simpl in H; try discriminate.
      inversion H; subst. eapply IH; eauto.
Qed.

(** X17. A call of [backtrack] that returns None has rolled the
    Domain Store back: the store it leaves is the store it was called
    on, whatever was tried in between. *)
Theorem backtrack_none_restores fuel depth a d d' t :
  Dict.wf d ->
  backtrack c fuel depth a d = Ok (RNone, d', t) ->
  d' = d.
Proof.
  intros Hwf H. destruct fuel as [|fuel]; simpl in H; [discriminate|].
  destruct (assignment_complete c a); [discriminate|].
  destruct (select_unassigned_variable c a d) as [[var|]| |];
    simpl in H; try discriminate.
  destruct (order_domain_values c var a d) as [[values d0]| |] eqn:Eo;
    simpl in H; try discriminate.
  destruct (backtrack_loop c (backtrack c fuel (S depth)) depth var a
                           values a d0) as [[[r d1] t1]| |] eqn:El;
    simpl in H; try discriminate.
  inversion H; subst.
  apply backtrack_loop_none in El. subst d'.
  eapply order_domain_values_restores; eauto.
Qed.

(** *** The store at the end of a successful search *)

Lemma committed_set a d var value :
  committed a d ->
  committed (Dict.set a var value) (Dict.set d var [value]).
Proof.
  intros H v w Hget. destruct (Var_eq_dec var v) as [<-|Hne].
  - rewrite DictFacts.get_set_eq in Hget. inversion Hget; subst.
    exists [w]. rewrite DictFacts.get_set_eq.
    split; [reflexivity|]. split; [discriminate|].
    intros x [<-|[]]. reflexivity.
  - rewrite DictFacts.get_set_ne in Hget by auto.
    rewrite DictFacts.get_set_ne by auto. apply H. exact Hget.
Qed.

Lemma committed_ac3 a arcs dom d d' :
  committed a d -> ac3 c arcs dom d = Ok (true, d') -> committed a d'.
Proof.
  intros H Hac v w Hget.
  destruct (H v w Hget) as (dv & Hdv & Hne & Hall).
  rewrite ac3_unfold in Hac.
  pose proof (ac3_loop_result c _ _ _ _ _ _ Hac) as [Ht _].
  destruct (Ht eq_refl v dv Hdv Hne) as (dv' & Hdv' & Hne').
  apply ac3_loop_narrows in Hac. destruct Hac as [_ Hsub].
  destruct (Hsub v dv' Hdv') as (dv0 & Hdv0 & Hincl).
  assert (dv0 = dv) by congruence. subst dv0.
  exists dv'. split; auto.
Qed.

Lemma committed_lookup a d d' :
  (forall k, Dict.get d' k = Dict.get d k) -> committed a d -> committed a d'.
Proof.
  intros Heq H v w Hget. rewrite Heq. apply H. exact Hget.
Qed.

Lemma backtrack_loop_committed (rec : assignment -> store -> outcome)
      depth var assignment1 :
  (forall a d a' d' t,
      committed a d -> rec a d = Ok (RAssignment a', d', t) ->
      committed a' d') ->
  forall values a d a' d' t,
    committed assignment1 d -> committed a d ->
    backtrack_loop c rec depth var assignment1 values a d
    = Ok (RAssignment a', d', t) ->
    committed a' d'.
Proof.
  intros Hrec.
  induction values as [|value values IH]; intros a d a' d' t H1 Ha H;
    simpl in H; [discriminate|].
  destruct (consistent c (Dict.set a var value)) as [ok| |];
    simpl in H; try discriminate.
  destruct ok.
  - destruct (ac3 c _ false (Dict.set d var [value])) as [[ok3 d2]| |] eqn:Ea;
      simpl in H; try discriminate.
    destruct ok3; simpl in H; [|discriminate].
    destruct (rec (Dict.set a var value) d2) as [[[result d3] t1]| |] eqn:Er;
      simpl in H; try discriminate.
    destruct (ret_truthy result).
    + inversion H; subst. eapply Hrec; [|exact Er].
      eapply committed_ac3; [|exact Ea]. apply committed_set. exact Ha.
    + destruct (backtrack_loop c rec depth var assignment1 values
                               assignment1 d) as [[[r d4] t2]| |] eqn:El;
        simpl in H; try discriminate.
      inversion H; subst. eapply IH; [| |exact El]; auto.
  - destruct (backtrack_loop c rec depth var assignment1 values
                             assignment1 d) as [[[r d4] t2]| |] eqn:El;
      simpl in H; try discriminate.
    inversion H; subst. eapply IH; [| |exact El]; auto.
Qed.

Lemma backtrack_committed fuel :
  forall depth a d a' d' t,
    committed a d ->
    backtrack c fuel depth a d = Ok (RAssignment a', d', t) ->
    committed a' d'.
Proof.
  induction fuel as [|fuel IH]; intros depth a d a' d' t Ha H; simpl in H;
    [discriminate|].
  destruct (assignment_complete c a).
  - inversion H; subst. exact Ha.
  - destruct (select_unassigned_variable c a d) as [[var|]| |];
      simpl in H; try discriminate.
    destruct (order_domain_values c var a d) as [[values d0]| |] eqn:Eo;
      simpl in H; try discriminate.
    destruct (backtrack_loop c (backtrack c fuel (S depth)) depth var a
                             values a d0) as [[[r d1] t1]| |] eqn:El;
      simpl in H; try discriminate.
    inversion H; subst.
    assert (Ha0 : committed a d0).
    { eapply committed_lookup; [|exact Ha].
      eapply order_domain_values_lookup; eauto. }
    eapply backtrack_loop_committed; [| | |exact El]; auto.
    intros a0 d2 a2 d3 t2. apply IH.
Qed.

Lemma committed_empty d : committed [] d.
Proof. intros v w H. discriminate. Qed.

(** X18. When [solve] returns a mapping, the Domain Store it leaves
    agrees with it: the domain of every variable holds the word
    assigned to the variable and nothing else. *)
Theorem solve_store_committed fuel d a d' t :
  solve c fuel d = Ok (RAssignment a, d', t) ->
  forall v w, Dict.get a v = Some w ->
  exists dv, Dict.get d' v = Some dv /\ dv <> [] /\
             forall x, In x dv -> x = w.
Proof.
  unfold solve. intros H.
  destruct (ac3 c None false (enforce_node_consistency d))
    as [[b d2]| |]; simpl in H; try discriminate.
  apply backtrack_committed in H; [exact H | apply committed_empty].
Qed.

(** *** Where the words of a solution come from *)

Lemma within_refl d : within d d.
Proof. intros v dv H. exists dv. auto. Qed.

Lemma within_trans d d1 d2 : within d d1 -> within d1 d2 -> within d d2.
Proof.
  intros H1 H2 v dv2 Hget. destruct (H2 v dv2 Hget) as (dv1 & Hg1 & Hi2).
  destruct (H1 v dv1 Hg1) as (dv & Hg & Hi1). exists dv. auto.
Qed.

Lemma within_lookup d d' :
  (forall k, Dict.get d' k = Dict.get d k) -> within d d'.
Proof. intros Heq v dv H. rewrite Heq in H. exists dv. auto. Qed.

Lemma within_ac3 arcs dom d b d' :
  ac3 c arcs dom d = Ok (b, d') -> within d d'.
Proof.
  intros H. rewrite ac3_unfold in H. apply ac3_loop_narrows in H.
  destruct H as [_ H]. exact H.
Qed.

Lemma within_set (d : store) var dx value :
  Dict.get d var = Some dx -> In value dx ->
  within d (Dict.set d var [value]).
Proof.
  intros Hget Hin v dv'. destruct (Var_eq_dec var v) as [<-|Hne].
  - rewrite DictFacts.get_set_eq. intros E. inversion E; subst.
    exists dx. split; auto. intros w [<-|[]]. exact Hin.
  - rewrite DictFacts.get_set_ne by auto. intros E. exists dv'. auto.
Qed.

Lemma within_enforce d : within d (enforce_node_consistency d).
Proof.
  intros v dv' H. rewrite get_enforce in H.
  destruct (Dict.get d v) as [dv|]; simpl in H; [|discriminate].
  inversion H; subst. exists dv. split; auto.
  intros w Hw. apply filter_In in Hw. tauto.
Qed.

Lemma backtrack_loop_within (rec : assignment -> store -> outcome)
      depth var assignment1 dx :
  (forall a d a' d' t,
      rec a d = Ok (RAssignment a', d', t) -> within d d') ->
  forall values a d a' d' t,
    Dict.get d var = Some dx ->
    (forall x, In x values -> In x dx) ->
    backtrack_loop c rec depth var assignment1 values a d
    = Ok (RAssignment a', d', t) ->
    within d d'.
Proof.
  intros Hrec.
  induction values as [|value values IH]; intros a d a' d' t Hdx Hincl H;
    simpl in H; [discriminate|].
  assert (Hincl' : forall x, In x values -> In x dx)
    by (intros x Hx; apply Hincl; right; exact Hx).
  destruct (consistent c (Dict.set a var value)) as [ok| |];
    simpl in H; try discriminate.
  destruct ok.
  - destruct (ac3 c _ false (Dict.set d var [value])) as [[ok3 d2]| |] eqn:Ea;
      simpl in H; try discriminate.
    destruct ok3; simpl in H; [|discriminate].
    destruct (rec (Dict.set a var value) d2) as [[[result d3] t1]| |] eqn:Er;
      simpl in H; try discriminate.
    destruct (ret_truthy result).
    + inversion H; subst.
      apply within_trans with (d1 := Dict.set d var [value]).
      * apply within_set with (dx := dx); auto. apply Hincl. left; auto.
      * apply within_trans with (d1 := d2).
        -- eapply within_ac3; eauto.
        -- eapply Hrec; eauto.
    + destruct (backtrack_loop c rec depth var assignment1 values
                               assignment1 d) as [[[r d4] t2]| |] eqn:El;
        simpl in H; try discriminate.
      inversion H; subst. eapply IH; eauto.
  - destruct (backtrack_loop c rec depth var assignment1 values
                             assignment1 d) as [[[r d4] t2]| |] eqn:El;
      simpl in H; try discriminate.
    inversion H; subst. eapply IH; eauto.
Qed.

Lemma backtrack_within fuel :
  forall depth a d a' d' t,
    backtrack c fuel depth a d = Ok (RAssignment a', d', t) -> within d d'.
Proof.
  induction fuel as [|fuel IH]; intros depth a d a' d' t H; simpl in H;
    [discriminate|].
  destruct (assignment_complete c a).
  - inversion H; subst. apply within_refl.
  - destruct (select_unassigned_variable c a d) as [[var|]| |];
      simpl in H; try discriminate.
    destruct (order_domain_values c var a d) as [[values d0]| |] eqn:Eo;
      simpl in H; try discriminate.
    destruct (backtrack_loop c (backtrack c fuel (S depth)) depth var a
                             values a d0) as [[[r d1] t1]| |] eqn:El;
      simpl in H; try discriminate.
    inversion H; subst.
    pose proof (order_domain_values_lookup _ _ _ _ _ Eo) as Hlook.
    destruct (order_domain_values_reads _ _ _ _ _ Eo) as (dx & Hdx).
    apply within_trans with (d1 := d0); [apply within_lookup; exact Hlook|].
    apply backtrack_loop_within with (dx := dx) in El; auto.
    + intros a0 d2 a2 d3 t2. apply IH.
    + rewrite Hlook. exact Hdx.
    + eapply order_domain_values_incl; eauto.
Qed.

Lemma get_init_words v dv :
  Dict.get (init_domains c) v = Some dv -> dv = words c.
Proof.
  unfold init_domains. induction (variables c) as [|k vars IH]; simpl;
    [discriminate|].
  destruct (Var_eq_dec v k); [congruence | exact IH].
Qed.

(** X19. The words of a mapping that [solve] returns are words of
    the vocabulary, each with the length of its variable. *)
Theorem solve_uses_vocabulary fuel a d t :
  run c fuel = Ok (RAssignment a, d, t) ->
  forall v w, Dict.get a v = Some w ->
              In w (words c) /\ String.length w = length v.
Proof.
  unfold run. intros H v w Hget.
  unfold solve in H.
  destruct (ac3 c None false (enforce_node_consistency (init_domains c)))
    as [[b d2]| |] eqn:Ea; simpl in H; try discriminate.
  pose proof (backtrack_committed _ _ _ _ _ _ _ (committed_empty d2) H)
    as Hcom.
  destruct (Hcom v w Hget) as (dv & Hdv & Hne & Hall).
  assert (Hw : In w dv).
  { destruct dv as [|x dv]; [congruence|].
    rewrite <- (Hall x (or_introl eq_refl)). left; reflexivity. }
  pose proof (within_trans _ _ _
                (within_trans _ _ _
                   (within_enforce (init_domains c))
                   (within_ac3 _ _ _ _ _ Ea))
                (backtrack_within _ _ _ _ _ _ _ H)) as Hsub.
  pose proof (within_trans _ _ _ (within_ac3 _ _ _ _ _ Ea)
                (backtrack_within _ _ _ _ _ _ _ H)) as Hsub1.
  destruct (Hsub v dv Hdv) as (dv0 & Hdv0 & Hincl).
  apply get_init_words in Hdv0. subst dv0. split; [auto|].
  destruct (Hsub1 v dv Hdv) as (dv1 & Hdv1 & Hincl1).
  apply (enforce_node_consistent (init_domains c) v dv1 w); auto.
Qed.

(** *** The search returns *)

Lemma check_neighbors_returns a i ai ns :
  overlaps_in_range c -> fits c a ->
  In i (variables c) -> String.length ai = length i ->
  (forall n, In n ns -> In n (neighbors c i)) ->
  exists b, check_neighbors c a i ai ns = Ok b.
Proof.
  intros Hrange (Hwf & Hkeys & Hlen) Hi Hai.
  induction ns as [|n ns IH]; intros Hns; simpl; [eauto|].
  assert (IH' : exists b, check_neighbors c a i ai ns = Ok b)
    by (apply IH; intros n0 Hn0; apply Hns; right; exact Hn0).
  destruct (Dict.get a n) as [an|] eqn:En; [|exact IH'].
  destruct (truthy an); [|exact IH'].
  pose proof (Hns n (or_introl eq_refl)) as Hn. apply in_neighbors in Hn.
  destruct Hn as (Hnv & _ & Hov).
  destruct (overlaps c n i) as [[x y]|] eqn:Eo; [|congruence].
  destruct (Hrange n i x y Hnv Hi Eo) as [Hx Hy].
  rewrite <- (Hlen n an En) in Hx. rewrite <- Hai in Hy.
  unfold index.
  destruct (get_in_range an x Hx) as (p & ->).
  destruct (get_in_range ai y Hy) as (q & ->). simpl.
  destruct (Ascii.eqb p q); [exact IH' | eauto].
Qed.

Lemma consistent_loop_returns a items :
  overlaps_in_range c -> fits c a ->
  (forall i ai, In (i, ai) items -> In i (variables c)) ->
  forall seen, exists b, consistent_loop c a items seen = Ok b.
Proof.
  intros Hrange Hfits.
  induction items as [|[i ai] items IH]; intros Hin seen; simpl; [eauto|].
  assert (IH' : forall seen0, exists b,
              consistent_loop c a items seen0 = Ok b).
  { apply IH. intros i0 ai0 H0. apply (Hin i0 ai0). right; exact H0. }
  destruct (truthy ai); [|apply IH'].
  destruct (String.length ai =? length i) eqn:El; simpl; [|eauto].
  apply Nat.eqb_eq in El.
  destruct (mem ai seen); [eauto|].
  destruct (check_neighbors_returns a i ai (neighbors c i)) as (b & ->);
    auto.
  { apply (Hin i ai). left; reflexivity. }
  simpl. destruct b; [apply IH' | eauto].
Qed.

(** On an assignment of the search the check raises no exception. *)
Lemma consistent_returns a :
  overlaps_in_range c -> fits c a -> exists b, consistent c a = Ok b.
Proof.
  intros Hrange Hfits. unfold consistent.
  apply consistent_loop_returns; auto.
  intros i ai Hin. destruct Hfits as (_ & Hkeys & _). apply Hkeys.
  apply (in_map fst) in Hin. exact Hin.
Qed.

(** X20. [consistent] raises no exception on an assignment of
    variables of the puzzle to words of their lengths, the overlap
    indices being within the slots: it returns True or False. *)
Theorem consistent_no_exception a :
  overlaps_in_range c -> fits c a ->
  consistent c a = Ok true \/ consistent c a = Ok false.
Proof.
  intros Hrange Hfits.
  destruct (consistent_returns a Hrange Hfits) as ([|] & ->); auto.
Qed.

Lemma fits_set a var value :
  fits c a -> In var (variables c) -> String.length value = length var ->
  fits c (Dict.set a var value).
Proof.
  intros (Hwf & Hkeys & Hlen) Hvar Hvalue. split; [|split].
  - apply DictFacts.wf_set; exact Hwf.
  - intros v Hv. apply DictFacts.in_keys_set in Hv.
    destruct Hv as [->|Hv]; auto.
  - intros v w Hget. destruct (Var_eq_dec var v) as [<-|Hne].
    + rewrite DictFacts.get_set_eq in Hget. inversion Hget; subst. exact Hvalue.
    + rewrite DictFacts.get_set_ne in Hget by auto. eauto.
Qed.

Lemma length_set_pos {V} (a : Dict.t V) k v :
  (List.length (Dict.set a k v) =? 0) = false.
Proof.
  destruct a as [|[k0 v0] a]; simpl; [|destruct (Var_eq_dec k k0)];
    reflexivity.
Qed.

Lemma skipped_set_same a var value :
  truthy value = true -> skipped (Dict.set a var value) var = true.
Proof.
  intros Ht. unfold skipped, assigned.
  rewrite length_set_pos, DictFacts.get_set_eq, Ht. reflexivity.
Qed.

Lemma skipped_set_other a var value u :
  skipped a var = false -> skipped a u = true ->
  skipped (Dict.set a var value) u = true.
Proof.
  intros Hvar Hu. unfold skipped, assigned in *.
  assert (Hne : var <> u) by (intros ->; congruence).
  rewrite length_set_pos, DictFacts.get_set_ne by exact Hne.
  apply andb_true_iff in Hu. destruct Hu as [_ Hu]. rewrite Hu. reflexivity.
Qed.

Lemma filter_length_lt {A} (p q : A -> bool) l x :
  (forall u, q u = true -> p u = true) ->
  In x l -> p x = true -> q x = false ->
  List.length (filter q l) < List.length (filter p l).
Proof.
  intros Himp. induction l as [|y l IH]; simpl; [tauto|].
  assert (Hle : List.length (filter q l) <= List.length (filter p l)).
  { clear IH. induction l as [|z l IHl]; simpl; auto.
    destruct (q z) eqn:Eq.
    - rewrite (Himp z Eq). simpl. lia.
    - destruct (p z); simpl; lia. }
  intros [->|Hin] Hp Hq.
  - rewrite Hp, Hq. simpl. lia.
  - specialize (IH Hin Hp Hq). destruct (q y) eqn:Eq.
    + rewrite (Himp y Eq). simpl. lia.
    + destruct (p y); simpl; lia.
Qed.

(** Assigning a word that is not empty to a variable that was not
    assigned leaves fewer variables to assign. *)
Lemma unassigned_count_set a var value :
  In var (variables c) -> skipped a var = false -> truthy value = true ->
  unassigned_count c (Dict.set a var value) < unassigned_count c a.
Proof.
  intros Hvar Hs Ht. unfold unassigned_count.
  apply filter_length_lt with (x := var); auto.
  - intros u Hu. apply negb_true_iff in Hu. apply negb_true_iff.
    destruct (skipped a u) eqn:Eu; [|reflexivity].
    rewrite (skipped_set_other a var value u Hs Eu) in Hu. discriminate.
  - rewrite Hs. reflexivity.
  - rewrite (skipped_set_same a var value Ht). reflexivity.
Qed.

Lemma store_ok_wf d : NoDup (variables c) -> store_ok c d -> Dict.wf d.
Proof. intros Hnd [_ Hk]. unfold Dict.wf. rewrite Hk. exact Hnd. Qed.

Lemma store_ok_set (d : store) var dx value :
  store_ok c d -> Dict.get d var = Some dx -> In value dx ->
  store_ok c (Dict.set d var [value]).
Proof.
  intros [Hnc Hk] Hget Hin. split.
  - apply node_consistent_set; auto. eapply Hnc; eauto.
  - rewrite DictFacts.keys_set_present; auto.
    eapply DictFacts.get_some_in_keys; eauto.
Qed.

Lemma store_ok_narrows d d' : store_ok c d -> narrows d d' -> store_ok c d'.
Proof.
  intros [Hnc Hk] Hn. split.
  - eapply narrows_node_consistent; eauto.
  - destruct Hn as [-> _]. exact Hk.
Qed.

(** Every variable is assigned: the assignment is complete. *)
Lemma all_skipped_complete a :
  NoDup (variables c) -> fits c a ->
  (forall u, In u (variables c) -> skipped a u = true) ->
  assignment_complete c a = true.
Proof.
  intros Hnd (Hwf & Hkeys & _) Hall. unfold assignment_complete.
  assert (Hin : forall u, In u (variables c) -> In u (Dict.keys a)).
  { intros u Hu. specialize (Hall u Hu). unfold skipped, assigned in Hall.
    apply andb_true_iff in Hall. destruct Hall as [_ Hall].
    destruct (Dict.get a u) eqn:E; [|discriminate].
    eapply DictFacts.get_some_in_keys; eauto. }
  assert (Hlen : List.length a = List.length (variables c)).
  { rewrite <- (length_map fst a). apply Permutation_length.
    apply NoDup_Permutation; auto. intros u. split; auto. }
  rewrite Hlen, Nat.eqb_refl. apply forallb_forall. intros w Hw.
  apply in_map_iff in Hw. destruct Hw as ([k w0] & <- & Hkw). simpl.
  pose proof (get_of_in a k w0 Hwf Hkw) as Hget.
  assert (Hk : In k (variables c)).
  { apply Hkeys. apply (in_map fst) in Hkw. exact Hkw. }
  specialize (Hall k Hk). unfold skipped, assigned in Hall.
  rewrite Hget in Hall. apply andb_true_iff in Hall. tauto.
Qed.

Lemma backtrack_loop_returns (rec : assignment -> store -> outcome)
      depth var assignment1 d dx :
  well_formed c ->
  In var (variables c) -> skipped assignment1 var = false ->
  fits c assignment1 -> store_ok c d -> Dict.get d var = Some dx ->
  (forall a' d', fits c a' -> store_ok c d' ->
     unassigned_count c a' < unassigned_count c assignment1 ->
     exists R, rec a' d' = Ok R) ->
  forall values,
    (forall x, In x values -> In x dx) ->
    exists R, backtrack_loop c rec depth var assignment1 values
                             assignment1 d = Ok R.
Proof.
  intros (Hrange & Hnd & Hpos) Hvar Hskip Hfits Hok Hdx Hrec.
  induction values as [|value values IH]; intros Hincl; simpl; [eauto|].
  assert (IH' : exists R, backtrack_loop c rec depth var assignment1 values
                            assignment1 d = Ok R).
  { apply IH. intros x Hx. apply Hincl. right; exact Hx. }
  assert (Hin : In value dx) by (apply Hincl; left; reflexivity).
  assert (Hlen : String.length value = length var).
  { destruct Hok as [Hnc _]. eapply Hnc; eauto. }
  assert (Htruthy : truthy value = true).
  { apply truthy_true. intros ->. simpl in Hlen.
    specialize (Hpos var Hvar). lia. }
  pose proof (fits_set assignment1 var value Hfits Hvar Hlen) as Hfits1.
  destruct (consistent_returns _ Hrange Hfits1) as (ok & ->). simpl.
  destruct ok.
  - pose proof (store_ok_set d var dx value Hok Hdx Hin) as Hok1.
    destruct (ac3_ok c (Some (map (fun i => (i, var)) (neighbors c var)))
                     false (Dict.set d var [value])) as (ok3 & d2 & -> & Hn);
      auto.
    + destruct Hok1; auto.
    + intros v Hv. destruct Hok1 as [_ ->]. exact Hv.
    + apply probe_arcs_valid. exact Hvar.
    + simpl. destruct ok3; simpl; [|eauto].
      destruct (Hrec (Dict.set assignment1 var value) d2) as ([[r d3] t1] & ->);
        auto.
      * eapply store_ok_narrows; eauto.
      * apply unassigned_count_set; auto.
      * simpl. destruct (ret_truthy r); [eauto|].
        destruct IH' as ([[r' d4] t2] & ->). simpl. eauto.
  - destruct IH' as ([[r' d4] t2] & ->). simpl. eauto.
Qed.

Lemma backtrack_returns fuel :
  well_formed c ->
  forall depth a d,
    fits c a -> store_ok c d -> unassigned_count c a < fuel ->
    exists R, backtrack c fuel depth a d = Ok R.
Proof.
  intros Hwf. pose proof Hwf as (Hrange & Hnd & Hpos).
  induction fuel as [|fuel IH]; intros depth a d Hfits Hok Hcount;
    [lia|]. simpl.
  destruct (assignment_complete c a) eqn:Ecomp; [eauto|].
  destruct (select_loop_total c a d (variables c)) with
    (length_ := @None nat) (chosen := @None Var) (ln := 0) as (r & Es).
  { intros u Hu. destruct Hok as [_ ->]. exact Hu. }
  fold (select_unassigned_variable c a d) in Es. rewrite Es. simpl.
  destruct r as [var|].
  - pose proof (select_minimum c a d var Es) as (Hvar & Hskip & _).
    destruct (order_domain_values_ok c var a d) as (values & d0 & Eo); auto.
    { destruct Hok; auto. }
    { destruct Hok; auto. }
    rewrite Eo. simpl.
    pose proof (order_domain_values_restores c var a d values d0
                  (store_ok_wf d Hnd Hok) Eo) as ->.
    destruct (order_domain_values_reads var a d values d Eo) as (dx & Hdx).
    destruct (backtrack_loop_returns (backtrack c fuel (S depth)) depth var
                a d dx Hwf Hvar Hskip Hfits Hok Hdx) with (values := values)
      as ([[r d1] t1] & ->).
    + intros a' d' Hf' Ho' Hlt. apply IH; auto. lia.
    + eapply order_domain_values_incl; eauto.
    + simpl. eauto.
  - pose proof (select_none c a d Es) as Hall.
    rewrite (all_skipped_complete a Hnd Hfits Hall) in Ecomp. discriminate.
Qed.

(** More fuel does not change what a search returns. *)
Lemma backtrack_loop_more_fuel (rec rec' : assignment -> store -> outcome)
      depth var assignment1 :
  (forall a d R, rec a d = Ok R -> rec' a d = Ok R) ->
  forall values a d R,
    backtrack_loop c rec depth var assignment1 values a d = Ok R ->
    backtrack_loop c rec' depth var assignment1 values a d = Ok R.
Proof.
  intros Hrec.
  induction values as [|value values IH]; intros a d R H; simpl in *;
    [exact H|].
  destruct (consistent c (Dict.set a var value)) as [ok| |];
    simpl in *; try discriminate.
  destruct ok.
  - destruct (ac3 c _ false (Dict.set d var [value])) as [[ok3 d2]| |];
      simpl in *; try discriminate.
    destruct ok3; simpl in *; [|exact H].
    destruct (rec (Dict.set a var value) d2) as [[[result d3] t1]| |] eqn:Er;
      simpl in H; try discriminate.
    rewrite (Hrec _ _ _ Er). simpl.
    destruct (ret_truthy result); [exact H|].
    destruct (backtrack_loop c rec depth var assignment1 values
                             assignment1 d) as [[[r d4] t2]| |] eqn:El;
      simpl in H; try discriminate.
    rewrite (IH _ _ _ El). simpl. exact H.
  - destruct (backtrack_loop c rec depth var assignment1 values
                             assignment1 d) as [[[r d4] t2]| |] eqn:El;
      simpl in H; try discriminate.
    rewrite (IH _ _ _ El). simpl. exact H.
Qed.

Lemma backtrack_more_fuel fuel :
  forall k depth a d R,
    backtrack c fuel depth a d = Ok R ->
    backtrack c (fuel + k) depth a d = Ok R.
Proof.
  induction fuel as [|fuel IH]; intros k depth a d R H; simpl in *;
    [discriminate|].
  destruct (assignment_complete c a); [exact H|].
  destruct (select_unassigned_variable c a d) as [[var|]| |];
    simpl in *; try discriminate.
  destruct (order_domain_values c var a d) as [[values d0]| |];
    simpl in *; try discriminate.
  destruct (backtrack_loop c (backtrack c fuel (S depth)) depth var a
                           values a d0) as [[[r d1] t1]| |] eqn:El;
    simpl in H; try discriminate.
  rewrite (backtrack_loop_more_fuel (backtrack c fuel (S depth))
             (backtrack c (fuel + k) (S depth)) depth var a
             (fun a0 d2 R0 => IH k (S depth) a0 d2 R0) _ _ _ _ El).
  simpl. exact H.
Qed.

Lemma unassigned_count_le a :
  unassigned_count c a <= List.length (variables c).
Proof. unfold unassigned_count. apply length_filter_le. Qed.

(** X21. On a puzzle as crossword.py builds one, [solve] returns: it
    raises no exception, and the recursion of [backtrack] is never
    deeper than the number of variables, so that a mapping, None or
    False comes back with fuel for one call more than there are
    variables and is the same with any larger amount. *)
Theorem solve_returns :
  well_formed c ->
  exists r d t,
    forall k, run c (S (List.length (variables c)) + k) = Ok (r, d, t).
Proof.
  intros Hwf. pose proof Hwf as (Hrange & Hnd & Hpos).
  unfold run, solve.
  assert (Hok : store_ok c (enforce_node_consistency (init_domains c))).
  { split; [apply enforce_node_consistent|].
    rewrite keys_enforce. apply keys_init. }
  destruct (ac3_ok c None false (enforce_node_consistency (init_domains c)))
    as (b & d2 & Ea & Hn); auto.
  { destruct Hok; auto. }
  { intros v Hv. destruct Hok as [_ ->]. exact Hv. }
  { exact I. }
  destruct (backtrack_returns (S (List.length (variables c))) Hwf 0 [] d2)
    as ([[r d3] t] & Hb).
  - split; [constructor|]. split; [intros v []|]. intros v w H. discriminate.
  - eapply store_ok_narrows; eauto.
  - pose proof (unassigned_count_le []). lia.
  - exists r, d3, t. intros k. rewrite Ea. cbn [bind].
    apply backtrack_more_fuel. exact Hb.
Qed.

End MoreSearchFacts.

(** ** The letter grid *)

Section LetterGridFacts.

Lemma setitem_spec {A} (l : list A) : forall n x l',
  setitem l n x = Ok l' ->
  n < List.length l /\ nth_error l' n = Some x /\
  List.length l' = List.length l /\
  forall m, m <> n -> nth_error l' m = nth_error l m.
Proof.
  induction l as [|y l IH]; intros n x l' H; simpl in H; [discriminate|].
  destruct n as [|n].
  - inversion H; subst. simpl. repeat split; auto; [lia|].
    intros [|m] Hm; [congruence | reflexivity].
  - destruct (setitem l n x) as [l''| |] eqn:E; simpl in H; try discriminate.
    inversion H; subst. destruct (IH _ _ _ E) as (H0 & H1 & H2 & H3).
    simpl. repeat split; auto; [lia|].
    intros [|m] Hm; simpl; auto.
Qed.

Lemma setitem_returns {A} (l : list A) : forall n x,
  n < List.length l -> exists l', setitem l n x = Ok l'.
Proof.
  induction l as [|y l IH]; intros n x Hn; simpl in *; [lia|].
  destruct n as [|n]; [eauto|].
  destruct (IH n x) as (l' & ->); [lia|]. simpl. eauto.
Qed.

Lemma setitem_error {A} (l : list A) : forall n x,
  List.length l <= n -> setitem l n x = Raise IndexError.
Proof.
  induction l as [|y l IH]; intros n x Hn; simpl in *; [reflexivity|].
  destruct n as [|n]; [lia|]. rewrite IH by lia. reflexivity.
Qed.

Lemma cell_some g i j x :
  cell g i j = Some x <->
  exists row, nth_error g i = Some row /\ nth_error row j = Some x.
Proof.
  unfold cell. destruct (nth_error g i) as [row|].
  - split; [eauto|]. intros (row' & E & H). inversion E; subst. exact H.
  - split; [discriminate|]. intros (row' & E & _). discriminate.
Qed.

(** The assignment of a cell: it raises nothing exactly when the
    array has the cell, and changes that cell only. *)
Lemma set_cell_spec g i j ch g' :
  set_cell g i j ch = Ok g' ->
  cell g i j <> None /\ cell g' i j = Some (Some ch) /\
  (forall i' j', (i', j') <> (i, j) -> cell g' i' j' = cell g i' j') /\
  List.length g' = List.length g /\
  forall n, (forall row, In row g -> List.length row = n) ->
            forall row, In row g' -> List.length row = n.
Proof.
  unfold set_cell, getitem. intros H.
  destruct (nth_error g i) as [row|] eqn:Er; simpl in H; [|discriminate].
  destruct (setitem row j (Some ch)) as [row'| |] eqn:Es; simpl in H;
    try discriminate.
  destruct (setitem_spec _ _ _ _ Es) as (Hj & Hnew & Hlen & Hother).
  destruct (setitem_spec _ _ _ _ H) as (Hi & Hnew' & Hlen' & Hother').
  split; [|split; [|split; [|split]]].
  - unfold cell. rewrite Er. intros Hn. apply nth_error_None in Hn. lia.
  - unfold cell. rewrite Hnew'. exact Hnew.
  - intros i' j' Hne. unfold cell. destruct (Nat.eq_dec i' i) as [->|Hi'].
    + rewrite Hnew', Er. apply Hother. intros ->. apply Hne. reflexivity.
    + rewrite Hother' by exact Hi'. reflexivity.
  - exact Hlen'.
  - intros n Hrows r Hr. apply In_nth_error in Hr. destruct Hr as (m & Hm).
    destruct (Nat.eq_dec m i) as [->|Hmi].
    + rewrite Hnew' in Hm. inversion Hm; subst. rewrite Hlen.
      apply Hrows. eapply nth_error_In; eauto.
    + rewrite Hother' in Hm by exact Hmi. apply Hrows.
      eapply nth_error_In; eauto.
Qed.

Lemma set_cell_returns g i j ch :
  cell g i j <> None -> exists g', set_cell g i j ch = Ok g'.
Proof.
  unfold cell, set_cell, getitem. intros H.
  destruct (nth_error g i) as [row|] eqn:Er; [|congruence]. simpl.
  destruct (setitem_returns row j (Some ch)) as (row' & ->).
  { apply nth_error_Some. exact H. }
  simpl. apply setitem_returns. apply nth_error_Some. congruence.
Qed.

Lemma set_cell_error g i j ch :
  cell g i j = None -> set_cell g i j ch = Raise IndexError.
Proof.
  unfold cell, set_cell, getitem. intros H.
  destruct (nth_error g i) as [row|] eqn:Er; [|reflexivity]. simpl.
  rewrite setitem_error; [reflexivity|]. apply nth_error_None. exact H.
Qed.

Lemma set_cell_domain g i j ch g' :
  set_cell g i j ch = Ok g' ->
  forall i' j', cell g' i' j' = None <-> cell g i' j' = None.
Proof.
  intros H i' j'. destruct (set_cell_spec _ _ _ _ _ H) as (H0 & H1 & H2 & _).
  destruct (Nat.eq_dec i' i) as [->|Hi];
    [destruct (Nat.eq_dec j' j) as [->|Hj]|].
  - rewrite H1. split; [discriminate | tauto].
  - rewrite H2; [tauto|]. intros E. inversion E. tauto.
  - rewrite H2; [tauto|]. intros E. inversion E. tauto.
Qed.

Lemma cell_injective v k k' :
  cell_i v k = cell_i v k' -> cell_j v k = cell_j v k' -> k = k'.
Proof. unfold cell_i, cell_j. destruct (direction v); lia. Qed.

Lemma cell_empty_grid height width i j :
  cell (empty_grid height width) i j
  = if (i <? height) && (j <? width) then Some None else None.
Proof.
  unfold cell, empty_grid.
  destruct (i <? height) eqn:Ei.
  - apply Nat.ltb_lt in Ei. rewrite nth_error_repeat by exact Ei. simpl.
    destruct (j <? width) eqn:Ej.
    + apply Nat.ltb_lt in Ej. apply nth_error_repeat. exact Ej.
    + apply Nat.ltb_ge in Ej. apply nth_error_None.
      rewrite repeat_length. exact Ej.
  - apply Nat.ltb_ge in Ei. simpl.
    replace (nth_error (repeat (repeat None width) height) i)
      with (@None (list (option ascii))); [reflexivity|].
    symmetry. apply nth_error_None. rewrite repeat_length. exact Ei.
Qed.

Lemma cell_empty_grid_none height width i j :
  cell (empty_grid height width) i j <> None <-> i < height /\ j < width.
Proof.
  rewrite cell_empty_grid. split.
  - intros H.
    destruct (i <? height) eqn:Ei; destruct (j <? width) eqn:Ej;
      simpl in H; try congruence.
    apply Nat.ltb_lt in Ei. apply Nat.ltb_lt in Ej. split; assumption.
  - intros [Hi Hj]. apply Nat.ltb_lt in Hi. apply Nat.ltb_lt in Hj.
    rewrite Hi, Hj. discriminate.
Qed.

(** One word written into the array. *)
Lemma letter_word_spec v w : forall ks g g',
  letter_word v w ks g = Ok g' ->
  (forall i j, cell g' i j = None <-> cell g i j = None) /\
  (forall i j, cell g' i j = cell g i j \/
     exists k ch, In k ks /\ String.get k w = Some ch /\
                  cell_i v k = i /\ cell_j v k = j /\
                  cell g' i j = Some (Some ch)) /\
  (forall k, In k ks -> cell g (cell_i v k) (cell_j v k) <> None) /\
  List.length g' = List.length g /\
  forall n, (forall row, In row g -> List.length row = n) ->
            forall row, In row g' -> List.length row = n.
Proof.
  induction ks as [|k ks IH]; intros g g' H; simpl in H.
  - inversion H; subst. split; [tauto|]. split; [auto|].
    split; [intros k []|]. split; auto.
  - unfold index in H.
    destruct (String.get k w) as [ch|] eqn:Ech; simpl in H; [|discriminate].
    destruct (set_cell g (cell_i v k) (cell_j v k) ch) as [g1| |] eqn:Es;
      simpl in H; try discriminate.
    destruct (set_cell_spec _ _ _ _ _ Es) as (S0 & S1 & S2 & S3 & S4).
    pose proof (set_cell_domain _ _ _ _ _ Es) as Sd.
    destruct (IH _ _ H) as (I0 & I1 & I2 & I3 & I4).
    split; [|split; [|split; [|split]]].
    + intros i j. rewrite I0. apply Sd.
    + intros i j. destruct (I1 i j) as [E|(k' & ch' & Hk' & Hrest)].
      * destruct (Nat.eq_dec i (cell_i v k)) as [->|Hi];
          [destruct (Nat.eq_dec j (cell_j v k)) as [->|Hj]|].
        -- right. exists k, ch. rewrite E, S1. simpl. auto 6.
        -- left. rewrite E. apply S2. intros E'. inversion E'. tauto.
        -- left. rewrite E. apply S2. intros E'. inversion E'. tauto.
      * right. exists k', ch'. simpl. tauto.
    + intros k' [<-|Hk']; [exact S0|]. rewrite <- Sd. apply I2. exact Hk'.
    + congruence.
    + intros n Hrows. apply I4. apply S4. exact Hrows.
Qed.

(** Indices without repetition: every letter of the word is in the
    array once the loop is over. *)
Lemma letter_word_writes v w : forall ks g g',
  NoDup ks -> letter_word v w ks g = Ok g' ->
  forall k, In k ks ->
  exists ch, String.get k w = Some ch /\
             cell g' (cell_i v k) (cell_j v k) = Some (Some ch).
Proof.
  induction ks as [|k0 ks IH]; intros g g' Hnd H k Hk; simpl in *; [tauto|].
  inversion Hnd as [|? ? Hnotin Hnd']; subst.
  unfold index in H.
  destruct (String.get k0 w) as [ch|] eqn:Ech; simpl in H; [|discriminate].
  destruct (set_cell g (cell_i v k0) (cell_j v k0) ch) as [g1| |] eqn:Es;
    simpl in H; try discriminate.
  destruct Hk as [<-|Hk]; [|eapply IH; eauto].
  exists ch. split; [exact Ech|].
  destruct (set_cell_spec _ _ _ _ _ Es) as (_ & S1 & _).
  destruct (letter_word_spec _ _ _ _ _ H) as (_ & I1 & _).
  destruct (I1 (cell_i v k0) (cell_j v k0))
    as [E|(k' & ch' & Hk' & _ & Hi & Hj & _)].
  - rewrite E. exact S1.
  - rewrite (cell_injective v k' k0 Hi Hj) in Hk'. contradiction.
Qed.

Lemma letter_word_returns v w : forall ks g,
  (forall k, In k ks -> k < String.length w /\
                        cell g (cell_i v k) (cell_j v k) <> None) ->
  exists g', letter_word v w ks g = Ok g'.
Proof.
  induction ks as [|k ks IH]; intros g Hks; simpl; [eauto|].
  destruct (Hks k (or_introl eq_refl)) as [Hlt Hcell].
  unfold index. destruct (get_in_range w k Hlt) as (ch & ->). simpl.
  destruct (set_cell_returns g _ _ ch Hcell) as (g1 & Es). rewrite Es. simpl.
  apply IH. intros k' Hk'. destruct (Hks k' (or_intror Hk')) as [Hlt' Hc'].
  split; [exact Hlt'|]. rewrite (set_cell_domain _ _ _ _ _ Es). exact Hc'.
Qed.

Lemma set_cell_outcome g i j ch :
  (exists g', set_cell g i j ch = Ok g') \/
  set_cell g i j ch = Raise IndexError.
Proof.
  destruct (cell g i j) eqn:E.
  - left. apply set_cell_returns. congruence.
  - right. apply set_cell_error. exact E.
Qed.

Lemma letter_word_outcome v w : forall ks g,
  (exists g', letter_word v w ks g = Ok g') \/
  letter_word v w ks g = Raise IndexError.
Proof.
  induction ks as [|k ks IH]; intros g; simpl; [eauto|].
  unfold index. destruct (String.get k w) as [ch|]; simpl; [|auto].
  destruct (set_cell_outcome g (cell_i v k) (cell_j v k) ch) as [(g1 & ->)| ->];
    simpl; auto.
Qed.

Lemma covers_cons v w items i j ch :
  covers ((v, w) :: items) i j ch <->
  (exists k, String.get k w = Some ch /\ cell_i v k = i /\ cell_j v k = j) \/
  covers items i j ch.
Proof.
  unfold covers. split.
  - intros (v' & w' & k & [E|Hin] & Hrest).
    + inversion E; subst. left. exists k. exact Hrest.
    + right. exists v', w', k. tauto.
  - intros [(k & Hrest)|(v' & w' & k & Hin & Hrest)].
    + exists v, w, k. simpl. tauto.
    + exists v', w', k. simpl. tauto.
Qed.

Lemma get_some_lt w : forall k ch,
  String.get k w = Some ch -> k < String.length w.
Proof.
  intros k ch H. destruct (Nat.lt_ge_cases k (String.length w)) as [|Hge];
    [assumption|]. rewrite (get_out_of_range w k Hge) in H. discriminate.
Qed.

(** All the words written into the array. *)
Lemma letter_loop_spec : forall items g g',
  letter_loop items g = Ok g' ->
  (forall i j, cell g' i j = None <-> cell g i j = None) /\
  (forall i j, cell g' i j = cell g i j \/
     exists ch, covers items i j ch /\ cell g' i j = Some (Some ch)) /\
  (forall i j ch, covers items i j ch ->
     cell g i j <> None /\
     exists ch', covers items i j ch' /\ cell g' i j = Some (Some ch')) /\
  List.length g' = List.length g /\
  forall n, (forall row, In row g -> List.length row = n) ->
            forall row, In row g' -> List.length row = n.
Proof.
  induction items as [|[v w] items IH]; intros g g' H; simpl in H.
  - inversion H; subst. split; [tauto|]. split; [auto|].
    split; [intros i j ch (v & w & k & [] & _)|]. split; auto.
  - destruct (letter_word v w (seq 0 (String.length w)) g) as [g1| |] eqn:Ew;
      simpl in H; try discriminate.
    destruct (letter_word_spec _ _ _ _ _ Ew) as (W0 & W1 & W2 & W3 & W4).
    destruct (IH _ _ H) as (I0 & I1 & I2 & I3 & I4).
    split; [|split; [|split; [|split]]].
    + intros i j. rewrite I0. apply W0.
    + intros i j. destruct (I1 i j) as [E|(ch & Hc & Hg)].
      * destruct (W1 i j) as [E'|(k & ch & _ & Hget & Hi & Hj & Hg)].
        -- left. congruence.
        -- right. exists ch. split; [|congruence].
           apply covers_cons. left. exists k. tauto.
      * right. exists ch. split; [|exact Hg]. apply covers_cons. tauto.
    + intros i j ch Hc. apply covers_cons in Hc.
      destruct Hc as [(k & Hget & Hi & Hj)|Hc].
      * assert (Hk : In k (seq 0 (String.length w))).
        { apply in_seq. pose proof (get_some_lt w k ch Hget). lia. }
        split; [subst i j; apply W2; exact Hk|].
        destruct (letter_word_writes v w _ _ _ (seq_NoDup _ _) Ew k Hk)
          as (ch0 & Hget0 & Hg1).
        rewrite Hi, Hj in Hg1.
        destruct (I1 i j) as [E|(ch' & Hc' & Hg')].
        -- exists ch0. split; [|congruence].
           apply covers_cons. left. exists k. tauto.
        -- exists ch'. split; [|exact Hg']. apply covers_cons. tauto.
      * destruct (I2 i j ch Hc) as (Hin & ch' & Hc' & Hg').
        split; [rewrite <- W0; exact Hin|].
        exists ch'. split; [|exact Hg']. apply covers_cons. tauto.
    + congruence.
    + intros n Hrows. apply I4. apply W4. exact Hrows.
Qed.

Lemma letter_loop_returns : forall items g,
  (forall i j ch, covers items i j ch -> cell g i j <> None) ->
  exists g', letter_loop items g = Ok g'.
Proof.
  induction items as [|[v w] items IH]; intros g Hin; simpl; [eauto|].
  destruct (letter_word_returns v w (seq 0 (String.length w)) g) as (g1 & Ew).
  { intros k Hk. apply in_seq in Hk. split; [lia|].
    destruct (get_in_range w k) as (ch & Hget); [lia|].
    apply (Hin _ _ ch). apply covers_cons. left. exists k. tauto. }
  rewrite Ew. simpl. apply IH. intros i j ch Hc.
  destruct (letter_word_spec _ _ _ _ _ Ew) as (W0 & _). rewrite W0.
  apply (Hin i j ch). apply covers_cons. tauto.
Qed.

Lemma letter_loop_outcome : forall items g,
  (exists g', letter_loop items g = Ok g') \/
  letter_loop items g = Raise IndexError.
Proof.
  induction items as [|[v w] items IH]; intros g; simpl; [eauto|].
  destruct (letter_word_outcome v w (seq 0 (String.length w)) g)
    as [(g1 & ->)| ->]; simpl; auto.
Qed.

Lemma letter_loop_app : forall items items' g,
  letter_loop (items ++ items') g
  = (g' <- letter_loop items g ;; letter_loop items' g').
Proof.
  induction items as [|[v w] items IH]; intros items' g; simpl; [reflexivity|].
  destruct (letter_word v w (seq 0 (String.length w)) g); simpl; auto.
Qed.

(** X22. The array that [letter_grid] returns has [height] rows of
    [width] cells each. *)
Theorem letter_grid_shape height width a g :
  letter_grid height width a = Ok g ->
  List.length g = height /\
  forall row, In row g -> List.length row = width.
Proof.
  unfold letter_grid. intros H.
  destruct (letter_loop_spec _ _ _ H) as (_ & _ & _ & Hlen & Hrows).
  split.
  - rewrite Hlen. apply repeat_length.
  - apply Hrows. intros row Hrow. apply repeat_spec in Hrow. subst.
    apply repeat_length.
Qed.

(** X23. [letter_grid] returns an array exactly when every letter of
    every word of the assignment falls on a cell of the crossword;
    otherwise it raises [IndexError], and never anything else. *)
Theorem letter_grid_bounds height width a :
  ((forall i j ch, covers a i j ch -> i < height /\ j < width) <->
   exists g, letter_grid height width a = Ok g) /\
  ((exists g, letter_grid height width a = Ok g) \/
   letter_grid height width a = Raise IndexError).
Proof.
  unfold letter_grid. split; [split|].
  - intros Hin. apply letter_loop_returns. intros i j ch Hc.
    apply cell_empty_grid_none. eapply Hin; eauto.
  - intros (g & H) i j ch Hc.
    destruct (letter_loop_spec _ _ _ H) as (_ & _ & H2 & _).
    apply cell_empty_grid_none. apply (H2 i j ch Hc).
  - apply letter_loop_outcome.
Qed.

Lemma letter_grid_cells height width a g :
  letter_grid height width a = Ok g ->
  forall i j, i < height -> j < width ->
    (cell g i j = Some None /\ forall ch, ~ covers a i j ch) \/
    exists ch, cell g i j = Some (Some ch) /\ covers a i j ch.
Proof.
  unfold letter_grid. intros H i j Hi Hj.
  destruct (letter_loop_spec _ _ _ H) as (_ & H1 & H2 & _).
  destruct (H1 i j) as [E|(ch & Hc & Hg)]; [|right; eauto].
  rewrite cell_empty_grid in E.
  apply Nat.ltb_lt in Hi, Hj. rewrite Hi, Hj in E. simpl in E.
  left. split; [exact E|]. intros ch Hc.
  destruct (H2 i j ch Hc) as (_ & ch' & _ & Hg). congruence.
Qed.

(** X24. A cell of the array holds None exactly when no word of the
    assignment has a letter there; a letter it holds is a letter that
    some word of the assignment has there. *)
Theorem letter_grid_cell height width a g i j :
  letter_grid height width a = Ok g -> i < height -> j < width ->
  match cell g i j with
  | Some None => forall ch, ~ covers a i j ch
  | Some (Some ch) => covers a i j ch
  | None => False
  end.
Proof.
  intros H Hi Hj.
  destruct (letter_grid_cells _ _ _ _ H i j Hi Hj) as [[-> Hn]|(ch & -> & Hc)];
    assumption.
Qed.

(** X25. Where the words of the assignment that cross a cell agree on
    its letter, the array holds that letter: an assignment whose
    crossing words agree can be read back from the array. *)
Theorem letter_grid_reads height width a g i j ch :
  letter_grid height width a = Ok g ->
  covers a i j ch ->
  (forall ch', covers a i j ch' -> ch' = ch) ->
  cell g i j = Some (Some ch).
Proof.
  unfold letter_grid. intros H Hc Hagree.
  destruct (letter_loop_spec _ _ _ H) as (_ & _ & H2 & _).
  destruct (H2 i j ch Hc) as (_ & ch' & Hc' & Hg).
  rewrite Hg, (Hagree ch' Hc'). reflexivity.
Qed.

(** X26. Where words disagree the later entry wins: the word of the
    last entry of the assignment is in the array letter by letter,
    whatever the entries before it hold. *)
Theorem letter_grid_last height width a v w g k ch :
  letter_grid height width (a ++ [(v, w)]) = Ok g ->
  String.get k w = Some ch ->
  cell g (cell_i v k) (cell_j v k) = Some (Some ch).
Proof.
  unfold letter_grid. rewrite letter_loop_app. intros H Hget.
  destruct (letter_loop a (empty_grid height width)) as [g1| |];
    simpl in H; try discriminate.
  destruct (letter_word v w (seq 0 (String.length w)) g1) as [g2| |] eqn:Ew;
    simpl in H; try discriminate.
  inversion H; subst.
  destruct (letter_word_writes v w _ _ _ (seq_NoDup _ _) Ew k) as (ch0 & E & Hg).
  { apply in_seq. pose proof (get_some_lt w k ch Hget). lia. }
  rewrite Hg. congruence.
Qed.

End LetterGridFacts.

(** ** The further theorems at work *)

Module MoreWitnesses.
Import Examples MoreExamples.
Local Open Scope string_scope.

Lemma revise_effect_witness :
  exists dx dx',
    Dict.get detour_committed right = Some dx /\
    detour_narrowed = Dict.set detour_committed right dx' /\
    (forall w, In w dx' <->
       In w dx /\
       exists dy w', Dict.get detour_committed tail = Some dy /\
                     In w' dy /\ supports 4 1 w w') /\
    (true = false -> detour_narrowed = detour_committed) /\
    (true = true -> List.length dx' < List.length dx).
Proof.
  apply (revise_effect detour right tail detour_committed true
                       detour_narrowed 4 1).
  - vm_compute. reflexivity.
  - vm_compute. reflexivity.
Defined.

Lemma revise_without_overlap_witness :
  revise cycle top bottom cycle_store = Ok (false, cycle_store).
Proof.
  apply (revise_without_overlap cycle top bottom cycle_store).
  vm_compute. reflexivity.
Defined.

Lemma revise_against_empty_witness :
  revise cycle left bottom cycle_end
  = Ok (true, Dict.set cycle_end left []).
Proof.
  apply (revise_against_empty cycle left bottom cycle_end 2 0 ["AXAX"]);
    vm_compute; reflexivity.
Defined.

Lemma revise_index_error_witness :
  revise unfiltered right bottom (init_domains unfiltered)
  = Raise IndexError.
Proof.
  apply (revise_index_error unfiltered right bottom (init_domains unfiltered)
           2 2 "XP" ["AXA"; "AXAX"; "AXBXX"] "XP" ["AXA"; "AXAX"; "AXBXX"]).
  - vm_compute. reflexivity.
  - vm_compute. reflexivity.
  - vm_compute. reflexivity.
  - left. simpl. lia.
Defined.

Lemma detour_in_range : overlaps_in_range detour.
Proof.
  intros x y m n Hx Hy. cases_in Hx; cases_in Hy; subst;
    vm_compute; intros H; inversion H; subst; split; lia.
Qed.

Lemma detour_symmetric : symmetric_overlaps detour.
Proof.
  intros x y m n Hx Hy. cases_in Hx; cases_in Hy; subst;
    vm_compute; intros H; inversion H; reflexivity.
Qed.

Lemma detour_committed_node_consistent : node_consistent detour_committed.
Proof.
  intros v ws w H Hw. cases_get H; cases_in Hw; subst; reflexivity.
Qed.

Lemma ac3_no_exception_witness :
  exists b d', ac3 detour (Some [(right, tail)]) false detour_committed
               = Ok (b, d') /\ node_consistent d'.
Proof.
  apply (ac3_no_exception detour (Some [(right, tail)]) false
                          detour_committed).
  - exact detour_in_range.
  - exact detour_committed_node_consistent.
  - intros v Hv. exact Hv.
  - simpl. constructor; [|constructor]. split; simpl.
    + vm_compute. tauto.
    + tauto.
Defined.

Lemma ac3_narrows_witness :
  Dict.keys detour_narrowed = Dict.keys detour_committed /\
  forall v dv', Dict.get detour_narrowed v = Some dv' ->
    exists dv, Dict.get detour_committed v = Some dv /\
               forall w, In w dv' -> In w dv.
Proof.
  apply (ac3_narrows detour (Some [(right, tail)]) false detour_committed
                     true detour_narrowed).
  vm_compute. reflexivity.
Defined.

Lemma ac3_result_witness :
  exists x dx, Dict.get (Dict.set cycle_store top ["AXA"]) x = Some dx /\
               dx <> [] /\ Dict.get cycle_end x = Some [].
Proof.
  apply (ac3_result cycle (Some [(left, top); (right, top)]) false
                    (Dict.set cycle_store top ["AXA"]) false cycle_end).
  - vm_compute. reflexivity.
  - reflexivity.
Defined.

Lemma ac3_restricted_frame_witness :
  Dict.get [(top, ["AXA"]); (bottom, ["AXA"; "BXB"]); (left, ["AXAX"]);
            (right, ["AXBXX"])] bottom
  = Dict.get (Dict.set cycle_store top ["AXA"]) bottom.
Proof.
  apply (ac3_restricted_frame cycle [(left, top); (right, top)]
           (Dict.set cycle_store top ["AXA"]) true).
  - vm_compute. reflexivity.
  - simpl. intuition discriminate.
Defined.

Lemma ac3_idempotent_witness :
  ac3 detour None false detour_store = Ok (true, detour_store).
Proof.
  apply (ac3_idempotent detour
           (enforce_node_consistency (init_domains detour)) detour_store).
  - exact detour_symmetric.
  - exact detour_in_range.
  - apply enforce_node_consistent.
  - intros v Hv. exact Hv.
  - vm_compute. reflexivity.
Defined.

Lemma detour_variables_distinct : NoDup (variables detour).
Proof.
  simpl. repeat (constructor; [simpl; intuition discriminate|]). constructor.
Qed.

Lemma assignment_complete_iff_witness :
  (assignment_complete detour detour_solution = true /\
   (forall v, In v (Dict.keys detour_solution) -> In v (variables detour)))
  <-> complete_assignment detour detour_solution.
Proof.
  apply (assignment_complete_iff detour detour_solution).
  - nodup_keys.
  - exact detour_variables_distinct.
Defined.

Lemma consistent_iff_witness :
  consistent detour detour_solution = Ok true
  <-> consistent_assignment detour detour_solution.
Proof.
  apply (consistent_iff detour detour_solution). nodup_keys.
Defined.

Lemma select_unassigned_variable_spec_witness :
  exists r, select_unassigned_variable tie [] tie_store = Ok r /\
    match r with
    | None => forall u, In u (variables tie) -> skipped [] u = true
    | Some v =>
        In v (variables tie) /\ skipped [] v = false /\
        exists dv, Dict.get tie_store v = Some dv /\
          forall u du, In u (variables tie) -> skipped [] u = false ->
                       Dict.get tie_store u = Some du ->
                       List.length dv <= List.length du
    end.
Proof.
  apply (select_unassigned_variable_spec tie [] tie_store).
  intros v Hv. exact Hv.
Defined.

Lemma select_unassigned_variable_exact_witness :
  exists pre f post,
    variables tie = (pre ++ f :: post)%list /\
    skipped [] f = false /\
    (forall u, In u pre -> skipped [] u = false ->
               domain_size tie_store f < domain_size tie_store u) /\
    (forall u, In u post -> skipped [] u = false ->
               domain_size tie_store f <= domain_size tie_store u) /\
    left = last (filter (replaces tie [] tie_store (domain_size tie_store f)
                                  (degree tie f)) post) f.
Proof.
  apply (select_unassigned_variable_exact tie [] tie_store left).
  vm_compute. reflexivity.
Defined.

Lemma order_domain_values_offers_witness :
  exists d1 b d2,
    after_probes cycle top (neighbors cycle top) ["AXA"] cycle_store = Ok d1 /\
    probe cycle top (neighbors cycle top) "BXB" d1 = Ok (b, d2) /\
    (In "BXB" ["AXA"] <-> b = true).
Proof.
  apply (order_domain_values_offers cycle top [] cycle_store ["AXA"] "BXB" []
                                    ["AXA"] cycle_probed).
  - reflexivity.
  - simpl. intuition discriminate.
  - simpl. tauto.
  - vm_compute. reflexivity.
Defined.


Lemma backtrack_none_restores_witness : scarce_after = scarce_store.
Proof.
  apply (backtrack_none_restores scarce 5 0 [] scarce_store scarce_after
                                 scarce_trace).
  - nodup_keys.
  - vm_compute. reflexivity.
Defined.

Lemma solve_store_committed_witness :
  exists dv, Dict.get detour_end tail = Some dv /\ dv <> [] /\
             forall x, In x dv -> x = "XQ".
Proof.
  apply (solve_store_committed detour 6 (init_domains detour) detour_solution
                               detour_end detour_trace).
  - vm_compute. reflexivity.
  - reflexivity.
Defined.

Lemma solve_uses_vocabulary_witness :
  In "XQ" (words detour) /\ String.length "XQ" = length tail.
Proof.
  apply (solve_uses_vocabulary detour 6 detour_solution detour_end
                               detour_trace).
  - vm_compute. reflexivity.
  - reflexivity.
Defined.

Lemma consistent_no_exception_witness :
  consistent detour detour_solution = Ok true \/
  consistent detour detour_solution = Ok false.
Proof.
  apply (consistent_no_exception detour detour_solution).
  - exact detour_in_range.
  - split; [nodup_keys|]. split.
    + intros v Hv. simpl in Hv. simpl. tauto.
    + intros v w H. cases_get H; subst; reflexivity.
Defined.

Lemma detour_well_formed : well_formed detour.
Proof.
  split; [exact detour_in_range|]. split; [exact detour_variables_distinct|].
  intros v Hv. cases_in Hv; subst; simpl; lia.
Qed.

Lemma solve_returns_witness :
  exists r d t,
    forall k, run detour (S (List.length (variables detour)) + k)
              = Ok (r, d, t).
Proof.
  apply (solve_returns detour). exact detour_well_formed.
Defined.

Lemma letter_grid_shape_witness :
  List.length detour_letters = 5 /\
  forall row, In row detour_letters -> List.length row = 3.
Proof.
  apply (letter_grid_shape 5 3 detour_solution detour_letters).
  vm_compute. reflexivity.
Defined.

Lemma letter_grid_cell_witness : covers detour_solution 0 0 "A".
Proof.
  apply (letter_grid_cell 5 3 detour_solution detour_letters 0 0).
  - vm_compute. reflexivity.
  - lia.
  - lia.
Defined.

Lemma letter_grid_reads_witness :
  cell detour_letters 0 0 = Some (Some "A"%char).
Proof.
  apply (letter_grid_reads 5 3 detour_solution detour_letters 0 0 "A").
  - vm_compute. reflexivity.
  - exists top, "AXA", 0. simpl. tauto.
  - intros ch (v & w & k & Hin & Hget & Hi & Hj).
    unfold cell_i, cell_j in Hi, Hj.
    cases_in Hin; inversion Hin; subst; simpl in Hi, Hj;
      try lia; assert (k = 0) as -> by lia; simpl in Hget; congruence.
Defined.

Lemma letter_grid_last_witness :
  cell clash_letters (cell_i left 0) (cell_j left 0) = Some (Some "A"%char).
Proof.
  apply (letter_grid_last 5 3 [(top, "BBB")] left "AXAX" clash_letters 0 "A").
  - vm_compute. reflexivity.
  - reflexivity.
Defined.

End MoreWitnesses.
